(** * The asynchronous request layer built on libhandler

    A shallow embedding of the async layer (effect operations, cancel
    scopes, asynchronous requests, the main async handler and the channel
    async handler) together with the properties its specification states.

    Conventions of the embedding.
    - C pointers are typed: a pointer is [None] (NULL) or [Some] reference
      to an object of its type; objects live in one store per C type.
    - [lh_value] (a [long long] that also carries pointers) is either a
      plain integer or a non-null pointer; NULL is the integer 0.
    - A C function is a function into [exec]: a state transformer whose
      outcome tells a normal return from an exit to a handler, a thrown
      exception, a failed [assert] and an undefined memory access. *)

From stdpp Require Import gmap strings list fin_maps.
From Stdlib Require Import ZArith Lia.

Local Open Scope Z_scope.

(** ** Pointers and generic values *)

Definition block := positive.

(** An [async_request_t*] points to a request allocated on its own or to the
    [requests] member embedded in an [async_local_t]. *)
Inductive request_ref :=
| Req_at (b : block)
| Requests_of (l : block).

#[global] Instance request_ref_eq_dec : EqDecision request_ref.
Proof. solve_decision. Defined.

Definition async_request_ptr := option request_ref.
Definition uv_req_ptr := option block.
Definition uv_loop_ptr := option block.
Definition cancel_scope_ptr := option block.
Definition async_local_ptr := option block.

(** A non-null [void*] with the type of the object it points to. *)
Inductive pointer :=
| P_async_request (r : request_ref)
| P_async_local (b : block)
| P_uv_loop (b : block)
| P_cancel_scope (b : block).

#[global] Instance pointer_eq_dec : EqDecision pointer.
Proof. solve_decision. Defined.

(** [typedef long long lh_value]. *)
Inductive lh_value :=
| lh_long (n : Z)
| lh_pointer (p : pointer).

#[global] Instance lh_value_eq_dec : EqDecision lh_value.
Proof. solve_decision. Defined.

(** [#define lh_value_null ((lh_value)0)] *)
Definition lh_value_null : lh_value := lh_long 0.

(** [(int)v]: the low 32 bits, read as a signed number. *)
Definition int_of_long (n : Z) : Z := (n + 2 ^ 31) mod 2 ^ 32 - 2 ^ 31.

Definition int_range (i : Z) : Prop := - 2 ^ 31 <= i < 2 ^ 31.

(** [#define lh_value_int(i) ((lh_value)(i))] *)
Definition lh_value_int (i : Z) : lh_value := lh_long i.

(** [#define lh_int_value(v) ((int)v)]; undefined on a value that holds a
    pointer. *)
Definition lh_int_value (v : lh_value) : option Z :=
  match v with
  | lh_long n => Some (int_of_long n)
  | lh_pointer _ => None
  end.

(** [lh_value_ptr(p)] at each pointer type. *)
Definition lh_value_async_request_ptr (r : async_request_ptr) : lh_value :=
  match r with
  | None => lh_value_null
  | Some q => lh_pointer (P_async_request q)
  end.

Definition lh_value_uv_loop_ptr (h : uv_loop_ptr) : lh_value :=
  match h with
  | None => lh_value_null
  | Some b => lh_pointer (P_uv_loop b)
  end.

Definition lh_value_async_local_ptr (l : async_local_ptr) : lh_value :=
  match l with
  | None => lh_value_null
  | Some b => lh_pointer (P_async_local b)
  end.

Definition lh_value_cancel_scope_ptr (s : cancel_scope_ptr) : lh_value :=
  match s with
  | None => lh_value_null
  | Some b => lh_pointer (P_cancel_scope b)
  end.

(** [lh_ptr_value(v)] followed by the cast to each pointer type; [None] is
    a cast that the C code never performs on a well-typed value. *)
Definition lh_async_request_ptr_value (v : lh_value) : option async_request_ptr :=
  match v with
  | lh_long 0 => Some None
  | lh_pointer (P_async_request q) => Some (Some q)
  | _ => None
  end.

Definition lh_uv_loop_ptr_value (v : lh_value) : option uv_loop_ptr :=
  match v with
  | lh_long 0 => Some None
  | lh_pointer (P_uv_loop b) => Some (Some b)
  | _ => None
  end.

Definition lh_async_local_ptr_value (v : lh_value) : option async_local_ptr :=
  match v with
  | lh_long 0 => Some None
  | lh_pointer (P_async_local b) => Some (Some b)
  | _ => None
  end.

Definition lh_cancel_scope_ptr_value (v : lh_value) : option cancel_scope_ptr :=
  match v with
  | lh_long 0 => Some None
  | lh_pointer (P_cancel_scope b) => Some (Some b)
  | _ => None
  end.

(** ** Continuations

    [lh_resume] is abstract in libhandler.h.  An operation declared tail
    resuming receives the resumption of its own yield; a general operation
    receives a captured, first-class continuation. *)
Inductive resume_ref :=
| Tail_resumption
| Captured (id : nat).

#[global] Instance resume_ref_eq_dec : EqDecision resume_ref.
Proof. solve_decision. Defined.

Definition lh_resume := option resume_ref.

(** ** Scopes *)

Record cancel_scope_t := { parent : cancel_scope_ptr }.

Abbreviation scope_store := (gmap block cancel_scope_t).

(** The result of walking a parent chain for a bounded number of steps. *)
Inductive walk :=
| Walk_result (b : bool)
| Walk_dangling
| Walk_unfinished.

(** [in_scope_of]: the [while] loop runs at most [fuel] iterations.
<<
  while (scope != NULL && scope != top) { scope = scope->parent; }
  return (scope == top);
>> *)
Fixpoint in_scope_of (fuel : nat) (scopes : scope_store)
    (scope top : cancel_scope_ptr) : walk :=
  match scope with
  | None => Walk_result (bool_decide (scope = top))
  | Some b =>
      if bool_decide (scope = top) then Walk_result (bool_decide (scope = top))
      else
        match fuel with
        | O => Walk_unfinished
        | S fuel' =>
            match scopes !! b with
            | None => Walk_dangling
            | Some s => in_scope_of fuel' scopes (parent s) top
            end
        end
  end.

(** ** Asynchronous requests *)

(** The functions whose address is stored in [resumefun]. *)
Inductive async_resume_fun :=
| async_resume_default_fun
| _channel_async_req_resume_fun.

#[global] Instance async_resume_fun_eq_dec : EqDecision async_resume_fun.
Proof. solve_decision. Defined.

Record async_request_t := {
  next : async_request_ptr;
  prev : async_request_ptr;
  resume : lh_resume;
  local : lh_value;
  scope : cancel_scope_ptr;
  uvreq : uv_req_ptr;
  resumefun : option async_resume_fun
}.

(** What [nodec_zalloc] and [calloc] hand out: all fields zero. *)
Definition zeroed_request : async_request_t :=
  {| next := None; prev := None; resume := None; local := lh_value_null;
     scope := None; uvreq := None; resumefun := None |}.

Definition with_next (v : async_request_ptr) (r : async_request_t) :=
  {| next := v; prev := prev r; resume := resume r; local := local r;
     scope := scope r; uvreq := uvreq r; resumefun := resumefun r |}.
Definition with_prev (v : async_request_ptr) (r : async_request_t) :=
  {| next := next r; prev := v; resume := resume r; local := local r;
     scope := scope r; uvreq := uvreq r; resumefun := resumefun r |}.
Definition with_resume (v : lh_resume) (r : async_request_t) :=
  {| next := next r; prev := prev r; resume := v; local := local r;
     scope := scope r; uvreq := uvreq r; resumefun := resumefun r |}.
Definition with_local (v : lh_value) (r : async_request_t) :=
  {| next := next r; prev := prev r; resume := resume r; local := v;
     scope := scope r; uvreq := uvreq r; resumefun := resumefun r |}.
Definition with_scope (v : cancel_scope_ptr) (r : async_request_t) :=
  {| next := next r; prev := prev r; resume := resume r; local := local r;
     scope := v; uvreq := uvreq r; resumefun := resumefun r |}.
Definition with_uvreq (v : uv_req_ptr) (r : async_request_t) :=
  {| next := next r; prev := prev r; resume := resume r; local := local r;
     scope := scope r; uvreq := v; resumefun := resumefun r |}.
Definition with_resumefun (v : option async_resume_fun) (r : async_request_t) :=
  {| next := next r; prev := prev r; resume := resume r; local := local r;
     scope := scope r; uvreq := uvreq r; resumefun := v |}.

(** The one field of libuv's [uv_req_t] this layer touches. *)
Record uv_req_t := { data : async_request_ptr }.

Record async_local_t := {
  loop : uv_loop_ptr;
  requests : async_request_t
}.

(** Calls that leave this layer with a continuation in hand. *)
Inductive event :=
| Lh_release_resume (r : resume_ref) (local : lh_value) (res : lh_value)
| Channel_async_req_resume (r : lh_resume) (local : lh_value)
    (req : uv_req_ptr) (err : Z).

(** ** Machine state *)

Record state := {
  request_store : gmap block async_request_t;
  uv_store : gmap block uv_req_t;
  local_store : gmap block async_local_t;
  scopes : scope_store;
  memory : nat;        (* objects the allocator can still hand out *)
  captured : nat;      (* continuations captured so far *)
  calls : list event   (* outgoing calls, oldest first *)
}.

Definition set_request_store (f : gmap block async_request_t -> gmap block async_request_t)
    (st : state) : state :=
  {| request_store := f (request_store st); uv_store := uv_store st;
     local_store := local_store st; scopes := scopes st; memory := memory st;
     captured := captured st; calls := calls st |}.
Definition set_uv_store (f : gmap block uv_req_t -> gmap block uv_req_t)
    (st : state) : state :=
  {| request_store := request_store st; uv_store := f (uv_store st);
     local_store := local_store st; scopes := scopes st; memory := memory st;
     captured := captured st; calls := calls st |}.
Definition set_local_store (f : gmap block async_local_t -> gmap block async_local_t)
    (st : state) : state :=
  {| request_store := request_store st; uv_store := uv_store st;
     local_store := f (local_store st); scopes := scopes st; memory := memory st;
     captured := captured st; calls := calls st |}.
Definition set_scopes (f : scope_store -> scope_store) (st : state) : state :=
  {| request_store := request_store st; uv_store := uv_store st;
     local_store := local_store st; scopes := f (scopes st); memory := memory st;
     captured := captured st; calls := calls st |}.
Definition set_memory (f : nat -> nat) (st : state) : state :=
  {| request_store := request_store st; uv_store := uv_store st;
     local_store := local_store st; scopes := scopes st; memory := f (memory st);
     captured := captured st; calls := calls st |}.
Definition set_captured (f : nat -> nat) (st : state) : state :=
  {| request_store := request_store st; uv_store := uv_store st;
     local_store := local_store st; scopes := scopes st; memory := memory st;
     captured := f (captured st); calls := calls st |}.
Definition set_calls (f : list event -> list event) (st : state) : state :=
  {| request_store := request_store st; uv_store := uv_store st;
     local_store := local_store st; scopes := scopes st; memory := memory st;
     captured := captured st; calls := f (calls st) |}.

(** ** Outcomes and the execution monad *)

(** [lh_exception]: an error code and a message. *)
Record lh_exception := { code : Z; msg : string }.

Inductive outcome (A : Type) :=
| Done (a : A) (st : state)
    (* returned normally *)
| Exited (depth : nat) (v : lh_value) (st : state)
    (* an operation function returned [v] without resuming: control is back
       in the [lh_handle] call [depth] handlers out, the yielding code is
       suspended *)
| Thrown (e : lh_exception) (st : state)
    (* [lh_throw] *)
| Aborted (st : state)
    (* a failed [assert], or libhandler's fatal error *)
| No_memory (st : state)
    (* [nodec_alloc]/[nodec_zalloc] found no memory *)
| Fault.
    (* access through NULL or a dangling pointer, ill-typed cast *)
Arguments Done {A} a st.
Arguments Exited {A} depth v st.
Arguments Thrown {A} e st.
Arguments Aborted {A} st.
Arguments No_memory {A} st.
Arguments Fault {A}.

Definition exec (A : Type) := state -> outcome A.

Definition ret {A} (a : A) : exec A := fun st => Done a st.

Definition bind {A B} (m : exec A) (k : A -> exec B) : exec B :=
  fun st =>
    match m st with
    | Done a st' => k a st'
    | Exited d v st' => Exited d v st'
    | Thrown e st' => Thrown e st'
    | Aborted st' => Aborted st'
    | No_memory st' => No_memory st'
    | Fault => Fault
    end.

Notation "x <- m ;; k" := (bind m (fun x => k))
  (at level 100, m at next level, right associativity).
Notation "m ;;; k" := (bind m (fun _ => k))
  (at level 100, right associativity).

Definition fault {A} : exec A := fun _ => Fault.
Definition modify (f : state -> state) : exec unit := fun st => Done tt (f st).

(** [assert(c)] of <assert.h>. *)
Definition assert (c : bool) : exec unit :=
  fun st => if c then Done tt st else Aborted st.

(** Modelled from the spec: [lh_throw(e)] of libhandler, which is missing
    from the sources; the failure propagates through the calling code. *)
Definition lh_throw {A} (e : lh_exception) : exec A := fun st => Thrown e st.

(** A cast that is only defined on some values. *)
Definition defined {A} (o : option A) : exec A :=
  match o with
  | Some a => ret a
  | None => fault
  end.

(** [if (c) body] for a [void] body. *)
Definition when (c : bool) (body : exec unit) : exec unit :=
  if c then body else ret tt.

(** *** Memory access *)

(** The object [p] points to, if [p] is neither NULL nor dangling. *)
Definition read_request (p : async_request_ptr) (st : state) : option async_request_t :=
  match p with
  | None => None
  | Some (Req_at b) => request_store st !! b
  | Some (Requests_of l) => requests <$> local_store st !! l
  end.

(** The state with [upd] applied to the object [p] points to. *)
Definition update_request (p : async_request_ptr)
    (upd : async_request_t -> async_request_t) (st : state) : state :=
  match p with
  | None => st
  | Some (Req_at b) => set_request_store (alter upd b) st
  | Some (Requests_of l) =>
      set_local_store
        (alter (fun a => {| loop := loop a; requests := upd (requests a) |}) l) st
  end.

(** Reading [*p] for [p : async_request_t*]. *)
Definition load_request (p : async_request_ptr) : exec async_request_t :=
  fun st =>
    match read_request p st with
    | Some r => Done r st
    | None => Fault
    end.

(** Writing [*p] for [p : async_request_t*]. *)
Definition store_request (p : async_request_ptr) (r : async_request_t) : exec unit :=
  fun st =>
    match read_request p st with
    | Some _ => Done tt (update_request p (fun _ => r) st)
    | None => Fault
    end.

(** [p->field = v]. *)
Definition assign (p : async_request_ptr)
    (upd : async_request_t -> async_request_t) : exec unit :=
  r <- load_request p ;; store_request p (upd r).

(** [p->field]. *)
Definition field {A} (p : async_request_ptr) (f : async_request_t -> A) : exec A :=
  r <- load_request p ;; ret (f r).

Definition load_uv (u : uv_req_ptr) : exec uv_req_t :=
  fun st =>
    match u with
    | None => Fault
    | Some b =>
        match uv_store st !! b with
        | Some x => Done x st
        | None => Fault
        end
    end.

(** [u->data = v]. *)
Definition assign_data (u : uv_req_ptr) (v : async_request_ptr) : exec unit :=
  _ <- load_uv u ;;
  match u with
  | Some b => modify (set_uv_store (insert b {| data := v |}))
  | None => fault
  end.

Definition load_local (l : async_local_ptr) : exec async_local_t :=
  fun st =>
    match l with
    | None => Fault
    | Some b =>
        match local_store st !! b with
        | Some a => Done a st
        | None => Fault
        end
    end.

(** *** Allocation

    The allocator hands out a block that is not live in the store of the
    requested type, as long as [memory] lasts. *)

(** Modelled from the spec: [nodec_zalloc(async_request_t)] of nodec.h,
    which is missing from the sources: a fresh request with all fields
    zero. *)
Definition nodec_zalloc_async_request : exec async_request_ptr :=
  fun st =>
    match memory st with
    | O => No_memory st
    | S n =>
        let b := fresh (dom (request_store st)) in
        Done (Some (Req_at b))
             (set_memory (fun _ => n)
                (set_request_store (insert b zeroed_request) st))
    end.

(** [free(req)] for [req : async_request_t*]. *)
Definition free_request (p : async_request_ptr) : exec unit :=
  fun st =>
    match p with
    | Some (Req_at b) =>
        match request_store st !! b with
        | Some _ => Done tt (set_memory S (set_request_store (delete b) st))
        | None => Fault
        end
    | _ => Fault
    end.


(** [calloc(1, sizeof(async_local_t))]: NULL when memory is exhausted. *)
Definition calloc_async_local : exec async_local_ptr :=
  fun st =>
    match memory st with
    | O => Done None st
    | S n =>
        let b := fresh (dom (local_store st)) in
        Done (Some b)
             (set_memory (fun _ => n)
                (set_local_store
                   (insert b {| loop := None; requests := zeroed_request |}) st))
    end.

(** [free(local)] for [local : async_local_t*]. *)
Definition free_local (l : async_local_ptr) : exec unit :=
  fun st =>
    match l with
    | None => Done tt st
    | Some b =>
        match local_store st !! b with
        | Some _ => Done tt (set_memory S (set_local_store (delete b) st))
        | None => Fault
        end
    end.

(** ** Effects and handlers (libhandler.h) *)

Inductive lh_opkind :=
| LH_OP_NULL
| LH_OP_NORESUMEX
| LH_OP_NORESUME
| LH_OP_TAIL_NOOP
| LH_OP_TAIL
| LH_OP_SCOPED
| LH_OP_GENERAL.

#[global] Instance lh_opkind_eq_dec : EqDecision lh_opkind.
Proof. solve_decision. Defined.

(** [struct lh_optag_]: an effect (compared by its name) and the index of
    the operation in that effect. *)
Record lh_optag_ := { effect : string; opidx : Z }.

#[global] Instance lh_optag_eq_dec : EqDecision lh_optag_.
Proof. solve_decision. Defined.

(** What [lh_yield] is for the code that calls it: the handlers in force. *)
Definition yielder := lh_optag_ -> lh_value -> exec lh_value.

(** [lh_actionfun], with the handlers it runs under. *)
Definition lh_actionfun := yielder -> lh_value -> exec lh_value.

(** What an operation function hands back: a plain value, or the value of
    [lh_tail_resume(r, local, res)]. *)
Inductive opfun_result :=
| Op_returned (v : lh_value)
| Op_tail_resumed (r : lh_resume) (local : lh_value) (res : lh_value).

(** [lh_opfun]; the first argument is [lh_yield] as seen from inside the
    operation function, that is, the handlers outside its own. *)
Definition lh_opfun := yielder -> lh_resume -> lh_value -> lh_value -> exec opfun_result.

Record lh_operation := {
  opkind : lh_opkind;
  optag : option lh_optag_;
  opfun : option lh_opfun
}.

Record lh_handlerdef := {
  hd_effect : string;
  local_acquire : option (lh_value -> exec lh_value);
  local_release : option (lh_value -> exec unit);
  resultfun : option (lh_value -> lh_value -> exec lh_value);
  operations : list lh_operation
}.

(** Modelled from the spec: [lh_tail_resume(r, local, res)] of libhandler,
    which is missing from the sources, in tail position of an operation
    function: the value the function hands back stands for the resumption. *)
Definition lh_tail_resume (r : lh_resume) (local res : lh_value) : exec opfun_result :=
  ret (Op_tail_resumed r local res).

(** Modelled from the spec: how libhandler, which is missing from the
    sources, looks up [tag] in an operation array; the array ends at the
    first [LH_OP_NULL] entry. *)
Fixpoint find_operation (ops : list lh_operation) (tag : lh_optag_)
    : option (lh_opkind * lh_opfun) :=
  match ops with
  | [] => None
  | op :: rest =>
      if bool_decide (opkind op = LH_OP_NULL) then None
      else if bool_decide (optag op = Some tag) then
        match opfun op with
        | Some f => Some (opkind op, f)
        | None => None
        end
      else find_operation rest tag
  end.

Definition shift_exit {A} (o : outcome A) : outcome A :=
  match o with
  | Exited d v st => Exited (S d) v st
  | _ => o
  end.

(** Modelled from the spec: the resumption libhandler, which is missing from
    the sources, passes to an operation function of kind [kind]; only a
    general operation captures a first-class continuation. *)
Definition capture (kind : lh_opkind) : exec lh_resume :=
  match kind with
  | LH_OP_TAIL | LH_OP_TAIL_NOOP => ret (Some Tail_resumption)
  | _ => fun st => Done (Some (Captured (captured st))) (set_captured S st)
  end.

(** Modelled from the spec: a yield with no handler at all is libhandler's
    fatal error ENOSYS (libhandler.c is missing from the sources). *)
Definition no_handler : yielder := fun _ _ st => Aborted st.

(** Modelled from the spec: an operation declared [LH_OP_TAIL_NOOP]
    promises not to yield (libhandler.h); libhandler.c, which would say what
    a broken promise does, is missing from the sources. *)
Definition no_yield : yielder := fun _ _ => fault.

(** Modelled from the spec: [lh_yield] under a handler, which is missing
    from the sources (only libhandler.h is there).  The nearest handler of
    the operation's effect runs its operation function with the handlers
    outside it; a tail resumption makes the yield return the resumed value at
    once, a plain return leaves to the handler's [lh_handle] and keeps the
    yielding code suspended. *)
Definition with_handler (def : lh_handlerdef) (local : lh_value)
    (outer : yielder) : yielder :=
  fun tag arg st =>
    if bool_decide (hd_effect def = effect tag) then
      match find_operation (operations def) tag with
      | Some (kind, f) =>
          match capture kind st with
          | Done r st1 =>
              match f (if bool_decide (kind = LH_OP_TAIL_NOOP)
                       then no_yield else outer) r local arg st1 with
              | Done (Op_tail_resumed _ _ res) st2 => Done res st2
              | Done (Op_returned v) st2 => Exited 0 v st2
              | Exited d v st2 => Exited (S d) v st2
              | Thrown e st2 => Thrown e st2
              | Aborted st2 => Aborted st2
              | No_memory st2 => No_memory st2
              | Fault => Fault
              end
          | _ => Fault
          end
      | None => shift_exit (outer tag arg st)
      end
    else shift_exit (outer tag arg st).

(** Modelled from the spec: the call of a handler's [local_release], when
    it has one. *)
Definition release_local (def : lh_handlerdef) (local : lh_value) : exec unit :=
  match local_release def with
  | Some f => f local
  | None => ret tt
  end.

(** Modelled from the spec: [lh_handle], which is missing from the sources.
    The body runs under the handler; when the body completes, normally or
    with a failure, the handler-local state is released; when an operation
    of this handler returned without resuming, [lh_handle] returns that
    value and the local state stays with the suspended computation. *)
Definition lh_handle (outer : yielder) (def : lh_handlerdef) (local : lh_value)
    (body : lh_actionfun) (arg : lh_value) : exec lh_value :=
  fun st =>
    match body (with_handler def local outer) arg st with
    | Done v st' =>
        (res <- match resultfun def with
                | Some f => f local v
                | None => ret v
                end ;;
         release_local def local ;;;
         ret res) st'
    | Thrown e st' => (release_local def local ;;; lh_throw e) st'
    | Exited O v st' => Done v st'
    | Exited (S d) v st' => Exited d v st'
    | o => o
    end.

(** ** Async effect operations

    [LH_DEFINE_EFFECT3(async, req_await, uv_loop, req_register)] *)
Definition lh_names_effect_async : string := "async".
Definition lh_op_async_req_await : lh_optag_ :=
  {| effect := lh_names_effect_async; opidx := 0 |}.
Definition lh_op_async_uv_loop : lh_optag_ :=
  {| effect := lh_names_effect_async; opidx := 1 |}.
Definition lh_op_async_req_register : lh_optag_ :=
  {| effect := lh_names_effect_async; opidx := 2 |}.

(** [LH_DEFINE_OP0(async, uv_loop, uv_loop_ptr)] *)
Definition async_uv_loop (lh_yield : yielder) : exec uv_loop_ptr :=
  res <- lh_yield lh_op_async_uv_loop lh_value_null ;;
  defined (lh_uv_loop_ptr_value res).

(** [LH_DEFINE_OP1(async, req_await, int, async_request_ptr)] *)
Definition async_req_await (lh_yield : yielder) (arg : async_request_ptr) : exec Z :=
  res <- lh_yield lh_op_async_req_await (lh_value_async_request_ptr arg) ;;
  defined (lh_int_value res).

(** [LH_DEFINE_VOIDOP1(async, req_register, async_request_ptr)] *)
Definition async_req_register (lh_yield : yielder) (arg : async_request_ptr) : exec unit :=
  _ <- lh_yield lh_op_async_req_register (lh_value_async_request_ptr arg) ;;
  ret tt.

Definition async_loop (lh_yield : yielder) : exec uv_loop_ptr :=
  async_uv_loop lh_yield.

(** ** Throw on errors *)

(** Modelled from the spec: [lh_exception_alloc_strdup(code, msg)] of
    libhandler, which is missing from the sources; the failure carries the
    code and a copy of the text. *)
Definition lh_exception_alloc_strdup (c : Z) (m : string) : lh_exception :=
  {| code := c; msg := m |}.

Section Throw.

(** libuv's [uv_strerror]. *)
Variable uv_strerror : Z -> string.

(** Check an error result, throwing on error. *)
Definition check_uv_err (uverr : Z) : exec unit :=
  if uverr <? 0 then
    lh_throw (lh_exception_alloc_strdup uverr (uv_strerror uverr))
  else ret tt.

End Throw.

(** ** Scopes, continued *)

Definition _cancel_scope : string := "_cancel_scope".

(** Modelled from the spec: the ambient current scope.  [implicit_define],
    [implicit_get] and [with_implicit] come from nodec-internal.h, which is
    missing from the sources; an implicit parameter is an effect with one
    operation that tail-resumes with the value the enclosing [with_implicit]
    bound. *)
Definition implicit_get (name : string) (lh_yield : yielder) : exec lh_value :=
  lh_yield {| effect := name; opidx := 0 |} lh_value_null.

(** Modelled from the spec: the handler that [with_implicit] installs for
    the implicit parameter [name] (nodec-internal.h is missing from the
    sources); its local state is the bound value. *)
Definition implicit_hdef (name : string) : lh_handlerdef :=
  {| hd_effect := name; local_acquire := None; local_release := None;
     resultfun := None;
     operations :=
       [ {| opkind := LH_OP_TAIL_NOOP;
            optag := Some {| effect := name; opidx := 0 |};
            opfun := Some (fun _ r local _ => lh_tail_resume r local local) |};
         {| opkind := LH_OP_NULL; optag := None; opfun := None |} ] |}.

(** Modelled from the spec: [with_implicit(v, name)], see [implicit_hdef]. *)
Definition with_implicit (v : lh_value) (name : string) (outer : yielder) : yielder :=
  with_handler (implicit_hdef name) v outer.

Definition cancel_scope (lh_yield : yielder) : exec cancel_scope_ptr :=
  v <- implicit_get _cancel_scope lh_yield ;;
  defined (lh_cancel_scope_ptr_value v).


(** [#define with_outer_cancel_scope() with_implicit(lh_value_null,_cancel_scope)] *)
Definition with_outer_cancel_scope (outer : yielder) : yielder :=
  with_implicit lh_value_null _cancel_scope outer.

(** ** Asynchronous requests, continued *)

Definition async_request_alloc (lh_yield : yielder) (uvreq_ : uv_req_ptr)
    : exec async_request_ptr :=
  req <- nodec_zalloc_async_request ;;
  assign_data uvreq_ req ;;;
  assign req (with_uvreq uvreq_) ;;;
  s <- cancel_scope lh_yield ;;
  assign req (with_scope s) ;;;
  async_req_register lh_yield req ;;;
  ret req.

(** Wrappers around the primitive operations for async. *)
Definition asyncx_await (lh_yield : yielder) (uvreq_ : uv_req_ptr) : exec Z :=
  req <- async_request_alloc lh_yield uvreq_ ;;
  async_req_await lh_yield req.

Definition async_await (uv_strerror : Z -> string) (lh_yield : yielder)
    (req : uv_req_ptr) : exec unit :=
  e <- asyncx_await lh_yield req ;;
  check_uv_err uv_strerror e.

(** Modelled from the spec: [lh_release_resume(r, local, res)] of
    libhandler, which is missing from the sources.  It resumes and releases
    a first-class continuation; what runs then belongs to the continuation,
    this layer only makes the call. *)
Definition lh_release_resume (r : resume_ref) (local_ res : lh_value) : exec unit :=
  modify (set_calls (fun t => t ++ [Lh_release_resume r local_ res])).

(** Modelled from the spec: [_channel_async_req_resume], the alternate
    resumption strategy, is defined with the channels and is missing from
    the sources; this layer only calls it through [resumefun]. *)
Definition _channel_async_req_resume (r : lh_resume) (local_ : lh_value)
    (req : uv_req_ptr) (err : Z) : exec unit :=
  modify (set_calls (fun t => t ++ [Channel_async_req_resume r local_ req err])).

Definition async_resume_default (resume_ : lh_resume) (local_ : lh_value)
    (req : uv_req_ptr) (err : Z) : exec unit :=
  match resume_ with
  | Some r => lh_release_resume r local_ (lh_value_int err)
  | None => ret tt
  end.

(** [( *resumefun)(resume, local, uvreq, err)]. *)
Definition call_resumefun (f : option async_resume_fun) (resume_ : lh_resume)
    (local_ : lh_value) (req : uv_req_ptr) (err : Z) : exec unit :=
  match f with
  | None => fault
  | Some async_resume_default_fun => async_resume_default resume_ local_ req err
  | Some _channel_async_req_resume_fun => _channel_async_req_resume resume_ local_ req err
  end.

Definition async_request_resume (req : async_request_ptr) (uvreq_ : uv_req_ptr)
    (err : Z) : exec unit :=
  u <- field req uvreq ;;
  assert (bool_decide (u = None) || bool_decide (u = uvreq_)) ;;;
  u <- field req uvreq ;;
  when (bool_decide (u <> None))
    (assign_data uvreq_ None ;;;                    (* resume at most once *)
     assign req (with_uvreq None) ;;;
     (* unregister ourselves from outstanding requests *)
     prev_ <- field req prev ;;
     when (bool_decide (prev_ <> None))
       (n <- field req next ;;
        assign prev_ (with_next n) ;;;
        n <- field req next ;;
        when (bool_decide (n <> None)) (assign n (with_prev prev_)) ;;;
        assign req (with_next None) ;;;
        assign req (with_prev None)) ;;;
     (* and resume *)
     resumefun_ <- field req resumefun ;;
     resume_ <- field req resume ;;
     local_ <- field req local ;;
     free_request req ;;;
     call_resumefun resumefun_ resume_ local_ uvreq_ err).

(** The main entry point for regular request callbacks. *)
Definition async_req_resume (uvreq_ : uv_req_ptr) (err : Z) : exec unit :=
  x <- load_uv uvreq_ ;;
  let req := data x in
  when (bool_decide (req <> None)) (async_request_resume req uvreq_ err).

(** ** Main async handler *)

(** [&local->requests]. *)
Definition requests_of (l : async_local_ptr) : async_request_ptr :=
  match l with
  | Some b => Some (Requests_of b)
  | None => None
  end.

(** [local->loop = loop]. *)
Definition assign_loop (l : async_local_ptr) (v : uv_loop_ptr) : exec unit :=
  a <- load_local l ;;
  match l with
  | Some b =>
      modify (set_local_store (insert b {| loop := v; requests := requests a |}))
  | None => fault
  end.

(** Await an asynchronous request. *)
Definition _async_req_await : lh_opfun := fun _ resume_ local_ arg =>
  req <- defined (lh_async_request_ptr_value arg) ;;
  assert (bool_decide (req <> None)) ;;;
  u <- field req uvreq ;;
  assert (bool_decide (u <> None)) ;;;
  x <- load_uv u ;;
  assert (bool_decide (data x = req)) ;;;
  assign req (with_local local_) ;;;
  assign req (with_resume resume_) ;;;
  f <- field req resumefun ;;
  when (bool_decide (f = None))
    (assign req (with_resumefun (Some async_resume_default_fun))) ;;;
  ret (Op_returned lh_value_null).

(** Return the current libUV event loop. *)
Definition _async_uv_loop : lh_opfun := fun _ r localv arg =>
  local_ <- defined (lh_async_local_ptr_value localv) ;;
  a <- load_local local_ ;;
  lh_tail_resume r localv (lh_value_uv_loop_ptr (loop a)).

(** Register an outstanding request. *)
Definition _async_req_register : lh_opfun := fun _ r localv arg =>
  local_ <- defined (lh_async_local_ptr_value localv) ;;
  req <- defined (lh_async_request_ptr_value arg) ;;
  assert (bool_decide (req <> None)) ;;;
  (* insert in front *)
  n <- field (requests_of local_) next ;;
  assign req (with_next n) ;;;
  n <- field req next ;;
  when (bool_decide (n <> None)) (assign n (with_prev req)) ;;;
  assign req (with_prev (requests_of local_)) ;;;
  assign (requests_of local_) (with_next req) ;;;
  lh_tail_resume r localv lh_value_null.

Definition _async_release (localv : lh_value) : exec unit :=
  local_ <- defined (lh_async_local_ptr_value localv) ;;
  assert (bool_decide (local_ <> None)) ;;;
  n <- field (requests_of local_) next ;;
  assert (bool_decide (n = None)) ;;;
  free_local local_.

(** The main async handler. *)
Definition _async_ops : list lh_operation :=
  [ {| opkind := LH_OP_GENERAL; optag := Some lh_op_async_req_await;
       opfun := Some _async_req_await |};
    {| opkind := LH_OP_TAIL_NOOP; optag := Some lh_op_async_uv_loop;
       opfun := Some _async_uv_loop |};
    {| opkind := LH_OP_TAIL_NOOP; optag := Some lh_op_async_req_register;
       opfun := Some _async_req_register |};
    {| opkind := LH_OP_NULL; optag := None; opfun := None |} ].

Definition _async_def : lh_handlerdef :=
  {| hd_effect := lh_names_effect_async; local_acquire := None;
     local_release := Some _async_release; resultfun := None;
     operations := _async_ops |}.

Definition async_handler (outer : yielder) (loop_ : uv_loop_ptr)
    (action : lh_actionfun) (arg : lh_value) : exec lh_value :=
  local_ <- calloc_async_local ;;
  if bool_decide (local_ = None) then ret lh_value_null
  else
    assign_loop local_ loop_ ;;;
    assign (requests_of local_) (with_next None) ;;;
    assign (requests_of local_) (with_prev None) ;;;
    lh_handle outer _async_def (lh_value_async_local_ptr local_) action arg.

(** ** Channel async handler for interleave *)

Definition _channel_async_req_await : lh_opfun := fun _ r local_ arg =>
  req <- defined (lh_async_request_ptr_value arg) ;;
  assert (bool_decide (req <> None)) ;;;
  u <- field req uvreq ;;
  assert (bool_decide (u <> None)) ;;;
  x <- load_uv u ;;
  assert (bool_decide (data x = req)) ;;;
  assign req (with_resume r) ;;;
  assign req (with_local local_) ;;;
  f <- field req resumefun ;;
  when (bool_decide (f = None))
    (assign req (with_resumefun (Some _channel_async_req_resume_fun))) ;;;
  ret (Op_returned lh_value_null).

(** Return the current libUV event loop: pass through to parent. *)
Definition _channel_async_uv_loop : lh_opfun := fun lh_yield r local_ arg =>
  l <- async_loop lh_yield ;;
  lh_tail_resume r local_ (lh_value_uv_loop_ptr l).

(** Register an outstanding request: pass through to parent. *)
Definition _channel_async_req_register : lh_opfun := fun lh_yield r localv arg =>
  req <- defined (lh_async_request_ptr_value arg) ;;
  async_req_register lh_yield req ;;;
  lh_tail_resume r localv lh_value_null.

Definition _channel_async_ops : list lh_operation :=
  [ {| opkind := LH_OP_GENERAL; optag := Some lh_op_async_req_await;
       opfun := Some _channel_async_req_await |};
    {| opkind := LH_OP_TAIL; optag := Some lh_op_async_uv_loop;
       opfun := Some _channel_async_uv_loop |};
    {| opkind := LH_OP_TAIL; optag := Some lh_op_async_req_register;
       opfun := Some _channel_async_req_register |};
    {| opkind := LH_OP_NULL; optag := None; opfun := None |} ].

Definition _channel_async_hdef : lh_handlerdef :=
  {| hd_effect := lh_names_effect_async; local_acquire := None;
     local_release := None; resultfun := None;
     operations := _channel_async_ops |}.

(** * Specification vocabulary *)

(** ** Scope trees *)

(** The scope stores that nested scope creation produces: every new scope
    is allocated fresh and its parent is the ambient scope of that moment,
    NULL or a scope created before. *)
Inductive built_by_nesting : scope_store -> Prop :=
| built_empty : built_by_nesting ∅
| built_enter (h : scope_store) (ambient : cancel_scope_ptr) (b : block) :
    built_by_nesting h ->
    (forall a, ambient = Some a -> is_Some (h !! a)) ->
    h !! b = None ->
    built_by_nesting (<[b := {| parent := ambient |}]> h).

(** A pointer into a scope store: NULL or a live scope. *)
Definition scope_in (h : scope_store) (s : cancel_scope_ptr) : Prop :=
  forall a, s = Some a -> is_Some (h !! a).

(** The parent chain that starts at [s], [s] included, up to the root. *)
Inductive parent_chain (h : scope_store) : cancel_scope_ptr -> list block -> Prop :=
| chain_root : parent_chain h None []
| chain_node (b : block) (s : cancel_scope_t) (l : list block) :
    h !! b = Some s ->
    parent_chain h (parent s) l ->
    parent_chain h (Some b) (b :: l).

(** ** The request registry *)

(** [linked st before first l]: starting at the pointer [first], the [next]
    fields run through the requests [l] in this order and end with NULL;
    the [prev] field of each request points to the one before it, the
    first one's to [before]. *)
Fixpoint linked (st : state) (before first : async_request_ptr)
    (l : list block) : Prop :=
  match l with
  | [] => first = None
  | b :: l' =>
      first = Some (Req_at b) /\
      exists r, request_store st !! b = Some r /\ prev r = before /\
                linked st (Some (Req_at b)) (next r) l'
  end.

(** The registry of the handler whose local state is at [L]: the chain that
    starts at the [next] field of the head element [local->requests]. *)
Definition registry (L : block) (st : state) (l : list block) : Prop :=
  exists a, local_store st !! L = Some a /\
            linked st (Some (Requests_of L)) (next (requests a)) l.

(** The same chain, read off the state by following [next] at most [fuel]
    times. *)
Fixpoint follow_next (fuel : nat) (st : state) (p : async_request_ptr)
    : option (list block) :=
  match p with
  | None => Some []
  | Some (Requests_of _) => None
  | Some (Req_at b) =>
      match fuel with
      | O => None
      | S fuel' =>
          match request_store st !! b with
          | None => None
          | Some r => cons b <$> follow_next fuel' st (next r)
          end
      end
  end.

Definition registry_list (fuel : nat) (L : block) (st : state) : option (list block) :=
  match local_store st !! L with
  | None => None
  | Some a => follow_next fuel st (next (requests a))
  end.

(** The state of the pending requests [l] of a handler between two calls:
    they form its registry, each is suspended (it holds its operation, a
    continuation and a resumption strategy), and every operation that has a
    request attached belongs to one of them. *)
Record pending_ok (L : block) (st : state) (l : list block) : Prop := {
  pending_registry : registry L st l;
  pending_nodup : NoDup l;
  pending_suspended :
    forall b, b ∈ l ->
      exists r u, request_store st !! b = Some r /\ uvreq r = Some u /\
                  is_Some (resume r) /\ is_Some (resumefun r);
  pending_attached :
    forall u x q, uv_store st !! u = Some x -> data x = Some q ->
      exists b r, q = Req_at b /\ b ∈ l /\
                  request_store st !! b = Some r /\ uvreq r = Some u
}.

(** The request attached to the operation [u]: [u->data]. *)
Definition attached (u : block) (st : state) : async_request_ptr :=
  match uv_store st !! u with
  | Some x => data x
  | None => None
  end.

(** The handlers the bootstrap installs around the entry action: the root
    async handler with local state [L], and inside it the ambient cancel
    scope. *)
Definition under_root (L : block) (ambient : cancel_scope_ptr)
    (outer : yielder) : yielder :=
  with_implicit (lh_value_cancel_scope_ptr ambient) _cancel_scope
    (with_handler _async_def (lh_value_async_local_ptr (Some L)) outer).

(** ** Sequences of calls *)

Inductive call :=
| BeginAwait (u : block)
| CompleteOperation (u : block) (err : Z).

Definition call_operation (c : call) : block :=
  match c with
  | BeginAwait u => u
  | CompleteOperation u _ => u
  end.

Fixpoint begins (cs : list call) : nat :=
  match cs with
  | [] => O
  | BeginAwait _ :: cs' => S (begins cs')
  | CompleteOperation _ _ :: cs' => begins cs'
  end.

(** Runs the calls one after the other and keeps the book of the requests
    begun and not yet completed, the most recent first: a begun await adds
    the request it attached to its operation, a completion strikes the
    request it found attached. *)
Fixpoint run_calls (lh_yield : yielder) (cs : list call)
    (book : list request_ref) : exec (list request_ref) :=
  fun st =>
    match cs with
    | [] => Done book st
    | BeginAwait u :: cs' =>
        match asyncx_await lh_yield (Some u) st with
        | Exited _ _ st' =>
            run_calls lh_yield cs' (option_list (attached u st') ++ book) st'
        | Done _ st' => run_calls lh_yield cs' book st'
        | Thrown e st' => Thrown e st'
        | Aborted st' => Aborted st'
        | No_memory st' => No_memory st'
        | Fault => Fault
        end
    | CompleteOperation u err :: cs' =>
        match async_req_resume (Some u) err st with
        | Done _ st' =>
            run_calls lh_yield cs'
              (filter (fun q => Some q <> attached u st) book) st'
        | Exited d v st' => Exited d v st'
        | Thrown e st' => Thrown e st'
        | Aborted st' => Aborted st'
        | No_memory st' => No_memory st'
        | Fault => Fault
        end
    end.

(** ** What a completion does to the state *)

(** The list surgery of [async_request_resume] on the request [r] at [req]:
    its neighbours are linked to each other and its own links are cleared;
    nothing happens when [r] has no previous element. *)
Definition unlink_request (req : async_request_ptr) (r : async_request_t)
    (st : state) : state :=
  match prev r with
  | None => st
  | Some _ =>
      update_request req (with_prev None)
        (update_request req (with_next None)
           (update_request (next r) (with_prev (prev r))
              (update_request (prev r) (with_next (next r)) st)))
  end.

(** The state in which [async_request_resume] leaves the request [r] at
    block [b] with operation [u], before it calls the resumption strategy:
    back-reference cleared, request unlinked and freed. *)
Definition completed (b u : block) (r : async_request_t) (st : state) : state :=
  set_memory S
    (set_request_store (delete b)
       (unlink_request (Some (Req_at b)) r
          (update_request (Some (Req_at b)) (with_uvreq None)
             (set_uv_store (insert u {| data := None |}) st)))).

(** The call a resumption strategy makes. *)
Definition strategy_calls (f : async_resume_fun) (resume_ : lh_resume)
    (local_ : lh_value) (u : block) (err : Z) : list event :=
  match f with
  | async_resume_default_fun =>
      match resume_ with
      | Some k => [Lh_release_resume k local_ (lh_value_int err)]
      | None => []
      end
  | _channel_async_req_resume_fun =>
      [Channel_async_req_resume resume_ local_ (Some u) err]
  end.

(** ** What a begun await does to the state *)

(** The effect of the register operation of the root handler with local
    state [L] on the request at [req]: it becomes the first element. *)
Definition registered (L : block) (req : async_request_ptr) (st : state) : state :=
  match local_store st !! L with
  | None => st
  | Some a =>
      let head := Some (Requests_of L) in
      let first := next (requests a) in
      update_request head (with_next req)
        (update_request req (with_prev head)
           (update_request first (with_prev req)
              (update_request req (with_next first) st)))
  end.

(** The effect of an await operation function on the request at [req]: the
    continuation and the carrier value are stored, and [strategy] is
    attached unless the request has a strategy already. *)
Definition suspended (strategy : async_resume_fun) (resume_ : lh_resume)
    (local_ : lh_value) (req : async_request_ptr) (st : state) : state :=
  update_request req
    (fun r =>
       with_resumefun
         (match resumefun r with
          | None => Some strategy
          | Some f => Some f
          end)
         (with_resume resume_ (with_local local_ r)))
    st.

(** The state in which [asyncx_await] on the operation [u] suspends under
    the root handler with local state [L]. *)
Definition begun (L u : block) (ambient : cancel_scope_ptr) (st : state) : state :=
  let req := Some (Req_at (fresh (dom (request_store st)))) in
  suspended async_resume_default_fun (Some (Captured (captured st)))
    (lh_value_async_local_ptr (Some L)) req
    (set_captured S
       (registered L req
          (update_request req (with_scope ambient)
             (update_request req (with_uvreq (Some u))
                (set_uv_store (insert u {| data := req |})
                   (set_memory pred
                      (set_request_store
                         (insert (fresh (dom (request_store st))) zeroed_request)
                         st))))))).

(** ** Conditions on requests *)

(** The links of [r] on which the list surgery is well defined: the
    neighbours are live and are not [r] itself. *)
Definition neighbours_ok (b : block) (r : async_request_t) (st : state) : Prop :=
  (prev r <> None -> is_Some (read_request (prev r) st)) /\
  (next r <> None -> is_Some (read_request (next r) st)) /\
  prev r <> Some (Req_at b) /\ next r <> Some (Req_at b).

(** The requests on which the assertions of an await operation hold: the
    request is live, it has an operation, and the operation points back to
    it. *)
Definition awaitable (req : async_request_ptr) (r : async_request_t)
    (st : state) : Prop :=
  read_request req st = Some r /\
  exists u x, uvreq r = Some u /\ uv_store st !! u = Some x /\ data x = req.

(** An update of a request that leaves its links alone. *)
Definition keeps_links (upd : async_request_t -> async_request_t) : Prop :=
  forall r, prev (upd r) = prev r /\ next (upd r) = next r.

(** ** Ways an operation function can end *)

(** [returns_only P m]: whenever [m] comes back it returns normally with a
    value in [P]; it neither leaves to a handler nor throws.  A failed
    assertion and a fault do not come back. *)
Definition returns_only {A} (P : A -> Prop) (m : exec A) : Prop :=
  forall st,
    match m st with
    | Done a _ => P a
    | Exited _ _ _ => False
    | Thrown _ _ => False
    | _ => True
    end.

(** The body with which a handler is asked for its loop: it queries the loop
    identity once and returns it. *)
Definition ask_loop : lh_actionfun :=
  fun lh_yield _ => l <- async_loop lh_yield ;; ret (lh_value_uv_loop_ptr l).

(** ** A small machine state for examples *)

(** Two libuv requests (1 and 2) with nothing attached, the local state of
    one root handler at block 7 bound to the loop at block 3 and with an
    empty registry, room for five more objects. *)
Definition example_state : state :=
  {| request_store := ∅;
     uv_store := {[ 1%positive := {| data := None |};
                    2%positive := {| data := None |} ]};
     local_store :=
       {[ 7%positive := {| loop := Some 3%positive;
                           requests := zeroed_request |} ]};
     scopes := ∅;
     memory := 5;
     captured := 0;
     calls := [] |}.

(** A scope tree of three nested scopes: 1 is the outermost, 3 the innermost. *)
Definition example_scopes : scope_store :=
  <[3%positive := {| parent := Some 2%positive |}]>
    (<[2%positive := {| parent := Some 1%positive |}]>
       (<[1%positive := {| parent := None |}]> ∅)).

(** A yielder that resumes every await with the status [err] and every
    other operation with the null value. *)
Definition resumed_with (err : Z) : yielder :=
  fun tag _ st =>
    if bool_decide (tag = lh_op_async_req_await)
    then Done (lh_value_int err) st
    else Done lh_value_null st.

(** A request bound to the operation 1 and not yet awaited, otherwise as
    [example_state]. *)
Definition example_awaiting : state :=
  {| request_store := {[ 1%positive := with_uvreq (Some 1%positive) zeroed_request ]};
     uv_store := {[ 1%positive := {| data := Some (Req_at 1%positive) |};
                    2%positive := {| data := None |} ]};
     local_store :=
       {[ 7%positive := {| loop := Some 3%positive;
                           requests := zeroed_request |} ]};
     scopes := ∅;
     memory := 4;
     captured := 0;
     calls := [] |}.

(** The state an outcome carries, [st] for a fault. *)
Definition final_state {A} (o : outcome A) (st : state) : state :=
  match o with
  | Done _ st' => st'
  | Exited _ _ st' => st'
  | Thrown _ st' => st'
  | Aborted st' => st'
  | No_memory st' => st'
  | Fault => st
  end.

(** A stand-in for libuv's table of error texts. *)
Definition example_strerror (e : Z) : string :=
  if e =? -4 then "interrupted system call" else "unknown error".

(** [example_state] after an await on the operation 1 has begun under the
    root handler at block 7. *)
Definition example_pending : state :=
  begun 7%positive 1%positive None example_state.

(** The request that await created, as it stands in [example_pending]. *)
Definition example_request : async_request_t :=
  {| next := None; prev := Some (Requests_of 7%positive);
     resume := Some (Captured 0);
     local := lh_value_async_local_ptr (Some 7%positive);
     scope := None; uvreq := Some 1%positive;
     resumefun := Some async_resume_default_fun |}.

(** * Further parts of the layer *)

(** ** Generic values, continued (libhandler.h) *)



(** ** Throw on errors, continued *)



Section Throw_message.

(** libuv's [uv_strerror]. *)
Variable uv_strerror : Z -> string.


End Throw_message.

(** ** Scopes, continued *)

(** [top] is met on the chain [l] of a scope: it is one of the scopes of the
    chain, or the NULL at its end. *)
Definition on_chain (l : list block) (top : cancel_scope_ptr) : Prop :=
  match top with
  | None => True
  | Some a => a ∈ l
  end.

#[global] Instance on_chain_dec l top : Decision (on_chain l top).
Proof. destruct top; simpl; apply _. Defined.

(** ** Handlers nested around the root handler *)

(** What a handler stack is to the code under it. *)

(** The ambient cancel scope under [lh_yield] is [ambient]. *)
Definition ambient_is (lh_yield : yielder) (ambient : cancel_scope_ptr) : Prop :=
  forall st, cancel_scope lh_yield st = Done ambient st.

(** The register operation under [lh_yield] is answered by the root handler
    with local state [L]. *)
Definition registers_at (L : block) (lh_yield : yielder) : Prop :=
  forall a req st,
    local_store st !! L = Some a ->
    is_Some (read_request req st) ->
    (next (requests a) <> None ->
     is_Some (read_request (next (requests a)) st)) ->
    lh_yield lh_op_async_req_register (lh_value_async_request_ptr req) st
    = Done lh_value_null (registered L req st).

(** The loop query under [lh_yield] is answered by the root handler with
    local state [L]. *)
Definition loop_at (L : block) (lh_yield : yielder) : Prop :=
  forall a arg st,
    local_store st !! L = Some a ->
    lh_yield lh_op_async_uv_loop arg st
    = Done (lh_value_uv_loop_ptr (loop a)) st.

(** A handler installed around a computation: a channel adapter with its
    local value, or a cancel scope binding. *)
Inductive layer :=
| Channel_layer (local_ : lh_value)
| Scope_layer (v : lh_value).

(** The handlers [ls], innermost first, installed over [base]. *)
Fixpoint nest (ls : list layer) (base : yielder) : yielder :=
  match ls with
  | [] => base
  | Channel_layer cl :: ls' => with_handler _channel_async_hdef cl (nest ls' base)
  | Scope_layer v :: ls' => with_implicit v _cancel_scope (nest ls' base)
  end.

(** Modelled from the spec: the block form of [with_implicit(v, name)]
    (nodec-internal.h is missing from the sources): the block runs under the
    handler of the implicit parameter, installed with [lh_handle]. *)
Definition with_implicit_do (v : lh_value) (name : string) (outer : yielder)
    (block : yielder -> exec lh_value) : exec lh_value :=
  lh_handle outer (implicit_hdef name) v (fun lh_yield _ => block lh_yield)
    lh_value_null.

(** ** What [async_request_alloc] does to the state *)

(** The state in which [async_request_alloc] on the operation [u] returns
    when the root handler with local state [L] answers its register
    operation: a fresh request bound to [u], with the ambient scope, first in
    the registry. *)
Definition allocated (L u : block) (ambient : cancel_scope_ptr) (st : state) : state :=
  let req := Some (Req_at (fresh (dom (request_store st)))) in
  registered L req
    (update_request req (with_scope ambient)
       (update_request req (with_uvreq (Some u))
          (set_uv_store (insert u {| data := req |})
             (set_memory pred
                (set_request_store
                   (insert (fresh (dom (request_store st))) zeroed_request)
                   st))))).

(** The requests of a state are accounted for by the pending list [l] of the
    handler: the live requests are exactly the pending ones. *)
Definition accounted (L : block) (st : state) (l : list block) : Prop :=
  pending_ok L st l /\ dom (request_store st) = list_to_set l.

(** The state in which [asyncx_await] on the operation [u] suspends when
    the register operation reaches the root handler with local state [L]
    and the await operation is answered by a handler with local value
    [local_] that attaches [strategy]. *)
Definition begun_with (strategy : async_resume_fun) (local_ : lh_value)
    (L u : block) (ambient : cancel_scope_ptr) (st : state) : state :=
  suspended strategy (Some (Captured (captured st))) local_
    (Some (Req_at (fresh (dom (request_store st)))))
    (set_captured S (allocated L u ambient st)).

(** * Properties *)

(** ** Scope trees *)

Lemma parent_chain_fresh h s l b x :
  h !! b = None -> parent_chain h s l -> parent_chain (<[b := x]> h) s l.
Proof.
  intros Hb Hc. induction Hc as [|c s l Hs _ IH]; [constructor|].
  apply chain_node with s; [|exact IH].
  rewrite lookup_insert_ne; [exact Hs|]. intros ->. congruence.
Qed.

Lemma parent_chain_unique h s l1 l2 :
  parent_chain h s l1 -> parent_chain h s l2 -> l1 = l2.
Proof.
  intros H1. revert l2. induction H1 as [|b s l Hs _ IH]; intros l2 H2.
  - by inversion H2.
  - inversion H2 as [|b' s' l' Hs' Hc']; subst.
    assert (s' = s) by congruence. subst. f_equal. by apply IH.
Qed.

(** In a store built by nesting every chain ends at the root, after at most
    as many scopes as the store holds. *)
Lemma built_chain h :
  built_by_nesting h ->
  forall s, scope_in h s ->
  exists l, parent_chain h s l /\ (length l <= size h)%nat.
Proof.
  induction 1 as [|h ambient b Hbuilt IH Hamb Hfresh]; intros s Hs.
  - destruct s as [a|].
    + destruct (Hs a eq_refl) as [x Hx]. by rewrite lookup_empty in Hx.
    + exists []. split; [constructor | simpl; lia].
  - rewrite map_size_insert_None by exact Hfresh.
    destruct s as [a|]; [|exists []; split; [constructor | simpl; lia]].
    destruct (decide (a = b)) as [->|Hne].
    + destruct (IH ambient Hamb) as (l & Hl & Hlen).
      exists (b :: l). split; [|simpl; lia].
      apply chain_node with {| parent := ambient |}.
      * by rewrite lookup_insert_eq.
      * simpl. by apply parent_chain_fresh.
    + destruct (IH (Some a)) as (l & Hl & Hlen).
      * intros a' [= <-]. destruct (Hs a eq_refl) as [x Hx].
        rewrite lookup_insert_ne in Hx by done. by exists x.
      * exists l. split; [by apply parent_chain_fresh | lia].
Qed.

(** The loop of [in_scope_of] along a chain, for a scope as [top]. *)
Lemma in_scope_of_chain h s l a fuel :
  parent_chain h s l -> (length l <= fuel)%nat ->
  in_scope_of fuel h s (Some a) = Walk_result (bool_decide (a ∈ l)).
Proof.
  intros Hc. revert fuel. induction Hc as [|b s l Hs _ IH]; intros fuel Hfuel.
  - destruct fuel; simpl; f_equal;
      rewrite !bool_decide_eq_false_2; try done; apply not_elem_of_nil.
  - simpl in Hfuel. destruct fuel as [|fuel]; [lia|].
    simpl. destruct (decide (b = a)) as [->|Hne].
    + rewrite !bool_decide_eq_true_2; try done. apply list_elem_of_here.
    + rewrite (bool_decide_eq_false_2 (Some b = Some a)) by congruence.
      rewrite Hs, IH by lia. f_equal.
      apply bool_decide_ext. rewrite elem_of_cons.
      split; [tauto | intros [Heq|Hin]; [congruence | exact Hin]].
Qed.

(** The loop of [in_scope_of] along a chain, for NULL as [top]. *)
Lemma in_scope_of_chain_null h s l fuel :
  parent_chain h s l -> (length l <= fuel)%nat ->
  in_scope_of fuel h s None = Walk_result true.
Proof.
  intros Hc. revert fuel. induction Hc as [|b s l Hs _ IH]; intros fuel Hfuel.
  - by destruct fuel.
  - simpl in Hfuel. destruct fuel as [|fuel]; [lia|].
    simpl. rewrite Hs. apply IH. lia.
Qed.



(** C3. In a scope tree built by nested scope creation, for a scope [s] of
    the tree (or NULL) and a scope [a], [in_scope_of(s, a)] returns, and it
    returns true exactly when [a] is on the parent chain that starts at [s],
    [s] included; it returns false when that chain reaches the root without
    meeting [a]. *)
Theorem in_scope_of_iff_on_parent_chain (h : scope_store)
    (s : cancel_scope_ptr) (a : block) :
  built_by_nesting h ->
  scope_in h s ->
  exists l,
    parent_chain h s l /\
    forall fuel, (size h <= fuel)%nat ->
      in_scope_of fuel h s (Some a) = Walk_result (bool_decide (a ∈ l)).
Proof.
  intros Hbuilt Hs.
  destruct (built_chain h Hbuilt s Hs) as (l & Hl & Hlen).
  exists l. split; [exact Hl|].
  intros fuel Hfuel. apply in_scope_of_chain; [exact Hl | lia].
Qed.

(** C10. In a scope tree built by nested scope creation,
    [in_scope_of(s, NULL)] is true for every scope [s] of the tree and for
    [s = NULL]: the walk stops at the root, which is the NULL pointer. *)
Theorem in_scope_of_null_top (h : scope_store) (s : cancel_scope_ptr) :
  built_by_nesting h ->
  scope_in h s ->
  forall fuel, (size h <= fuel)%nat ->
    in_scope_of fuel h s None = Walk_result true.
Proof.
  intros Hbuilt Hs fuel Hfuel.
  destruct (built_chain h Hbuilt s Hs) as (l & Hl & Hlen).
  apply in_scope_of_chain_null with l; [exact Hl | lia].
Qed.

(** In any scope store at all, a walk towards NULL that comes to a result
    comes to true. *)
Lemma in_scope_of_null_never_false fuel (h : scope_store) s :
  in_scope_of fuel h s None <> Walk_result false.
Proof.
  revert s. induction fuel as [|fuel IH]; intros [b|]; simpl; try done.
  destruct (h !! b) as [x|]; [apply IH | done].
Qed.

(** ** Running the monad *)

Lemma bind_done {A B} (m : exec A) (k : A -> exec B) st a st' :
  m st = Done a st' -> (x <- m ;; k x) st = k a st'.
Proof. intros H. unfold bind. by rewrite H. Qed.

Lemma ret_run {A} (a : A) st : ret a st = Done a st.
Proof. reflexivity. Qed.

Lemma assert_true_run st : assert true st = Done tt st.
Proof. reflexivity. Qed.

Lemma when_true_run (body : exec unit) : when true body = body.
Proof. reflexivity. Qed.

Lemma when_false_run (body : exec unit) st : when false body st = Done tt st.
Proof. reflexivity. Qed.

(** ** Reading and writing requests *)

Ltac store_simpl :=
  cbn [request_store uv_store local_store scopes memory captured calls
       set_request_store set_uv_store set_local_store set_scopes set_memory
       set_captured set_calls] in *.

Lemma read_update p q upd st :
  read_request p (update_request q upd st)
  = if decide (p = q) then upd <$> read_request p st else read_request p st.
Proof.
  destruct q as [[b|l]|]; destruct p as [[b'|l']|];
    unfold read_request, update_request; store_simpl;
    try (rewrite decide_False by congruence; reflexivity).
  - rewrite lookup_alter. destruct (decide (b = b')) as [->|Hne].
    + by rewrite decide_True.
    + by rewrite decide_False by congruence.
  - rewrite lookup_alter. destruct (decide (l = l')) as [->|Hne].
    + rewrite decide_True by done. by destruct (local_store st !! l').
    + by rewrite decide_False by congruence.
  - by rewrite decide_True.
Qed.

Lemma read_update_eq p upd st r :
  read_request p st = Some r ->
  read_request p (update_request p upd st) = Some (upd r).
Proof. intros H. rewrite read_update, decide_True by done. by rewrite H. Qed.

Lemma read_update_ne p q upd st :
  p <> q -> read_request p (update_request q upd st) = read_request p st.
Proof. intros H. by rewrite read_update, decide_False. Qed.

Lemma update_request_const p r upd st :
  read_request p st = Some r ->
  update_request p (fun _ => upd r) st = update_request p upd st.
Proof.
  destruct p as [[b|l]|]; unfold read_request, update_request; intros H;
    [| |done].
  - unfold set_request_store. f_equal. apply map_eq. intros i.
    rewrite !lookup_alter. case_decide; [subst; by rewrite H | done].
  - unfold set_local_store. f_equal. apply map_eq. intros i.
    rewrite !lookup_alter. case_decide; [subst|done].
    destruct (local_store st !! i) as [a|]; simplify_eq/=. done.
Qed.

Lemma field_run {A} p (f : async_request_t -> A) st r :
  read_request p st = Some r -> field p f st = Done (f r) st.
Proof. intros H. unfold field, bind, load_request. by rewrite H. Qed.

Lemma assign_run p upd st r :
  read_request p st = Some r ->
  assign p upd st = Done tt (update_request p upd st).
Proof.
  intros H. unfold assign, bind, load_request, store_request. rewrite H, H.
  by rewrite (update_request_const p r upd st H).
Qed.

(** The stores an update of a request leaves alone. *)
Lemma uv_store_update p upd st : uv_store (update_request p upd st) = uv_store st.
Proof. by destruct p as [[b|l]|]. Qed.
Lemma memory_update p upd st : memory (update_request p upd st) = memory st.
Proof. by destruct p as [[b|l]|]. Qed.
Lemma captured_update p upd st : captured (update_request p upd st) = captured st.
Proof. by destruct p as [[b|l]|]. Qed.
Lemma calls_update p upd st : calls (update_request p upd st) = calls st.
Proof. by destruct p as [[b|l]|]. Qed.

Lemma request_store_read b st :
  request_store st !! b = read_request (Some (Req_at b)) st.
Proof. reflexivity. Qed.

Lemma read_set_uv p f st : read_request p (set_uv_store f st) = read_request p st.
Proof. by destruct p as [[b|l]|]. Qed.

Lemma read_set_captured p f st : read_request p (set_captured f st) = read_request p st.
Proof. by destruct p as [[b|l]|]. Qed.

Lemma read_set_memory p f st : read_request p (set_memory f st) = read_request p st.
Proof. by destruct p as [[b|l]|]. Qed.

Lemma live_update p q upd st :
  is_Some (read_request p (update_request q upd st)) <-> is_Some (read_request p st).
Proof.
  rewrite read_update. case_decide; [|done].
  by rewrite fmap_is_Some.
Qed.

Lemma assign_live p upd st :
  is_Some (read_request p st) ->
  assign p upd st = Done tt (update_request p upd st).
Proof. intros [r H]. by apply assign_run with r. Qed.

Lemma load_uv_run u x st :
  uv_store st !! u = Some x -> load_uv (Some u) st = Done x st.
Proof. intros H. unfold load_uv. by rewrite H. Qed.

Lemma assign_data_run u x v st :
  uv_store st !! u = Some x ->
  assign_data (Some u) v st = Done tt (set_uv_store (insert u {| data := v |}) st).
Proof. intros H. unfold assign_data, bind, load_uv. by rewrite H. Qed.

Lemma free_request_run b r st :
  request_store st !! b = Some r ->
  free_request (Some (Req_at b)) st
  = Done tt (set_memory S (set_request_store (delete b) st)).
Proof. intros H. unfold free_request. by rewrite H. Qed.

(** ** Completion: [async_request_resume] and [async_req_resume] *)

Lemma call_resumefun_run f resume_ local_ u err st :
  call_resumefun (Some f) resume_ local_ (Some u) err st
  = Done tt (set_calls (fun t => t ++ strategy_calls f resume_ local_ u err) st).
Proof.
  destruct f; simpl; [|done].
  destruct resume_; simpl; [done|].
  unfold ret, set_calls. destruct st; simpl. by rewrite app_nil_r.
Qed.

Lemma async_request_resume_run b u r x f err st :
  request_store st !! b = Some r ->
  uvreq r = Some u ->
  uv_store st !! u = Some x ->
  resumefun r = Some f ->
  neighbours_ok b r st ->
  async_request_resume (Some (Req_at b)) (Some u) err st
  = Done tt
      (set_calls (fun t => t ++ strategy_calls f (resume r) (local r) u err)
         (completed b u r st)).
Proof.
  intros Hb Hu Hx Hf (Hpv & Hnx & Hpb & Hnb).
  unfold async_request_resume.
  erewrite bind_done by (by apply field_run with (r := r)).
  rewrite Hu, (bool_decide_eq_true_2 (Some u = Some u)) by done.
  rewrite orb_true_r.
  erewrite bind_done by apply assert_true_run.
  erewrite bind_done by (by apply field_run with (r := r)).
  rewrite Hu, bool_decide_eq_true_2 by done. rewrite when_true_run.
  erewrite bind_done by (by eapply assign_data_run).
  set (st1 := set_uv_store _ st).
  assert (Hb1 : read_request (Some (Req_at b)) st1 = Some r) by done.
  erewrite bind_done by (by eapply assign_run).
  set (st2 := update_request _ _ st1).
  assert (Hb2 : read_request (Some (Req_at b)) st2 = Some (with_uvreq None r)).
  { by apply read_update_eq. }
  erewrite bind_done by (by eapply field_run).
  cbn [prev with_uvreq].
  assert (Hst6 : exists r6,
    read_request (Some (Req_at b)) (unlink_request (Some (Req_at b)) r st2) = Some r6
    /\ resumefun r6 = resumefun r /\ resume r6 = resume r /\ local r6 = local r).
  { unfold unlink_request. destruct (prev r) as [pv|] eqn:Epv.
    - eexists. split.
      + rewrite !read_update, !decide_True by done.
        rewrite (decide_False (P := Some (Req_at b) = next r)) by done.
        rewrite (decide_False (P := Some (Req_at b) = Some pv)) by done.
        rewrite Hb2. reflexivity.
      + done.
    - eexists. split; [exact Hb2 | done]. }
  destruct Hst6 as (r6 & Hr6 & Hf6 & Hk6 & Hl6).
  assert (Hunlink :
    (prev_ <- ret (prev r) ;;
     when (bool_decide (prev_ <> None))
       (n <- field (Some (Req_at b)) next ;;
        assign prev_ (with_next n) ;;;
        n <- field (Some (Req_at b)) next ;;
        when (bool_decide (n <> None)) (assign n (with_prev prev_)) ;;;
        assign (Some (Req_at b)) (with_next None) ;;;
        assign (Some (Req_at b)) (with_prev None))) st2
    = Done tt (unlink_request (Some (Req_at b)) r st2)).
  { unfold unlink_request. erewrite bind_done by apply ret_run.
    destruct (prev r) as [pv|] eqn:Epv.
    - rewrite bool_decide_eq_true_2 by done. rewrite when_true_run.
      erewrite bind_done by (by eapply field_run).
      cbn [next with_uvreq].
      erewrite bind_done
        by (apply assign_live; unfold st2, st1; rewrite live_update, read_set_uv;
            by apply Hpv).
      erewrite bind_done
        by (eapply field_run; rewrite read_update_ne by done; exact Hb2).
      cbn [next with_uvreq].
      destruct (next r) as [nx|] eqn:Enx.
      + rewrite bool_decide_eq_true_2 by done. rewrite when_true_run.
        erewrite bind_done
          by (apply assign_live; unfold st2, st1;
              rewrite !live_update, read_set_uv; by apply Hnx).
        erewrite bind_done
          by (apply assign_live; rewrite !live_update; by eexists).
        apply assign_live. rewrite !live_update. by eexists.
      + rewrite bool_decide_eq_false_2 by (intros H; by apply H).
        erewrite bind_done by apply when_false_run.
        erewrite bind_done
          by (apply assign_live; rewrite !live_update; by eexists).
        apply assign_live. rewrite !live_update. by eexists.
    - rewrite bool_decide_eq_false_2 by (intros H; by apply H).
      apply when_false_run. }
  unfold ret in Hunlink at 1. unfold bind in Hunlink at 1.
  unfold bind at 1. rewrite Hunlink.
  erewrite bind_done by (by eapply field_run).
  erewrite bind_done by (by eapply field_run).
  erewrite bind_done by (by eapply field_run).
  erewrite bind_done by (by eapply free_request_run).
  rewrite Hf6, Hk6, Hl6, Hf. apply call_resumefun_run.
Qed.

Lemma update_request_twice p f g st :
  update_request p f (update_request p g st)
  = update_request p (fun r => f (g r)) st.
Proof.
  destruct p as [[b|l]|]; unfold update_request; [| |done].
  - unfold set_request_store. store_simpl. f_equal.
    apply alter_alter_eq.
  - unfold set_local_store. store_simpl. f_equal.
    by rewrite alter_alter_eq.
Qed.

Lemma update_request_ext p f g st r :
  read_request p st = Some r -> f r = g r ->
  update_request p f st = update_request p g st.
Proof.
  intros H Hfg.
  rewrite <- (update_request_const p r f st H).
  rewrite <- (update_request_const p r g st H). by rewrite Hfg.
Qed.

Lemma async_req_resume_run b u r x f err st :
  uv_store st !! u = Some x ->
  data x = Some (Req_at b) ->
  request_store st !! b = Some r ->
  uvreq r = Some u ->
  resumefun r = Some f ->
  neighbours_ok b r st ->
  async_req_resume (Some u) err st
  = Done tt
      (set_calls (fun t => t ++ strategy_calls f (resume r) (local r) u err)
         (completed b u r st)).
Proof.
  intros Hx Hd Hb Hu Hf Hn. unfold async_req_resume.
  erewrite bind_done by (by apply load_uv_run).
  rewrite Hd, bool_decide_eq_true_2 by done. rewrite when_true_run.
  by eapply async_request_resume_run.
Qed.

Lemma async_req_resume_noop u x err st :
  uv_store st !! u = Some x ->
  data x = None ->
  async_req_resume (Some u) err st = Done tt st.
Proof.
  intros Hx Hd. unfold async_req_resume.
  erewrite bind_done by (by apply load_uv_run).
  rewrite Hd, bool_decide_eq_false_2 by (intros H; by apply H).
  apply when_false_run.
Qed.

Lemma read_unlink_other q req r st :
  q <> req ->
  read_request q (unlink_request req r st)
  = match prev r with
    | None => read_request q st
    | Some _ =>
        (fun y =>
           (if decide (q = next r) then with_prev (prev r) else id)
             ((if decide (q = prev r) then with_next (next r) else id) y))
        <$> read_request q st
    end.
Proof.
  intros Hq. unfold unlink_request. destruct (prev r) as [pv|]; [|done].
  rewrite !read_update, !(decide_False (P := q = req)) by done.
  repeat case_decide; destruct (read_request q st); done.
Qed.

(** The requests other than the completed one after a completion. *)
Lemma read_completed_other q b u r st :
  q <> Some (Req_at b) ->
  read_request q (completed b u r st)
  = match prev r with
    | None => read_request q st
    | Some _ =>
        (fun y =>
           (if decide (q = next r) then with_prev (prev r) else id)
             ((if decide (q = prev r) then with_next (next r) else id) y))
        <$> read_request q st
    end.
Proof.
  intros Hq. unfold completed. rewrite read_set_memory.
  transitivity (read_request q
    (unlink_request (Some (Req_at b)) r
       (update_request (Some (Req_at b)) (with_uvreq None)
          (set_uv_store (insert u {| data := None |}) st)))).
  { destruct q as [[b'|l]|]; try done. simpl.
    rewrite lookup_delete_ne by congruence. done. }
  rewrite read_unlink_other by done.
  by rewrite read_update_ne, read_set_uv by done.
Qed.

Lemma request_store_completed b u r st :
  request_store (completed b u r st) !! b = None.
Proof. unfold completed. store_simpl. apply lookup_delete_eq. Qed.

Lemma uv_store_unlink req r st :
  uv_store (unlink_request req r st) = uv_store st.
Proof.
  unfold unlink_request. destruct (prev r); [|done].
  by rewrite !uv_store_update.
Qed.

Lemma uv_store_completed b u r st :
  uv_store (completed b u r st) = <[u := {| data := None |}]> (uv_store st).
Proof.
  unfold completed. store_simpl. by rewrite uv_store_unlink, uv_store_update.
Qed.

Lemma calls_completed b u r st : calls (completed b u r st) = calls st.
Proof.
  unfold completed, unlink_request. store_simpl.
  destruct (prev r); by rewrite ?calls_update.
Qed.

(** ** The registry as a doubly linked list *)

Lemma linked_frame st st' p f l :
  (forall b, b ∈ l -> request_store st' !! b = request_store st !! b) ->
  linked st p f l -> linked st' p f l.
Proof.
  revert p f. induction l as [|b l IH]; intros p f Hsame; [done|].
  intros (-> & r & Hr & Hp & Hl). split; [done|].
  exists r. split; [|split; [done|]].
  - rewrite Hsame; [done | apply list_elem_of_here].
  - apply IH; [|done]. intros x Hx. apply Hsame. by apply list_elem_of_further.
Qed.

Lemma linked_live st p f l b :
  linked st p f l -> b ∈ l -> is_Some (request_store st !! b).
Proof.
  revert p f. induction l as [|a l IH]; intros p f Hl Hb.
  - by apply not_elem_of_nil in Hb.
  - destruct Hl as (-> & r & Hr & Hp & Hl).
    apply elem_of_cons in Hb as [->|Hb]; [by exists r | by eapply IH].
Qed.

Lemma linked_first st p f l :
  linked st p f l ->
  f = match l with [] => None | b :: _ => Some (Req_at b) end.
Proof. destruct l; [done | by intros (-> & _)]. Qed.

Lemma linked_unique st p f l1 l2 :
  linked st p f l1 -> linked st p f l2 -> l1 = l2.
Proof.
  revert p f l2. induction l1 as [|b l1 IH]; intros p f l2 H1 H2.
  - simpl in H1. subst. by destruct l2 as [|c l2]; [|destruct H2].
  - destruct H1 as (-> & r & Hr & Hp & H1).
    destruct l2 as [|c l2]; [done|].
    destruct H2 as ([= <-] & r' & Hr' & Hp' & H2).
    assert (r' = r) by congruence. subst. f_equal. by eapply IH.
Qed.

(** The request [b] inside a chain: what its [prev] and [next] are. *)
Lemma linked_at st p f l1 b l2 :
  linked st p f (l1 ++ b :: l2) ->
  exists r, request_store st !! b = Some r /\
    prev r = match last l1 with None => p | Some a => Some (Req_at a) end /\
    linked st (Some (Req_at b)) (next r) l2.
Proof.
  revert p f. induction l1 as [|a l1 IH]; intros p f.
  - intros (-> & r & Hr & Hp & Hl). by exists r.
  - intros (-> & r & Hr & Hp & Hl).
    destruct (IH _ _ Hl) as (rb & Hrb & Hpb & Hlb).
    exists rb. split; [done|]. split; [|done].
    rewrite Hpb, last_cons. by destruct (last l1).
Qed.

(** Unlinking [b] from a chain, given how the surgery changes the other
    requests. *)
Lemma linked_unlink st st' b r l1 l2 :
  request_store st !! b = Some r ->
  (forall q, q <> Some (Req_at b) ->
     read_request q st'
     = (fun y =>
          (if decide (q = next r) then with_prev (prev r) else id)
            ((if decide (q = prev r) then with_next (next r) else id) y))
       <$> read_request q st) ->
  forall p0 r0,
  NoDup (l1 ++ b :: l2) ->
  (forall x, x ∈ l1 ++ b :: l2 -> p0 <> Some (Req_at x)) ->
  read_request p0 st = Some r0 ->
  linked st p0 (next r0) (l1 ++ b :: l2) ->
  exists r0', read_request p0 st' = Some r0' /\ prev r0' = prev r0 /\
              linked st' p0 (next r0') (l1 ++ l2).
Proof.
  intros Hb Hst'. induction l1 as [|a l1 IH]; intros p0 r0 Hnd Hp0 Hr0 Hl.
  - simpl in *. destruct Hl as (Hnext & r' & Hr' & Hprev & Hl).
    assert (r' = r) by congruence. subst r'.
    apply NoDup_cons in Hnd as [Hbl2 Hnd].
    assert (Hp0b : p0 <> Some (Req_at b)) by (apply Hp0, list_elem_of_here).
    assert (Hp0n : p0 <> next r).
    { rewrite (linked_first _ _ _ _ Hl). destruct l2 as [|c l2].
      - intros ->. done.
      - apply Hp0. apply list_elem_of_further, list_elem_of_here. }
    exists (with_next (next r) r0). split; [|split; [done|]].
    + rewrite Hst' by done. rewrite Hr0. simpl.
      rewrite decide_False by done. by rewrite decide_True.
    + simpl. destruct l2 as [|c l2]; [done|].
      destruct Hl as (Hn & rc & Hrc & Hpc & Hl). split; [done|].
      apply NoDup_cons in Hnd as [Hcl2 Hnd].
      assert (Hcb : c <> b).
      { intros ->. apply Hbl2, list_elem_of_here. }
      exists (with_prev (prev r) rc). split; [|split].
      * rewrite request_store_read, Hst' by congruence.
        rewrite <- request_store_read, Hrc. simpl.
        rewrite decide_True by done.
        rewrite decide_False; [done|].
        rewrite Hprev. intros Heq. symmetry in Heq. revert Heq.
        apply Hp0. apply list_elem_of_further, list_elem_of_here.
      * simpl. done.
      * simpl. apply linked_frame with st; [|done].
        intros x Hx. rewrite !request_store_read.
        assert (Hxb : x <> b).
        { intros ->. apply Hbl2. by apply list_elem_of_further. }
        assert (Hxc : x <> c) by (intros ->; done).
        rewrite Hst' by congruence.
        rewrite decide_False by (rewrite Hn; congruence).
        rewrite decide_False.
        { by destruct (read_request (Some (Req_at x)) st). }
        rewrite Hprev. intros Heq. symmetry in Heq. revert Heq.
        apply Hp0. by do 2 apply list_elem_of_further.
  - simpl in Hl. destruct Hl as (Hnext & ra & Hra & Hpa & Hl).
    simpl in Hnd. apply NoDup_cons in Hnd as [Hal Hnd].
    destruct (linked_at _ _ _ _ _ _ Hl) as (rb & Hrb & Hpb & Hlb).
    assert (rb = r) by congruence. subst rb.
    assert (Hprev_in : exists y, prev r = Some (Req_at y) /\ y ∈ a :: l1).
    { destruct (last l1) as [y|] eqn:Hlast.
      - exists y. split; [done|]. apply list_elem_of_further.
        apply last_Some in Hlast as [l' ->].
        apply elem_of_app. right. apply list_elem_of_here.
      - exists a. split; [done | apply list_elem_of_here]. }
    destruct Hprev_in as (y & Hprev & Hy).
    assert (Hp0p : p0 <> prev r).
    { rewrite Hprev. apply Hp0. simpl.
      apply elem_of_cons in Hy as [->|Hy]; [apply list_elem_of_here|].
      apply list_elem_of_further. apply elem_of_app. by left. }
    assert (Hp0n : p0 <> next r).
    { rewrite (linked_first _ _ _ _ Hlb). destruct l2 as [|c l2].
      - intros ->. done.
      - apply Hp0. simpl. apply list_elem_of_further. apply elem_of_app.
        right. apply list_elem_of_further, list_elem_of_here. }
    destruct (IH (Some (Req_at a)) ra) as (ra' & Hra' & Hpa' & Hl').
    + done.
    + intros x Hx [= ->]. done.
    + done.
    + done.
    + assert (Hp0b : p0 <> Some (Req_at b)).
      { apply Hp0. simpl. apply list_elem_of_further. apply elem_of_app.
        right. apply list_elem_of_here. }
      exists r0. split; [|split; [done|]].
      * rewrite Hst' by done. rewrite Hr0. simpl.
        by rewrite !decide_False by done.
      * rewrite Hnext. simpl. split; [done|].
        exists ra'. split; [done|]. split; [congruence | done].
Qed.

(** ** Yielding under the handlers *)

Lemma async_request_ptr_roundtrip req :
  lh_async_request_ptr_value (lh_value_async_request_ptr req) = Some req.
Proof. by destruct req. Qed.

Lemma with_handler_other def local_ outer tag arg st :
  hd_effect def <> effect tag ->
  with_handler def local_ outer tag arg st = shift_exit (outer tag arg st).
Proof. intros H. unfold with_handler. by rewrite bool_decide_eq_false_2. Qed.

Lemma with_handler_tail def local_ outer tag arg st kind f r l res st' :
  hd_effect def = effect tag ->
  find_operation (operations def) tag = Some (kind, f) ->
  kind = LH_OP_TAIL \/ kind = LH_OP_TAIL_NOOP ->
  f (if bool_decide (kind = LH_OP_TAIL_NOOP) then no_yield else outer)
    (Some Tail_resumption) local_ arg st = Done (Op_tail_resumed r l res) st' ->
  with_handler def local_ outer tag arg st = Done res st'.
Proof.
  intros He Hop Hk Hf. unfold with_handler.
  rewrite bool_decide_eq_true_2, Hop by done.
  destruct Hk as [-> | ->]; simpl capture; unfold ret; by rewrite Hf.
Qed.

Lemma with_handler_general def local_ outer tag arg st f v st' :
  hd_effect def = effect tag ->
  find_operation (operations def) tag = Some (LH_OP_GENERAL, f) ->
  f outer (Some (Captured (captured st))) local_ arg (set_captured S st)
    = Done (Op_returned v) st' ->
  with_handler def local_ outer tag arg st = Exited 0 v st'.
Proof.
  intros He Hop Hf. unfold with_handler.
  rewrite bool_decide_eq_true_2, Hop by done. simpl. by rewrite Hf.
Qed.

(** Under [with_outer_cancel_scope] the ambient scope is the NULL pointer. *)
Lemma outer_cancel_scope_is_null outer st :
  cancel_scope (with_outer_cancel_scope outer) st = Done None st.
Proof. reflexivity. Qed.

(** The ambient scope under the handlers of the bootstrap. *)
Lemma cancel_scope_under_root L ambient outer st :
  cancel_scope (under_root L ambient outer) st = Done ambient st.
Proof.
  unfold cancel_scope, implicit_get, under_root, with_implicit, with_handler, bind.
  simpl. by destruct ambient.
Qed.

(** ** Registering: [_async_req_register] *)

Lemma async_req_register_run lh_yield r L a req st :
  local_store st !! L = Some a ->
  is_Some (read_request req st) ->
  (next (requests a) <> None -> is_Some (read_request (next (requests a)) st)) ->
  _async_req_register lh_yield r (lh_value_async_local_ptr (Some L))
    (lh_value_async_request_ptr req) st
  = Done (Op_tail_resumed r (lh_value_async_local_ptr (Some L)) lh_value_null)
      (registered L req st).
Proof.
  intros HL [rq Hreq] Hfirst. unfold _async_req_register, registered.
  rewrite HL. cbn [lh_value_async_local_ptr lh_async_local_ptr_value defined].
  erewrite bind_done by apply ret_run.
  rewrite async_request_ptr_roundtrip. cbn [defined].
  erewrite bind_done by apply ret_run.
  assert (Hne : req <> None) by (intros ->; done).
  rewrite bool_decide_eq_true_2 by done.
  erewrite bind_done by apply assert_true_run.
  cbn [requests_of].
  assert (Hhead : read_request (Some (Requests_of L)) st = Some (requests a)).
  { simpl. by rewrite HL. }
  erewrite bind_done by (by eapply field_run).
  erewrite bind_done by (by eapply assign_run).
  erewrite bind_done by (eapply field_run; by apply read_update_eq).
  cbn [next with_next].
  destruct (next (requests a)) as [first|] eqn:Efirst.
  - rewrite bool_decide_eq_true_2 by done. rewrite when_true_run.
    erewrite bind_done by (apply assign_live; rewrite live_update; by apply Hfirst).
    erewrite bind_done by (apply assign_live; rewrite !live_update; by eexists).
    erewrite bind_done by (apply assign_live; rewrite !live_update; by eexists).
    done.
  - rewrite bool_decide_eq_false_2 by (intros H; by apply H).
    erewrite bind_done by apply when_false_run.
    erewrite bind_done by (apply assign_live; rewrite !live_update; by eexists).
    erewrite bind_done by (apply assign_live; rewrite !live_update; by eexists).
    done.
Qed.

Lemma registry_registered L st l b rb :
  registry L st l ->
  NoDup l ->
  b ∉ l ->
  request_store st !! b = Some rb ->
  registry L (registered L (Some (Req_at b)) st) (b :: l).
Proof.
  intros (a & HL & Hl) Hnd Hbl Hb. unfold registered. rewrite HL.
  set (head := Some (Requests_of L)). set (first := next (requests a)) in *.
  set (req := Some (Req_at b)).
  set (st' := update_request head _ _).
  assert (Hfirst : first = match l with [] => None | c :: _ => Some (Req_at c) end).
  { by apply linked_first in Hl. }
  assert (Hfb : first <> req).
  { rewrite Hfirst. destruct l as [|c l]; [done|]. intros [= ->].
    apply Hbl, list_elem_of_here. }
  assert (Hfh : first <> head).
  { rewrite Hfirst. by destruct l. }
  assert (Hhead : read_request head st' = Some (with_next req (requests a))).
  { unfold st'. rewrite read_update_eq with (r := requests a); [done|].
    rewrite !read_update_ne by done. simpl. by rewrite HL. }
  assert (Hother : forall x, x <> b -> Some (Req_at x) <> first ->
            request_store st' !! x = request_store st !! x).
  { intros x Hx Hxf. rewrite !request_store_read. unfold st'.
    rewrite !read_update_ne; [done | unfold head, req; congruence ..]. }
  simpl in Hhead. apply fmap_Some in Hhead as (a' & Ha' & Hreq).
  exists a'. split; [done|]. rewrite <- Hreq. cbn [next with_next linked].
  split; [done|].
  exists (with_prev head (with_next first rb)). split; [|split; [done|]].
  - rewrite request_store_read. unfold st'.
    rewrite read_update_ne by done.
    rewrite read_update_eq with (r := with_next first rb); [done|].
    rewrite read_update_ne by done. by apply read_update_eq.
  - cbn [next with_next with_prev]. destruct l as [|c l]; [done|].
    destruct Hl as (Hc & rc & Hrc & Hpc & Hl). split; [done|].
    apply NoDup_cons in Hnd as [Hcl Hnd].
    assert (Hcb : c <> b).
    { intros ->. apply Hbl, list_elem_of_here. }
    exists (with_prev req rc). split; [|split; [done|]].
    + rewrite request_store_read. unfold st'.
      rewrite !read_update_ne by (rewrite ?Hc; congruence). rewrite Hc.
      rewrite read_update_eq with (r := rc); [done|].
      by rewrite read_update_ne by congruence.
    + cbn [next with_prev]. apply linked_frame with st; [|done].
      intros x Hx. apply Hother.
      * intros ->. apply Hbl. by apply list_elem_of_further.
      * rewrite Hc. intros [= ->]. done.
Qed.

(** ** Awaiting: [_async_req_await] and [_channel_async_req_await] *)

Ltac await_prologue Hreq Hu Hx Hd :=
  rewrite async_request_ptr_roundtrip; cbn [defined];
  erewrite bind_done by apply ret_run;
  rewrite bool_decide_eq_true_2 by (intros ->; done);
  erewrite bind_done by apply assert_true_run;
  erewrite bind_done by (eapply field_run; exact Hreq);
  rewrite Hu, bool_decide_eq_true_2 by done;
  erewrite bind_done by apply assert_true_run;
  erewrite bind_done by (apply load_uv_run; exact Hx);
  rewrite bool_decide_eq_true_2 by exact Hd;
  erewrite bind_done by apply assert_true_run.

Lemma async_req_await_run lh_yield resume_ local_ req r st :
  awaitable req r st ->
  _async_req_await lh_yield resume_ local_ (lh_value_async_request_ptr req) st
  = Done (Op_returned lh_value_null)
      (suspended async_resume_default_fun resume_ local_ req st).
Proof.
  intros (Hreq & u & x & Hu & Hx & Hd). unfold _async_req_await, suspended.
  await_prologue Hreq Hu Hx Hd.
  erewrite bind_done by (by eapply assign_run).
  erewrite bind_done by (eapply assign_run; by apply read_update_eq).
  erewrite bind_done
    by (eapply field_run; apply read_update_eq; by apply read_update_eq).
  cbn [resumefun with_resume with_local].
  rewrite update_request_twice.
  destruct (resumefun r) as [f|] eqn:Ef.
  - rewrite bool_decide_eq_false_2 by done.
    erewrite bind_done by apply when_false_run.
    unfold ret. f_equal.
    apply update_request_ext with r; [done|]. rewrite Ef.
    destruct r; simpl in *; by subst.
  - rewrite bool_decide_eq_true_2 by done. rewrite when_true_run.
    erewrite bind_done
      by (eapply assign_run; eapply read_update_eq; exact Hreq).
    unfold ret. f_equal. rewrite update_request_twice.
    apply update_request_ext with r; [done|]. by rewrite Ef.
Qed.

Lemma channel_async_req_await_run lh_yield resume_ local_ req r st :
  awaitable req r st ->
  _channel_async_req_await lh_yield resume_ local_
    (lh_value_async_request_ptr req) st
  = Done (Op_returned lh_value_null)
      (suspended _channel_async_req_resume_fun resume_ local_ req st).
Proof.
  intros (Hreq & u & x & Hu & Hx & Hd).
  unfold _channel_async_req_await, suspended.
  await_prologue Hreq Hu Hx Hd.
  erewrite bind_done by (by eapply assign_run).
  erewrite bind_done by (eapply assign_run; by apply read_update_eq).
  erewrite bind_done
    by (eapply field_run; apply read_update_eq; by apply read_update_eq).
  cbn [resumefun with_resume with_local].
  rewrite update_request_twice.
  destruct (resumefun r) as [f|] eqn:Ef.
  - rewrite bool_decide_eq_false_2 by done.
    erewrite bind_done by apply when_false_run.
    unfold ret. f_equal.
    apply update_request_ext with r; [done|]. rewrite Ef.
    destruct r; simpl in *; by subst.
  - rewrite bool_decide_eq_true_2 by done. rewrite when_true_run.
    erewrite bind_done
      by (eapply assign_run; eapply read_update_eq; exact Hreq).
    unfold ret. f_equal. rewrite update_request_twice.
    apply update_request_ext with r; [done|]. by rewrite Ef.
Qed.

(** ** Beginning an await: [asyncx_await] under the root handler *)

Lemma bind_exited {A B} (m : exec A) (k : A -> exec B) st d v st' :
  m st = Exited d v st' -> (x <- m ;; k x) st = Exited d v st'.
Proof. intros H. unfold bind. by rewrite H. Qed.

Lemma nodec_zalloc_run n st :
  memory st = S n ->
  nodec_zalloc_async_request st
  = Done (Some (Req_at (fresh (dom (request_store st)))))
      (set_memory pred
         (set_request_store
            (insert (fresh (dom (request_store st))) zeroed_request) st)).
Proof.
  intros Hm. unfold nodec_zalloc_async_request. rewrite Hm.
  unfold set_memory. store_simpl. by rewrite Hm.
Qed.

Lemma fresh_request_not_live st :
  request_store st !! fresh (dom (request_store st)) = None.
Proof. apply not_elem_of_dom, is_fresh. Qed.

Lemma effect_cancel_scope_not_async :
  hd_effect (implicit_hdef _cancel_scope) <> lh_names_effect_async.
Proof. intros H. vm_compute in H. discriminate H. Qed.

Lemma yield_register_under_root L ambient outer a req st :
  local_store st !! L = Some a ->
  is_Some (read_request req st) ->
  (next (requests a) <> None -> is_Some (read_request (next (requests a)) st)) ->
  under_root L ambient outer lh_op_async_req_register
    (lh_value_async_request_ptr req) st
  = Done lh_value_null (registered L req st).
Proof.
  intros HL Hreq Hfirst. unfold under_root, with_implicit.
  rewrite with_handler_other by apply effect_cancel_scope_not_async.
  rewrite (with_handler_tail _async_def _ outer _ _ st LH_OP_TAIL_NOOP
             _async_req_register (Some Tail_resumption)
             (lh_value_async_local_ptr (Some L)) lh_value_null
             (registered L req st));
    [reflexivity | reflexivity | reflexivity | by right |].
  by apply async_req_register_run with a.
Qed.

Lemma yield_await_under_root L ambient outer req r st :
  awaitable req r st ->
  under_root L ambient outer lh_op_async_req_await
    (lh_value_async_request_ptr req) st
  = Exited 1 lh_value_null
      (suspended async_resume_default_fun (Some (Captured (captured st)))
         (lh_value_async_local_ptr (Some L)) req (set_captured S st)).
Proof.
  intros (Hreq & u & x & Hu & Hx & Hd). unfold under_root, with_implicit.
  rewrite with_handler_other by apply effect_cancel_scope_not_async.
  rewrite (with_handler_general _async_def _ outer _ _ st _async_req_await
             lh_value_null
             (suspended async_resume_default_fun (Some (Captured (captured st)))
                (lh_value_async_local_ptr (Some L)) req (set_captured S st)));
    [reflexivity | reflexivity | reflexivity |].
  apply async_req_await_run with r. split.
  - by rewrite read_set_captured.
  - by exists u, x.
Qed.

Lemma captured_registered L req st : captured (registered L req st) = captured st.
Proof.
  unfold registered. destruct (local_store st !! L); [|done].
  by rewrite !captured_update.
Qed.

Lemma uv_store_registered L req st : uv_store (registered L req st) = uv_store st.
Proof.
  unfold registered. destruct (local_store st !! L); [|done].
  by rewrite !uv_store_update.
Qed.

(** The request being registered, after the registration. *)
Lemma read_registered_self L a b r st :
  local_store st !! L = Some a ->
  request_store st !! b = Some r ->
  next (requests a) <> Some (Req_at b) ->
  read_request (Some (Req_at b)) (registered L (Some (Req_at b)) st)
  = Some (with_prev (Some (Requests_of L)) (with_next (next (requests a)) r)).
Proof.
  intros HL Hb Hfirst. unfold registered. rewrite HL.
  rewrite read_update_ne by done.
  rewrite read_update_eq with (r := with_next (next (requests a)) r); [done|].
  rewrite read_update_ne by done. by apply read_update_eq.
Qed.

Lemma asyncx_await_run L ambient outer u x a n st :
  memory st = S n ->
  uv_store st !! u = Some x ->
  local_store st !! L = Some a ->
  (next (requests a) <> None -> is_Some (read_request (next (requests a)) st)) ->
  asyncx_await (under_root L ambient outer) (Some u) st
  = Exited 1 lh_value_null (begun L u ambient st).
Proof.
  intros Hm Hx HL Hfirst. unfold asyncx_await, async_request_alloc, begun.
  set (b := fresh (dom (request_store st))).
  assert (Hfresh : request_store st !! b = None) by apply fresh_request_not_live.
  assert (Hfb : next (requests a) <> Some (Req_at b)).
  { intros Heq. destruct Hfirst as [r Hr]; [by rewrite Heq|].
    rewrite Heq in Hr. simpl in Hr. congruence. }
  set (st1 := set_memory pred (set_request_store (insert b zeroed_request) st)).
  rewrite bind_done with (a := Some (Req_at b))
    (st' := registered L (Some (Req_at b))
              (update_request (Some (Req_at b)) (with_scope ambient)
                 (update_request (Some (Req_at b)) (with_uvreq (Some u))
                    (set_uv_store (insert u {| data := Some (Req_at b) |}) st1)))).
  - set (st4 := registered L _ _).
    unfold async_req_await.
    erewrite bind_exited; [reflexivity|].
    erewrite yield_await_under_root.
    + unfold st4 at 1. rewrite captured_registered. reflexivity.
    + split.
      * unfold st4. apply read_registered_self with (a := a); [done| |done].
        cbn. by rewrite !lookup_alter_eq, lookup_insert_eq.
      * exists u, {| data := Some (Req_at b) |}. split; [done|]. split; [|done].
        unfold st4. rewrite uv_store_registered. cbn.
        by rewrite lookup_insert_eq.
  - rewrite bind_done with (a := Some (Req_at b)) (st' := st1)
      by (by eapply nodec_zalloc_run).
    erewrite bind_done by (by eapply assign_data_run).
    erewrite bind_done
      by (eapply assign_run; cbn; by rewrite lookup_insert_eq).
    erewrite bind_done by apply cancel_scope_under_root.
    erewrite bind_done
      by (apply assign_live; rewrite live_update; cbn;
          rewrite lookup_insert_eq; by eexists).
    erewrite bind_done.
    2:{ unfold async_req_register. erewrite bind_done; [reflexivity|].
        eapply (yield_register_under_root L ambient outer a (Some (Req_at b))).
        - done.
        - rewrite !live_update. cbn. rewrite lookup_insert_eq. by eexists.
        - intros Hne. specialize (Hfirst Hne).
          rewrite !live_update, read_set_uv.
          destruct (next (requests a)) as [[c|l]|]; [| done | done].
          cbn. cbn in Hfirst. rewrite lookup_insert_ne; [done|].
          intros ->. apply Hfb. done. }
    reflexivity.
Qed.

(** ** The registry under updates that keep the links *)

Lemma linked_update st p f l q upd :
  keeps_links upd ->
  linked st p f l -> linked (update_request q upd st) p f l.
Proof.
  intros Hupd. revert p f. induction l as [|b l IH]; intros p f; [done|].
  intros (-> & r & Hr & Hp & Hl). split; [done|].
  rewrite request_store_read, read_update, <- request_store_read, Hr.
  case_decide.
  - exists (upd r). destruct (Hupd r) as [Hp' Hn'].
    split; [done|]. split; [congruence|]. rewrite Hn'. by apply IH.
  - exists r. split; [done|]. split; [done|]. by apply IH.
Qed.

Lemma registry_update L st l q upd :
  keeps_links upd ->
  registry L st l -> registry L (update_request q upd st) l.
Proof.
  intros Hupd (a & HL & Hl).
  assert (Hhead : read_request (Some (Requests_of L)) st = Some (requests a)).
  { simpl. by rewrite HL. }
  pose proof (read_update (Some (Requests_of L)) q upd st) as Hread.
  rewrite Hhead in Hread. case_decide.
  - simpl in Hread. apply fmap_Some in Hread as (a' & Ha' & Hreq).
    exists a'. split; [done|]. rewrite <- Hreq.
    destruct (Hupd (requests a)) as [_ ->]. by apply linked_update.
  - simpl in Hread. apply fmap_Some in Hread as (a' & Ha' & Hreq).
    exists a'. split; [done|]. rewrite <- Hreq. by apply linked_update.
Qed.

Lemma registry_frame L st st' l :
  local_store st' !! L = local_store st !! L ->
  (forall b, b ∈ l -> request_store st' !! b = request_store st !! b) ->
  registry L st l -> registry L st' l.
Proof.
  intros HL Hsame (a & Ha & Hl). exists a. split; [congruence|].
  by apply linked_frame with st.
Qed.

Lemma registry_live L st l b :
  registry L st l -> b ∈ l -> is_Some (request_store st !! b).
Proof. intros (a & _ & Hl). by apply linked_live with (p := Some (Requests_of L)) (f := next (requests a)). Qed.

Lemma keeps_links_uvreq v : keeps_links (with_uvreq v).
Proof. by intros r. Qed.
Lemma keeps_links_scope v : keeps_links (with_scope v).
Proof. by intros r. Qed.
Lemma keeps_links_suspended strategy k v :
  keeps_links
    (fun r =>
       with_resumefun
         (match resumefun r with None => Some strategy | Some f => Some f end)
         (with_resume k (with_local v r))).
Proof. by intros r. Qed.

(** ** Pending requests across a begun await *)

Section Begun.
Variables (L u : block) (ambient : cancel_scope_ptr) (st : state).
Variables (a : async_local_t) (l : list block).
Hypothesis HL : local_store st !! L = Some a.
Hypothesis Hreg : registry L st l.
Hypothesis Hnd : NoDup l.

Let b := fresh (dom (request_store st)).
Let st3 :=
  update_request (Some (Req_at b)) (with_scope ambient)
    (update_request (Some (Req_at b)) (with_uvreq (Some u))
       (set_uv_store (insert u {| data := Some (Req_at b) |})
          (set_memory pred
             (set_request_store (insert b zeroed_request) st)))).

Lemma begun_fresh : b ∉ l.
Proof.
  intros Hb. destruct (registry_live _ _ _ _ Hreg Hb) as [r Hr].
  pose proof (fresh_request_not_live st) as Hf. fold b in Hf. congruence.
Qed.

Lemma begun_first_not_fresh : next (requests a) <> Some (Req_at b).
Proof.
  pose proof Hreg as (a' & Ha' & Hl). assert (a' = a) by congruence. subst a'.
  pose proof begun_fresh as Hfresh.
  rewrite (linked_first _ _ _ _ Hl). clear Hl. revert Hfresh.
  generalize l. intros [|c l']; [done|].
  intros Hfresh [= Hc]. apply Hfresh. rewrite <- Hc. apply list_elem_of_here.
Qed.

Lemma begun_registry_before : registry L st3 l.
Proof.
  unfold st3.
  apply registry_update; [apply keeps_links_scope|].
  apply registry_update; [apply keeps_links_uvreq|].
  apply registry_frame with st; [done| |done].
  intros x Hx. store_simpl. apply lookup_insert_ne.
  intros <-. by apply begun_fresh.
Qed.

Lemma begun_request_before :
  request_store st3 !! b
  = Some (with_scope ambient (with_uvreq (Some u) zeroed_request)).
Proof. unfold st3. cbn. by rewrite !lookup_alter_eq, lookup_insert_eq. Qed.

Lemma begun_registry : registry L (begun L u ambient st) (b :: l).
Proof.
  unfold begun, suspended. fold b. fold st3.
  apply registry_update; [apply keeps_links_suspended|].
  apply registry_frame with (registered L (Some (Req_at b)) st3); [done|done|].
  eapply registry_registered;
    [apply begun_registry_before | done | apply begun_fresh
    | apply begun_request_before].
Qed.

Lemma begun_self :
  request_store (begun L u ambient st) !! b
  = Some {| next := next (requests a); prev := Some (Requests_of L);
            resume := Some (Captured (captured st));
            local := lh_value_async_local_ptr (Some L);
            scope := ambient; uvreq := Some u;
            resumefun := Some async_resume_default_fun |}.
Proof.
  unfold begun, suspended. fold b. fold st3.
  rewrite request_store_read.
  erewrite read_update_eq.
  2:{ rewrite read_set_captured.
      apply (read_registered_self L a b _ st3 HL begun_request_before).
      apply begun_first_not_fresh. }
  reflexivity.
Qed.

Lemma begun_other x :
  x <> b ->
  request_store (begun L u ambient st) !! x
  = (fun r => if decide (Some (Req_at x) = next (requests a))
              then with_prev (Some (Req_at b)) r else r)
    <$> request_store st !! x.
Proof.
  intros Hx. unfold begun, suspended. fold b. fold st3.
  rewrite request_store_read.
  rewrite read_update_ne by congruence. rewrite read_set_captured.
  unfold registered. replace (local_store st3 !! L) with (Some a) by done.
  rewrite !read_update, !(decide_False (P := Some (Req_at x) = Some (Req_at b)))
    by congruence.
  rewrite (decide_False (P := Some (Req_at x) = Some (Requests_of L))) by done.
  unfold st3. rewrite !read_update_ne by congruence.
  rewrite read_set_uv, read_set_memory. cbn.
  rewrite lookup_insert_ne by congruence.
  destruct (decide (Some (Req_at x) = next (requests a))) as [e|e];
    [rewrite decide_True by done | rewrite decide_False by done];
    by destruct (request_store st !! x).
Qed.

Lemma begun_uv_store :
  uv_store (begun L u ambient st)
  = <[u := {| data := Some (Req_at b) |}]> (uv_store st).
Proof.
  unfold begun, suspended. fold b. fold st3.
  rewrite uv_store_update. store_simpl. rewrite uv_store_registered.
  unfold st3. by rewrite !uv_store_update.
Qed.

Lemma begun_pending_ok :
  pending_ok L st l -> pending_ok L (begun L u ambient st) (b :: l).
Proof.
  intros [_ _ Hsusp Hatt]. split.
  - apply begun_registry.
  - apply NoDup_cons. split; [apply begun_fresh | done].
  - intros x Hx. apply elem_of_cons in Hx as [->|Hx].
    + eexists _, u. split; [apply begun_self|]. simpl. by eauto.
    + destruct (Hsusp x Hx) as (r & u' & Hr & Hu' & Hk & Hf).
      assert (Hxb : x <> b) by (intros ->; by apply begun_fresh).
      rewrite (begun_other x Hxb), Hr. simpl.
      eexists _, u'. split; [done|]. by case_decide.
  - intros u' x' q Hx' Hq. rewrite begun_uv_store in Hx'.
    destruct (decide (u' = u)) as [->|Hne].
    + rewrite lookup_insert_eq in Hx'. injection Hx' as <-. simpl in Hq.
      injection Hq as <-. eexists b, _. split; [done|].
      split; [apply list_elem_of_here|]. split; [apply begun_self | done].
    + rewrite lookup_insert_ne in Hx' by done.
      destruct (Hatt u' x' q Hx' Hq) as (b' & r' & -> & Hb' & Hr' & Hu').
      assert (Hxb : b' <> b) by (intros ->; by apply begun_fresh).
      eexists b', _. split; [done|].
      split; [by apply list_elem_of_further|].
      rewrite (begun_other b' Hxb), Hr'. simpl. split; [done|].
      by case_decide.
Qed.
End Begun.

Lemma memory_registered L req st : memory (registered L req st) = memory st.
Proof.
  unfold registered. destruct (local_store st !! L); [|done].
  by rewrite !memory_update.
Qed.

Lemma memory_begun L u ambient st :
  memory (begun L u ambient st) = pred (memory st).
Proof.
  unfold begun, suspended. rewrite memory_update. store_simpl.
  rewrite memory_registered. by rewrite !memory_update.
Qed.

(** ** Pending requests across a completion *)

Lemma filter_ne_notin (b : block) (l : list block) :
  b ∉ l -> filter (fun x => x <> b) l = l.
Proof.
  induction l as [|a l IH]; intros Hb; [done|].
  apply not_elem_of_cons in Hb as [Hne Hb].
  rewrite filter_cons_True by done. by rewrite IH.
Qed.

Lemma filter_ne_split (b : block) (l1 l2 : list block) :
  NoDup (l1 ++ b :: l2) ->
  filter (fun x => x <> b) (l1 ++ b :: l2) = l1 ++ l2.
Proof.
  intros Hnd. apply NoDup_app in Hnd as (_ & Hdisj & Hnd2).
  apply NoDup_cons in Hnd2 as [Hb2 _].
  rewrite filter_app, filter_cons_False by (intros H; by apply H).
  rewrite !filter_ne_notin; [done | done |].
  intros Hb1. apply (Hdisj b Hb1), list_elem_of_here.
Qed.

Lemma registry_neighbours L st l1 b l2 r :
  registry L st (l1 ++ b :: l2) ->
  NoDup (l1 ++ b :: l2) ->
  request_store st !! b = Some r ->
  neighbours_ok b r st /\ prev r <> None.
Proof.
  intros (a & HL & Hl) Hnd Hb.
  destruct (linked_at _ _ _ _ _ _ Hl) as (rb & Hrb & Hprev & Hl2).
  assert (rb = r) by congruence. subst rb.
  pose proof (linked_first _ _ _ _ Hl2) as Hnext.
  apply NoDup_app in Hnd as (_ & Hdisj & Hnd2).
  apply NoDup_cons in Hnd2 as [Hb2 _].
  assert (Hprev_cases :
    prev r = Some (Requests_of L) \/
    exists y, prev r = Some (Req_at y) /\ y ∈ l1).
  { rewrite Hprev. destruct (last l1) as [y|] eqn:Hlast; [right | by left].
    exists y. split; [done|]. apply last_Some in Hlast as [l' ->].
    apply elem_of_app. right. apply list_elem_of_here. }
  split; [split; [|split; [|split]] |].
  - intros _. destruct Hprev_cases as [-> | (y & -> & Hy)].
    + simpl. rewrite HL. by eexists.
    + apply linked_live with (b := y) in Hl; [done|].
      apply elem_of_app. by left.
  - intros Hne. rewrite Hnext in *. destruct l2 as [|c l2]; [done|].
    apply linked_live with (b := c) in Hl2; [done | apply list_elem_of_here].
  - destruct Hprev_cases as [-> | (y & -> & Hy)]; [done|].
    intros [= ->]. apply (Hdisj b Hy), list_elem_of_here.
  - rewrite Hnext. destruct l2 as [|c l2]; [done|].
    intros [= ->]. apply Hb2, list_elem_of_here.
  - destruct Hprev_cases as [-> | (y & -> & Hy)]; done.
Qed.

Lemma completed_registry L st l1 b l2 u r :
  registry L st (l1 ++ b :: l2) ->
  NoDup (l1 ++ b :: l2) ->
  request_store st !! b = Some r ->
  registry L (completed b u r st) (l1 ++ l2).
Proof.
  intros Hreg Hnd Hb.
  destruct (registry_neighbours _ _ _ _ _ _ Hreg Hnd Hb) as [_ Hprev].
  destruct Hreg as (a & HL & Hl).
  destruct (linked_unlink st (completed b u r st) b r l1 l2 Hb) with
    (p0 := Some (Requests_of L)) (r0 := requests a) as (r0' & Hr0' & _ & Hl').
  - intros q Hq. rewrite read_completed_other by done.
    destruct (prev r); [done | by destruct Hprev].
  - done.
  - intros x _. done.
  - simpl. by rewrite HL.
  - done.
  - simpl in Hr0'. apply fmap_Some in Hr0' as (a' & Ha' & ->).
    by exists a'.
Qed.

Lemma completed_other_payload b u r st x rx :
  x <> b ->
  request_store st !! x = Some rx ->
  exists rx', request_store (completed b u r st) !! x = Some rx' /\
    uvreq rx' = uvreq rx /\ resume rx' = resume rx /\
    resumefun rx' = resumefun rx.
Proof.
  intros Hx Hrx. rewrite request_store_read, read_completed_other by congruence.
  rewrite <- request_store_read, Hrx.
  destruct (prev r); [|by exists rx]. simpl.
  eexists. split; [done|]. by repeat case_decide.
Qed.

Lemma completed_pending_ok L st l b u x r f :
  pending_ok L st l ->
  uv_store st !! u = Some x ->
  data x = Some (Req_at b) ->
  request_store st !! b = Some r ->
  pending_ok L (set_calls f (completed b u r st)) (filter (fun y => y <> b) l).
Proof.
  intros [Hreg Hnd Hsusp Hatt] Hx Hd Hb.
  destruct (Hatt u x _ Hx Hd) as (b' & r' & [= <-] & Hbl & Hr' & Hu).
  assert (r' = r) by congruence. subst r'.
  apply list_elem_of_split in Hbl as (l1 & l2 & ->).
  rewrite filter_ne_split by done.
  assert (Hin : forall y, y ∈ l1 ++ l2 -> y ∈ l1 ++ b :: l2 /\ y <> b).
  { intros y Hy. apply elem_of_app in Hy.
    apply NoDup_app in Hnd as (_ & Hdisj & Hnd2).
    apply NoDup_cons in Hnd2 as [Hb2 _].
    split.
    - apply elem_of_app. destruct Hy; [by left | right].
      by apply list_elem_of_further.
    - intros ->. destruct Hy as [Hy|Hy]; [|done].
      apply (Hdisj b Hy), list_elem_of_here. }
  split.
  - apply registry_frame with (completed b u r st); [done | done |].
    by apply completed_registry.
  - apply NoDup_app in Hnd as (Hnd1 & Hdisj & Hnd2).
    apply NoDup_cons in Hnd2 as [Hb2 Hnd2].
    apply NoDup_app. split; [done|]. split; [|done].
    intros y Hy1 Hy2. apply (Hdisj y Hy1). by apply list_elem_of_further.
  - intros y Hy. destruct (Hin y Hy) as [Hyl Hyb].
    destruct (Hsusp y Hyl) as (ry & uy & Hry & Huy & Hky & Hfy).
    destruct (completed_other_payload b u r st y ry Hyb Hry)
      as (ry' & Hry' & Hu' & Hk' & Hf').
    exists ry', uy. store_simpl. split; [done|]. split; [congruence|].
    split; congruence.
  - intros u' x' q Hx' Hq. store_simpl. rewrite uv_store_completed in Hx'.
    destruct (decide (u' = u)) as [->|Hne].
    { rewrite lookup_insert_eq in Hx'. injection Hx' as <-. done. }
    rewrite lookup_insert_ne in Hx' by done.
    destruct (Hatt u' x' q Hx' Hq) as (y & ry & -> & Hy & Hry & Huy).
    assert (Hyb : y <> b) by (intros ->; congruence).
    destruct (completed_other_payload b u r st y ry Hyb Hry)
      as (ry' & Hry' & Hu' & _).
    exists y, ry'. split; [done|]. split; [|split; [done | congruence]].
    apply elem_of_app. apply elem_of_app in Hy as [Hy|Hy]; [by left | right].
    apply elem_of_cons in Hy as [Hy|Hy]; [done | done].
Qed.

Lemma memory_unlink req r st : memory (unlink_request req r st) = memory st.
Proof.
  unfold unlink_request. destruct (prev r); [|done]. by rewrite !memory_update.
Qed.

Lemma memory_completed b u r st : memory (completed b u r st) = S (memory st).
Proof.
  unfold completed. store_simpl. by rewrite memory_unlink, memory_update.
Qed.

(** ** Sequences of begun awaits and completions *)

Lemma filter_all {A} (P : A -> Prop) `{!forall x, Decision (P x)} (l : list A) :
  (forall x, P x) -> filter P l = l.
Proof.
  intros HP. induction l as [|y l IH]; [done|].
  rewrite filter_cons_True by done. by rewrite IH.
Qed.

Lemma filter_fmap_req (P : request_ref -> Prop) `{!forall x, Decision (P x)}
    (Q : block -> Prop) `{!forall x, Decision (Q x)} (l : list block) :
  (forall y, P (Req_at y) <-> Q y) ->
  filter P (Req_at <$> l) = Req_at <$> filter Q l.
Proof.
  intros HPQ. induction l as [|y l IH]; [done|]. rewrite fmap_cons.
  destruct (decide (Q y)) as [HQ|HQ].
  - rewrite filter_cons_True by (by apply HPQ).
    rewrite (filter_cons_True Q) by done. by rewrite fmap_cons, IH.
  - rewrite filter_cons_False by (by rewrite HPQ).
    by rewrite (filter_cons_False Q) by done.
Qed.

Lemma registry_first_live L st l a :
  registry L st l ->
  local_store st !! L = Some a ->
  next (requests a) <> None -> is_Some (read_request (next (requests a)) st).
Proof.
  intros (a' & Ha' & Hl) HL Hne. assert (a' = a) by congruence. subst a'.
  rewrite (linked_first _ _ _ _ Hl) in *. destruct l as [|c l]; [done|].
  apply linked_live with (b := c) in Hl; [done | apply list_elem_of_here].
Qed.

(** One begun await under the root handler. *)
Lemma begin_await_step L ambient outer st l u n :
  pending_ok L st l ->
  is_Some (uv_store st !! u) ->
  memory st = S n ->
  let b := fresh (dom (request_store st)) in
  asyncx_await (under_root L ambient outer) (Some u) st
    = Exited 1 lh_value_null (begun L u ambient st)
  /\ attached u (begun L u ambient st) = Some (Req_at b)
  /\ pending_ok L (begun L u ambient st) (b :: l).
Proof.
  intros Hok [x Hx] Hm b.
  pose proof (pending_registry _ _ _ Hok) as Hreg.
  pose proof Hreg as (a & HL & _).
  split; [|split].
  - apply asyncx_await_run with x a n; try done.
    by apply registry_first_live with L l.
  - unfold attached. rewrite (begun_uv_store L u ambient st).
    by rewrite lookup_insert_eq.
  - apply begun_pending_ok with a; try done. apply (pending_nodup _ _ _ Hok).
Qed.

(** One completion. *)
Lemma complete_operation_step L st l u err :
  pending_ok L st l ->
  is_Some (uv_store st !! u) ->
  exists st',
    async_req_resume (Some u) err st = Done tt st'
    /\ pending_ok L st' (filter (fun y => Some (Req_at y) <> attached u st) l)
    /\ (memory st <= memory st')%nat
    /\ (forall u', is_Some (uv_store st !! u') -> is_Some (uv_store st' !! u')).
Proof.
  intros Hok [x Hx]. unfold attached. rewrite Hx.
  destruct (data x) as [q|] eqn:Hd.
  - destruct (pending_attached _ _ _ Hok u x q Hx Hd)
      as (b & r & -> & Hbl & Hr & Hu).
    destruct (pending_suspended _ _ _ Hok b Hbl)
      as (r' & u' & Hr' & _ & _ & [f Hf]).
    assert (r' = r) by congruence. subst r'.
    pose proof Hbl as Hsplit. apply list_elem_of_split in Hsplit as (l1 & l2 & ->).
    destruct (registry_neighbours L st l1 b l2 r) as [Hn _];
      [apply (pending_registry _ _ _ Hok) | apply (pending_nodup _ _ _ Hok)
      | done |].
    eexists. split; [by eapply async_req_resume_run|].
    split; [|split].
    + erewrite list_filter_iff.
      * by eapply completed_pending_ok.
      * intros y. split; congruence.
    + store_simpl. rewrite memory_completed. lia.
    + intros u0 Hu0. store_simpl. rewrite uv_store_completed.
      rewrite lookup_insert_is_Some. destruct (decide (u = u0)); auto.
  - exists st. split; [by eapply async_req_resume_noop|].
    split; [|split; [lia | done]].
    by rewrite filter_all.
Qed.

(** A completion that finds a request attached. *)
Lemma complete_attached_step L st l u x b err :
  pending_ok L st l ->
  uv_store st !! u = Some x ->
  data x = Some (Req_at b) ->
  exists r f,
    request_store st !! b = Some r /\ resumefun r = Some f /\
    async_req_resume (Some u) err st
    = Done tt
        (set_calls (fun t => t ++ strategy_calls f (resume r) (local r) u err)
           (completed b u r st))
    /\ pending_ok L
         (set_calls (fun t => t ++ strategy_calls f (resume r) (local r) u err)
            (completed b u r st))
         (filter (fun y => y <> b) l).
Proof.
  intros Hok Hx Hd.
  destruct (pending_attached _ _ _ Hok u x _ Hx Hd)
    as (b' & r & [= <-] & Hbl & Hr & Hu).
  destruct (pending_suspended _ _ _ Hok b Hbl)
    as (r' & u' & Hr' & _ & _ & [f Hf]).
  assert (r' = r) by congruence. subst r'.
  pose proof Hbl as Hsplit. apply list_elem_of_split in Hsplit as (l1 & l2 & ->).
  destruct (registry_neighbours L st l1 b l2 r) as [Hn _];
    [apply (pending_registry _ _ _ Hok) | apply (pending_nodup _ _ _ Hok)
    | done |].
  exists r, f. split; [done|]. split; [done|].
  split; [by eapply async_req_resume_run | by eapply completed_pending_ok].
Qed.

Lemma run_calls_pending L ambient outer cs :
  forall st l,
  pending_ok L st l ->
  Forall (fun c => is_Some (uv_store st !! call_operation c)) cs ->
  (begins cs <= memory st)%nat ->
  exists st' l',
    run_calls (under_root L ambient outer) cs (Req_at <$> l) st
      = Done (Req_at <$> l') st'
    /\ pending_ok L st' l'.
Proof.
  induction cs as [|c cs IH]; intros st l Hok Hops Hmem.
  - by exists st, l.
  - apply Forall_cons in Hops as [Hop Hops]. destruct c as [u|u err].
    + simpl in Hmem, Hop. destruct (memory st) as [|n] eqn:Hm; [lia|].
      destruct (begin_await_step L ambient outer st l u n Hok Hop Hm)
        as (Hrun & Hatt & Hok').
      cbn [run_calls]. rewrite Hrun, Hatt.
      apply (IH _ (fresh (dom (request_store st)) :: l) Hok').
      * eapply Forall_impl; [exact Hops|]. intros c Hc. simpl in Hc.
        pose proof (pending_registry _ _ _ Hok) as (a & HL & _).
        rewrite (begun_uv_store L u ambient st).
        rewrite lookup_insert_is_Some.
        destruct (decide (u = call_operation c)); auto.
      * rewrite memory_begun, Hm. simpl. lia.
    + simpl in Hmem, Hop.
      destruct (complete_operation_step L st l u err Hok Hop)
        as (st' & Hrun & Hok' & Hmem' & Huv).
      cbn [run_calls]. rewrite Hrun.
      rewrite (filter_fmap_req _
                 (fun y => Some (Req_at y) <> attached u st)) by done.
      apply (IH _ _ Hok').
      * eapply Forall_impl; [exact Hops|]. intros c Hc. by apply Huv.
      * lia.
Qed.

(** The scenario of two awaits: begin A, begin B, complete B, complete A. *)
Lemma two_awaits_scenario L ambient outer st A B eA eB n :
  pending_ok L st [] ->
  A <> B ->
  is_Some (uv_store st !! A) ->
  is_Some (uv_store st !! B) ->
  memory st = S (S n) ->
  exists (a b : block) (kB : resume_ref) (st2 st3 st4 : state),
    run_calls (under_root L ambient outer) [BeginAwait A; BeginAwait B] [] st
      = Done [Req_at b; Req_at a] st2
    /\ attached A st2 = Some (Req_at a) /\ attached B st2 = Some (Req_at b)
    /\ registry L st2 [b; a]
    /\ run_calls (under_root L ambient outer) [CompleteOperation B eB]
         [Req_at b; Req_at a] st2 = Done [Req_at a] st3
    /\ calls st3
       = calls st2 ++ [Lh_release_resume kB (lh_value_async_local_ptr (Some L))
                         (lh_value_int eB)]
    /\ registry L st3 [a]
    /\ run_calls (under_root L ambient outer) [CompleteOperation A eA]
         [Req_at a] st3 = Done [] st4
    /\ registry L st4 [].
Proof.
  intros Hok HAB HA HB Hm.
  set (a := fresh (dom (request_store st))).
  set (st1 := begun L A ambient st).
  destruct (begin_await_step L ambient outer st [] A (S n) Hok HA Hm)
    as (Hrun1 & Hatt1 & Hok1). fold a st1 in Hrun1, Hatt1, Hok1.
  set (b := fresh (dom (request_store st1))).
  set (st2 := begun L B ambient st1).
  assert (Hm1 : memory st1 = S n).
  { unfold st1. by rewrite memory_begun, Hm. }
  assert (HB1 : is_Some (uv_store st1 !! B)).
  { unfold st1. rewrite (begun_uv_store L A ambient st), lookup_insert_is_Some.
    by right. }
  destruct (begin_await_step L ambient outer st1 [a] B n Hok1 HB1 Hm1)
    as (Hrun2 & Hatt2 & Hok2). fold b st2 in Hrun2, Hatt2, Hok2.
  assert (Hab : a <> b).
  { pose proof (pending_nodup _ _ _ Hok2) as Hnd.
    apply NoDup_cons in Hnd as [Hnotin _]. intros ->.
    apply Hnotin, list_elem_of_here. }
  assert (HattA2 : attached A st2 = Some (Req_at a)).
  { unfold attached, st2. rewrite (begun_uv_store L B ambient st1).
    rewrite lookup_insert_ne by congruence. exact Hatt1. }
  (* complete B *)
  pose proof (pending_registry _ _ _ Hok1) as (a1 & HL1 & _).
  assert (HxB : uv_store st2 !! B = Some {| data := Some (Req_at b) |}).
  { unfold st2. rewrite (begun_uv_store L B ambient st1).
    by rewrite lookup_insert_eq. }
  destruct (complete_attached_step L st2 [b; a] B _ b eB Hok2 HxB eq_refl)
    as (rB & fB & HrB & HfB & Hrun3 & Hok3).
  pose proof (begun_self L B ambient st1 a1 [a] HL1
                (pending_registry _ _ _ Hok1)) as Hself.
  fold b st2 in Hself. rewrite Hself in HrB.
  injection HrB as <-. simpl in HfB. injection HfB as <-.
  cbn [resume local strategy_calls] in Hrun3, Hok3.
  set (st3 := set_calls _ (completed b B _ st2)) in Hrun3, Hok3.
  assert (Hfilter3 : filter (fun y => y <> b) [b; a] = [a]).
  { rewrite filter_cons_False by (intros H; by apply H).
    rewrite filter_cons_True by done. done. }
  rewrite Hfilter3 in Hok3.
  (* complete A *)
  assert (HxA : exists xA, uv_store st3 !! A = Some xA /\ data xA = Some (Req_at a)).
  { unfold st3. store_simpl. rewrite uv_store_completed.
    rewrite lookup_insert_ne by congruence.
    unfold attached in HattA2. destruct (uv_store st2 !! A) as [xA|]; [|done].
    by exists xA. }
  destruct HxA as (xA & HxA & HdA).
  destruct (complete_attached_step L st3 [a] A xA a eA Hok3 HxA HdA)
    as (rA & fA & HrA & HfA & Hrun4 & Hok4).
  assert (Hfilter4 : filter (fun y => y <> a) [a] = []).
  { by rewrite filter_cons_False by (intros H; by apply H). }
  rewrite Hfilter4 in Hok4.
  eexists a, b, _, st2, st3, _. split_and!.
  - cbn [run_calls]. rewrite Hrun1. fold st1. rewrite Hatt1.
    cbn [option_list app]. rewrite Hrun2. fold st2. by rewrite Hatt2.
  - exact HattA2.
  - exact Hatt2.
  - apply (pending_registry _ _ _ Hok2).
  - cbn [run_calls]. rewrite Hrun3. rewrite Hatt2.
    rewrite filter_cons_False by (intros H; by apply H).
    rewrite filter_cons_True by congruence. done.
  - unfold st3. store_simpl. by rewrite calls_completed.
  - apply (pending_registry _ _ _ Hok3).
  - cbn [run_calls]. rewrite Hrun4.
    unfold attached. rewrite HxA, HdA.
    by rewrite filter_cons_False by (intros H; by apply H).
  - apply (pending_registry _ _ _ Hok4).
Qed.

(** ** How the operation functions end *)

Lemma returns_only_ret {A} (P : A -> Prop) a : P a -> returns_only P (ret a).
Proof. intros H st. exact H. Qed.

Lemma returns_only_bind {A B} (P : B -> Prop) (m : exec A) (k : A -> exec B) :
  returns_only (fun _ => True) m ->
  (forall a, returns_only P (k a)) ->
  returns_only P (x <- m ;; k x).
Proof.
  intros Hm Hk st. unfold bind. specialize (Hm st).
  destruct (m st) as [a st'| | | | |]; try done. apply Hk.
Qed.

Lemma returns_only_defined {A} (o : option A) : returns_only (fun _ => True) (defined o).
Proof. intros st. by destruct o. Qed.

Lemma returns_only_assert c : returns_only (fun _ => True) (assert c).
Proof. intros st. by destruct c. Qed.

Lemma returns_only_load_request p : returns_only (fun _ => True) (load_request p).
Proof. intros st. unfold load_request. by destruct (read_request p st). Qed.

Lemma returns_only_field {A} p (f : async_request_t -> A) :
  returns_only (fun _ => True) (field p f).
Proof.
  apply returns_only_bind; [apply returns_only_load_request|].
  intros r. by apply returns_only_ret.
Qed.

Lemma returns_only_assign p upd : returns_only (fun _ => True) (assign p upd).
Proof.
  apply returns_only_bind; [apply returns_only_load_request|].
  intros r st. unfold store_request. by destruct (read_request p st).
Qed.

Lemma returns_only_when c body :
  returns_only (fun _ => True) body -> returns_only (fun _ => True) (when c body).
Proof. intros H. destruct c; [exact H | by apply returns_only_ret]. Qed.

Lemma returns_only_load_uv u : returns_only (fun _ => True) (load_uv u).
Proof.
  intros st. unfold load_uv. destruct u as [b|]; [|done].
  by destruct (uv_store st !! b).
Qed.

Lemma returns_only_load_local l : returns_only (fun _ => True) (load_local l).
Proof.
  intros st. unfold load_local. destruct l as [b|]; [|done].
  by destruct (local_store st !! b).
Qed.

Ltac returns_only_steps :=
  repeat first
    [ apply returns_only_bind;
      [ first [ apply returns_only_defined | apply returns_only_assert
              | apply returns_only_field | apply returns_only_assign
              | apply returns_only_load_uv | apply returns_only_load_local
              | apply returns_only_when; apply returns_only_assign ]
      | intros ? ]
    | by apply returns_only_ret ].

Lemma async_req_register_tail_resumes lh_yield r localv arg :
  returns_only (fun res => res = Op_tail_resumed r localv lh_value_null)
    (_async_req_register lh_yield r localv arg).
Proof. unfold _async_req_register, lh_tail_resume. returns_only_steps. Qed.

Lemma async_uv_loop_tail_resumes lh_yield r localv arg :
  returns_only (fun res => exists v, res = Op_tail_resumed r localv v)
    (_async_uv_loop lh_yield r localv arg).
Proof.
  unfold _async_uv_loop, lh_tail_resume. returns_only_steps.
  apply returns_only_ret. by eexists.
Qed.

Lemma async_req_await_returns lh_yield r localv arg :
  returns_only (fun res => res = Op_returned lh_value_null)
    (_async_req_await lh_yield r localv arg).
Proof. unfold _async_req_await. returns_only_steps. Qed.

Lemma channel_async_req_await_returns lh_yield r localv arg :
  returns_only (fun res => res = Op_returned lh_value_null)
    (_channel_async_req_await lh_yield r localv arg).
Proof. unfold _channel_async_req_await. returns_only_steps. Qed.

(** A yield that the root handler answers with a tail-resuming operation
    never suspends. *)
Lemma root_tail_op_never_suspends localv outer tag arg f st :
  find_operation _async_ops tag = Some (LH_OP_TAIL_NOOP, f) ->
  returns_only (fun res => exists r l v, res = Op_tail_resumed r l v)
    (f no_yield (Some Tail_resumption) localv arg) ->
  match with_handler _async_def localv outer tag arg st with
  | Exited _ _ _ => False
  | _ => True
  end.
Proof.
  intros Hop Hf. unfold with_handler.
  assert (Heff : effect tag = lh_names_effect_async).
  { revert Hop. unfold _async_ops, find_operation. cbn [opkind optag opfun].
    repeat (rewrite (bool_decide_eq_false_2 (_ = LH_OP_NULL)) by done).
    repeat (case_bool_decide;
            [match goal with H : Some _ = Some tag |- _ => injection H as <- end;
             intros _; reflexivity|]).
    rewrite (bool_decide_eq_true_2 (LH_OP_NULL = LH_OP_NULL)) by done.
    cbn iota. intros Hnone. discriminate Hnone. }
  rewrite bool_decide_eq_true_2 by (by rewrite Heff).
  cbn [operations _async_def]. rewrite Hop. cbn [capture ret].
  rewrite bool_decide_eq_true_2 by done.
  specialize (Hf st).
  destruct (f no_yield (Some Tail_resumption) localv arg st)
    as [[v|r l v] st'| | | | |]; try done.
  by destruct Hf as (? & ? & ? & ?).
Qed.

(** ** Installing and releasing the root handler *)

Lemma async_handler_installs outer loop_ action arg st n :
  memory st = S n ->
  async_handler outer loop_ action arg st
  = lh_handle outer _async_def
      (lh_value_async_local_ptr (Some (fresh (dom (local_store st))))) action arg
      (set_memory pred
         (set_local_store
            (insert (fresh (dom (local_store st)))
               {| loop := loop_; requests := zeroed_request |}) st)).
Proof.
  intros Hm. unfold async_handler.
  set (L := fresh (dom (local_store st))).
  rewrite bind_done with (a := Some L)
    (st' := set_memory pred
              (set_local_store
                 (insert L {| loop := None; requests := zeroed_request |}) st)).
  2:{ unfold calloc_async_local. rewrite Hm. fold L.
      unfold set_memory. store_simpl. by rewrite Hm. }
  rewrite bool_decide_eq_false_2 by done.
  rewrite bind_done with (a := tt)
    (st' := set_memory pred
              (set_local_store
                 (insert L {| loop := loop_; requests := zeroed_request |}) st)).
  2:{ unfold assign_loop, bind, load_local. store_simpl.
      rewrite lookup_insert_eq. unfold modify, set_local_store. store_simpl.
      by rewrite insert_insert_eq. }
  cbn [requests_of].
  erewrite bind_done
    by (eapply assign_run; cbn; rewrite lookup_insert_eq; reflexivity).
  erewrite bind_done
    by (eapply assign_run; cbn; rewrite lookup_alter_eq, lookup_insert_eq;
        reflexivity).
  f_equal. unfold update_request, set_local_store, set_memory. store_simpl.
  f_equal. rewrite !alter_insert_eq. reflexivity.
Qed.

Lemma async_release_empty L st :
  registry L st [] ->
  _async_release (lh_value_async_local_ptr (Some L)) st
  = Done tt (set_memory S (set_local_store (delete L) st)).
Proof.
  intros (a & HL & Hl). simpl in Hl. unfold _async_release.
  cbn [lh_value_async_local_ptr lh_async_local_ptr_value defined].
  erewrite bind_done by apply ret_run.
  rewrite bool_decide_eq_true_2 by done.
  erewrite bind_done by apply assert_true_run.
  erewrite bind_done by (eapply field_run; simpl; by rewrite HL).
  rewrite Hl, bool_decide_eq_true_2 by done.
  erewrite bind_done by apply assert_true_run.
  unfold free_local. by rewrite HL.
Qed.

Lemma async_release_pending L st b l :
  registry L st (b :: l) ->
  _async_release (lh_value_async_local_ptr (Some L)) st = Aborted st.
Proof.
  intros (a & HL & Hl). destruct Hl as (Hfirst & _). unfold _async_release.
  cbn [lh_value_async_local_ptr lh_async_local_ptr_value defined].
  erewrite bind_done by apply ret_run.
  rewrite bool_decide_eq_true_2 by done.
  erewrite bind_done by apply assert_true_run.
  erewrite bind_done by (eapply field_run; simpl; by rewrite HL).
  rewrite Hfirst, bool_decide_eq_false_2 by done.
  reflexivity.
Qed.

Lemma yield_uv_loop_root L a outer arg st :
  local_store st !! L = Some a ->
  with_handler _async_def (lh_value_async_local_ptr (Some L)) outer
    lh_op_async_uv_loop arg st
  = Done (lh_value_uv_loop_ptr (loop a)) st.
Proof.
  intros HL.
  apply (with_handler_tail _async_def _ outer _ _ st LH_OP_TAIL_NOOP
           _async_uv_loop (Some Tail_resumption)
           (lh_value_async_local_ptr (Some L)));
    [reflexivity | reflexivity | by right |].
  unfold _async_uv_loop.
  cbn [lh_value_async_local_ptr lh_async_local_ptr_value defined].
  erewrite bind_done by apply ret_run.
  erewrite bind_done by (unfold load_local; by rewrite HL).
  reflexivity.
Qed.

Lemma uv_loop_ptr_roundtrip l :
  lh_uv_loop_ptr_value (lh_value_uv_loop_ptr l) = Some l.
Proof. by destruct l. Qed.

Lemma state_restored st L x n :
  local_store st !! L = None ->
  memory st = S n ->
  set_memory S
    (set_local_store (delete L)
       (set_memory pred (set_local_store (insert L x) st))) = st.
Proof.
  intros HL Hm. destruct st. unfold set_memory, set_local_store. simpl in *.
  subst. f_equal. by apply delete_insert_id.
Qed.

Lemma async_handler_ask_loop outer loop_ arg st n :
  memory st = S n ->
  async_handler outer loop_ ask_loop arg st
  = Done (lh_value_uv_loop_ptr loop_) st.
Proof.
  intros Hm. rewrite (async_handler_installs _ _ _ _ _ n Hm).
  set (L := fresh (dom (local_store st))).
  set (st1 := set_memory pred _).
  assert (HL : local_store st1 !! L
               = Some {| loop := loop_; requests := zeroed_request |}).
  { unfold st1. store_simpl. by rewrite lookup_insert_eq. }
  unfold lh_handle, ask_loop, async_loop, async_uv_loop.
  erewrite bind_done.
  2:{ erewrite bind_done by (by apply yield_uv_loop_root).
      rewrite uv_loop_ptr_roundtrip. reflexivity. }
  cbn [ret loop resultfun _async_def].
  erewrite bind_done by apply ret_run.
  unfold release_local. cbn [local_release _async_def].
  erewrite bind_done.
  2:{ apply async_release_empty. exists {| loop := loop_; requests := zeroed_request |}.
      by split. }
  unfold ret, st1. f_equal. apply state_restored with n; [|done].
  apply not_elem_of_dom, is_fresh.
Qed.

(** ** The channel adapter *)

Lemma find_async_uv_loop :
  find_operation _async_ops lh_op_async_uv_loop
  = Some (LH_OP_TAIL_NOOP, _async_uv_loop).
Proof. reflexivity. Qed.

Lemma find_async_req_register :
  find_operation _async_ops lh_op_async_req_register
  = Some (LH_OP_TAIL_NOOP, _async_req_register).
Proof. reflexivity. Qed.

Lemma find_async_req_await :
  find_operation _async_ops lh_op_async_req_await
  = Some (LH_OP_GENERAL, _async_req_await).
Proof. reflexivity. Qed.

Lemma find_channel_uv_loop :
  find_operation _channel_async_ops lh_op_async_uv_loop
  = Some (LH_OP_TAIL, _channel_async_uv_loop).
Proof. reflexivity. Qed.

Lemma find_channel_req_register :
  find_operation _channel_async_ops lh_op_async_req_register
  = Some (LH_OP_TAIL, _channel_async_req_register).
Proof. reflexivity. Qed.

(** What the root handler answers to the loop query, in every state. *)
Lemma root_uv_loop_answer lv outer arg st :
  with_handler _async_def lv outer lh_op_async_uv_loop arg st
  = match lh_async_local_ptr_value lv with
    | Some (Some L) =>
        match local_store st !! L with
        | Some a => Done (lh_value_uv_loop_ptr (loop a)) st
        | None => Fault
        end
    | _ => Fault
    end.
Proof.
  unfold with_handler. rewrite bool_decide_eq_true_2 by reflexivity.
  cbn [operations _async_def]. rewrite find_async_uv_loop.
  cbn [capture ret]. rewrite bool_decide_eq_true_2 by done.
  unfold _async_uv_loop, bind, defined, load_local, lh_tail_resume, ret, fault.
  destruct (lh_async_local_ptr_value lv) as [[L|]|]; try done.
  by destruct (local_store st !! L).
Qed.

Lemma channel_uv_loop_pass_through cl lv outer arg st :
  with_handler _channel_async_hdef cl (with_handler _async_def lv outer)
    lh_op_async_uv_loop arg st
  = with_handler _async_def lv outer lh_op_async_uv_loop arg st.
Proof.
  unfold with_handler at 1. rewrite bool_decide_eq_true_2 by reflexivity.
  cbn [operations _channel_async_hdef]. rewrite find_channel_uv_loop.
  cbn [capture ret]. rewrite bool_decide_eq_false_2 by done.
  unfold _channel_async_uv_loop, async_loop, async_uv_loop, bind.
  rewrite !root_uv_loop_answer.
  destruct (lh_async_local_ptr_value lv) as [[L|]|]; try done.
  destruct (local_store st !! L) as [a|]; [|done].
  by rewrite uv_loop_ptr_roundtrip.
Qed.

Lemma async_request_ptr_value_inv arg req :
  lh_async_request_ptr_value arg = Some req ->
  lh_value_async_request_ptr req = arg.
Proof.
  destruct arg as [n|[q|b|b|b]]; simpl; try done.
  - destruct n; [|done..]. by intros [= <-].
  - by intros [= <-].
Qed.

Lemma async_req_register_ill_typed lh_yield r lv arg st :
  lh_async_request_ptr_value arg = None ->
  _async_req_register lh_yield r lv arg st = Fault.
Proof.
  intros H. unfold _async_req_register, bind. rewrite H.
  by destruct (lh_async_local_ptr_value lv).
Qed.

Lemma channel_req_register_pass_through cl lv outer arg st :
  with_handler _channel_async_hdef cl (with_handler _async_def lv outer)
    lh_op_async_req_register arg st
  = with_handler _async_def lv outer lh_op_async_req_register arg st.
Proof.
  unfold with_handler at 1. rewrite bool_decide_eq_true_2 by reflexivity.
  cbn [operations _channel_async_hdef]. rewrite find_channel_req_register.
  cbn [capture ret]. rewrite bool_decide_eq_false_2 by done.
  unfold _channel_async_req_register, async_req_register.
  destruct (lh_async_request_ptr_value arg) as [req|] eqn:Harg.
  - cbn [defined]. rewrite (bind_done _ _ st req st) by reflexivity.
    rewrite (async_request_ptr_value_inv _ _ Harg).
    unfold with_handler. rewrite bool_decide_eq_true_2 by reflexivity.
    cbn [operations _async_def]. rewrite find_async_req_register.
    cbn [capture ret]. rewrite bool_decide_eq_true_2 by done.
    pose proof (async_req_register_tail_resumes no_yield
                  (Some Tail_resumption) lv arg st) as Ho.
    unfold bind.
    destruct (_async_req_register no_yield (Some Tail_resumption) lv arg st)
      as [res st'| | | | |]; try done.
    subst res. reflexivity.
  - cbn [defined]. unfold bind at 1. unfold fault at 1.
    unfold with_handler. rewrite bool_decide_eq_true_2 by reflexivity.
    cbn [operations _async_def]. rewrite find_async_req_register.
    cbn [capture ret]. rewrite bool_decide_eq_true_2 by done.
    by rewrite async_req_register_ill_typed.
Qed.

(** ** The claims *)

(** C1. Completing an operation twice resumes its continuation once.  For an
    operation [u] with the request at [b] attached (record [r], strategy
    [f]), the first [async_req_resume] invokes the strategy with the
    continuation, carrier value and strategy captured from [r], in the state
    [completed b u r st] where the back-reference is cleared and the request
    is unlinked and freed; it makes exactly the calls of the strategy (one
    [lh_release_resume] of the continuation for the default strategy).  In
    the state it leaves, the operation has nothing attached, and a second
    [async_req_resume] on it returns the state unchanged. *)
Theorem completing_twice_resumes_once (st : state) (u b : block)
    (x : uv_req_t) (r : async_request_t) (f : async_resume_fun)
    (k : resume_ref) (err err' : Z) :
  uv_store st !! u = Some x ->
  data x = Some (Req_at b) ->
  request_store st !! b = Some r ->
  uvreq r = Some u ->
  resumefun r = Some f ->
  resume r = Some k ->
  neighbours_ok b r st ->
  let st1 := completed b u r st in
  let st2 :=
    set_calls (fun t => t ++ strategy_calls f (Some k) (local r) u err) st1 in
  async_req_resume (Some u) err st
    = call_resumefun (Some f) (Some k) (local r) (Some u) err st1
  /\ async_req_resume (Some u) err st = Done tt st2
  /\ attached u st1 = None
  /\ request_store st1 !! b = None
  /\ calls st2 = calls st ++ strategy_calls f (Some k) (local r) u err
  /\ strategy_calls async_resume_default_fun (Some k) (local r) u err
     = [Lh_release_resume k (local r) (lh_value_int err)]
  /\ async_req_resume (Some u) err' st2 = Done tt st2
  /\ (async_req_resume (Some u) err ;;; async_req_resume (Some u) err') st
     = Done tt st2.
Proof.
  intros Hx Hd Hb Hu Hf Hk Hn st1 st2.
  assert (Hrun : async_req_resume (Some u) err st = Done tt st2).
  { unfold st2, st1. rewrite <- Hk. by eapply async_req_resume_run. }
  assert (Huv : uv_store st2 !! u = Some {| data := None |}).
  { unfold st2, st1. store_simpl. rewrite uv_store_completed.
    by rewrite lookup_insert_eq. }
  assert (Hagain : async_req_resume (Some u) err' st2 = Done tt st2).
  { by eapply async_req_resume_noop. }
  split_and!.
  - rewrite Hrun. symmetry. apply call_resumefun_run.
  - exact Hrun.
  - unfold attached, st1. rewrite uv_store_completed.
    by rewrite lookup_insert_eq.
  - apply request_store_completed.
  - unfold st2, st1. store_simpl. by rewrite calls_completed.
  - reflexivity.
  - exact Hagain.
  - by rewrite (bind_done _ _ st tt st2).
Qed.

(** C2. Under one root async handler the registry is the list of the
    requests begun and not yet completed, most recent first.  From any state
    whose pending requests [l] are in order ([pending_ok]), every sequence
    of begun awaits and completions runs to its end and leaves the book of
    requests begun and not completed as the registry of the handler: the
    chain from the head's [next] field, with every [prev] pointing back.
    In particular, from an empty registry: after beginning awaits on A then
    B the registry is [B; A]; completing B resumes B's continuation with its
    status and leaves [A]; completing A leaves the registry empty. *)
Theorem registry_reflects_pending (L : block) (ambient : cancel_scope_ptr)
    (outer : yielder) :
  (forall (cs : list call) (st : state) (l : list block),
     pending_ok L st l ->
     Forall (fun c => is_Some (uv_store st !! call_operation c)) cs ->
     (begins cs <= memory st)%nat ->
     exists st' l',
       run_calls (under_root L ambient outer) cs (Req_at <$> l) st
         = Done (Req_at <$> l') st'
       /\ pending_ok L st' l')
  /\
  (forall (st : state) (A B : block) (eA eB : Z) (n : nat),
     pending_ok L st [] ->
     A <> B ->
     is_Some (uv_store st !! A) ->
     is_Some (uv_store st !! B) ->
     memory st = S (S n) ->
     exists (a b : block) (kB : resume_ref) (st2 st3 st4 : state),
       run_calls (under_root L ambient outer) [BeginAwait A; BeginAwait B] [] st
         = Done [Req_at b; Req_at a] st2
       /\ attached A st2 = Some (Req_at a) /\ attached B st2 = Some (Req_at b)
       /\ registry L st2 [b; a]
       /\ run_calls (under_root L ambient outer) [CompleteOperation B eB]
            [Req_at b; Req_at a] st2 = Done [Req_at a] st3
       /\ calls st3
          = calls st2 ++ [Lh_release_resume kB (lh_value_async_local_ptr (Some L))
                            (lh_value_int eB)]
       /\ registry L st3 [a]
       /\ run_calls (under_root L ambient outer) [CompleteOperation A eA]
            [Req_at a] st3 = Done [] st4
       /\ registry L st4 []).
Proof.
  split.
  - intros cs. apply run_calls_pending.
  - intros st A B eA eB n. apply two_awaits_scenario.
Qed.

(** C4. When the body of a root async handler completes, normally or with
    a failure, the release of the handler-local state runs and asserts that
    the registry is empty: with no pending request the local state is freed
    and the completion goes through; with one or more pending requests the
    assertion fails and the run aborts. *)
Theorem release_asserts_empty_registry (L : block) (outer : yielder)
    (body : lh_actionfun) (arg : lh_value) (st st' : state) (l : list block)
    (completion : lh_value + lh_exception) :
  registry L st' l ->
  body (with_handler _async_def (lh_value_async_local_ptr (Some L)) outer) arg st
    = match completion with
      | inl v => Done v st'
      | inr e => Thrown e st'
      end ->
  let freed := set_memory S (set_local_store (delete L) st') in
  _async_release (lh_value_async_local_ptr (Some L)) st'
    = match l with
      | [] => Done tt freed
      | _ :: _ => Aborted st'
      end
  /\ lh_handle outer _async_def (lh_value_async_local_ptr (Some L)) body arg st
     = match l with
       | [] => match completion with
               | inl v => Done v freed
               | inr e => Thrown e freed
               end
       | _ :: _ => Aborted st'
       end.
Proof.
  intros Hreg Hbody freed.
  assert (Hrel : _async_release (lh_value_async_local_ptr (Some L)) st'
                 = match l with [] => Done tt freed | _ :: _ => Aborted st' end).
  { destruct l as [|b l]; [by apply async_release_empty
                          | by eapply async_release_pending]. }
  split; [exact Hrel|].
  unfold lh_handle. rewrite Hbody.
  destruct completion as [v|e]; cbn [resultfun _async_def].
  - erewrite bind_done by apply ret_run.
    unfold release_local, bind. cbn [local_release _async_def]. rewrite Hrel.
    by destruct l.
  - unfold release_local, bind. cbn [local_release _async_def]. rewrite Hrel.
    by destruct l.
Qed.

Lemma int_of_long_id i : int_range i -> int_of_long i = i.
Proof.
  unfold int_range, int_of_long. intros H.
  rewrite Z.mod_small by lia. lia.
Qed.

(** C5. [asyncx_await] hands back the status code with which its await is
    resumed, unchanged and without throwing, negative codes included; the
    wrapper [async_await] (through [check_uv_err]) throws exactly when the
    code is negative, and the exception carries the code and libuv's
    [uv_strerror] text for it. *)
Theorem await_returns_status_wrapper_throws (uv_strerror : Z -> string)
    (lh_yield : yielder) (u : uv_req_ptr) (req : async_request_ptr)
    (err : Z) (st st1 st2 : state) :
  int_range err ->
  async_request_alloc lh_yield u st = Done req st1 ->
  lh_yield lh_op_async_req_await (lh_value_async_request_ptr req) st1
    = Done (lh_value_int err) st2 ->
  asyncx_await lh_yield u st = Done err st2
  /\ check_uv_err uv_strerror err st2
     = (if err <? 0
        then Thrown {| code := err; msg := uv_strerror err |} st2
        else Done tt st2)
  /\ async_await uv_strerror lh_yield u st
     = (if err <? 0
        then Thrown {| code := err; msg := uv_strerror err |} st2
        else Done tt st2)
  /\ ((exists e st', async_await uv_strerror lh_yield u st = Thrown e st')
      <-> err < 0).
Proof.
  intros Hrange Halloc Hyield.
  assert (Hawait : asyncx_await lh_yield u st = Done err st2).
  { unfold asyncx_await. erewrite bind_done by exact Halloc.
    unfold async_req_await. erewrite bind_done by exact Hyield.
    cbn [lh_value_int lh_int_value defined]. by rewrite int_of_long_id. }
  assert (Hcheck : check_uv_err uv_strerror err st2
                   = (if err <? 0
                      then Thrown {| code := err; msg := uv_strerror err |} st2
                      else Done tt st2)).
  { unfold check_uv_err. by destruct (err <? 0). }
  assert (Hwrap : async_await uv_strerror lh_yield u st
                  = (if err <? 0
                     then Thrown {| code := err; msg := uv_strerror err |} st2
                     else Done tt st2)).
  { unfold async_await. erewrite bind_done by exact Hawait. exact Hcheck. }
  split_and!; [done..|].
  rewrite Hwrap. destruct (Z.ltb_spec err 0) as [Hneg|Hpos].
  - split; [done | by eauto].
  - split; [by intros (e & st' & H) | lia].
Qed.

(** C6. An await operation function stores the captured continuation and
    the carrier value in the request and attaches its strategy only when the
    request has none: the root handler's attaches the default strategy, the
    channel adapter's the channel strategy, and a strategy already present
    stays.  No other request changes.  The function returns the null value
    without resuming, so the yield leaves to the handler; for no argument
    does either function come back with a resumption. *)
Theorem await_attaches_strategy_once (lh_yield outer : yielder)
    (resume_ : lh_resume) (local_ : lh_value) (req : async_request_ptr)
    (r : async_request_t) (st : state) :
  awaitable req r st ->
  _async_req_await lh_yield resume_ local_ (lh_value_async_request_ptr req) st
    = Done (Op_returned lh_value_null)
        (suspended async_resume_default_fun resume_ local_ req st)
  /\ _channel_async_req_await lh_yield resume_ local_
       (lh_value_async_request_ptr req) st
     = Done (Op_returned lh_value_null)
         (suspended _channel_async_req_resume_fun resume_ local_ req st)
  /\ (forall strategy,
        read_request req (suspended strategy resume_ local_ req st)
        = Some {| next := next r; prev := prev r; resume := resume_;
                  local := local_; scope := scope r; uvreq := uvreq r;
                  resumefun := match resumefun r with
                               | None => Some strategy
                               | Some f => Some f
                               end |})
  /\ (forall strategy q, q <> req ->
        read_request q (suspended strategy resume_ local_ req st)
        = read_request q st)
  /\ with_handler _async_def local_ outer lh_op_async_req_await
       (lh_value_async_request_ptr req) st
     = Exited 0 lh_value_null
         (suspended async_resume_default_fun (Some (Captured (captured st)))
            local_ req (set_captured S st))
  /\ with_handler _channel_async_hdef local_ outer lh_op_async_req_await
       (lh_value_async_request_ptr req) st
     = Exited 0 lh_value_null
         (suspended _channel_async_req_resume_fun
            (Some (Captured (captured st))) local_ req (set_captured S st))
  /\ (forall arg,
        returns_only (fun res => res = Op_returned lh_value_null)
          (_async_req_await lh_yield resume_ local_ arg))
  /\ (forall arg,
        returns_only (fun res => res = Op_returned lh_value_null)
          (_channel_async_req_await lh_yield resume_ local_ arg)).
Proof.
  intros Haw.
  assert (Haw' : awaitable req r (set_captured S st)).
  { destruct Haw as (Hreq & u & x & Hu & Hx & Hd). split.
    - by rewrite read_set_captured.
    - by exists u, x. }
  split_and!.
  - by apply async_req_await_run with r.
  - by apply channel_async_req_await_run with r.
  - intros strategy. unfold suspended.
    rewrite read_update_eq with (r := r); [done | apply Haw].
  - intros strategy q Hq. unfold suspended. by apply read_update_ne.
  - apply with_handler_general with _async_req_await;
      [reflexivity | reflexivity |].
    by apply async_req_await_run with r.
  - apply with_handler_general with _channel_async_req_await;
      [reflexivity | reflexivity |].
    by apply channel_async_req_await_run with r.
  - intros arg. apply async_req_await_returns.
  - intros arg. apply channel_async_req_await_returns.
Qed.

(** C7. Under a channel adapter nested in a root async handler, the loop
    query and the register operation give the inner computation the same
    result and the same state as the root handler gives directly, for every
    argument and every state. *)
Theorem channel_adapter_pass_through (channel_local root_local : lh_value)
    (outer : yielder) (arg : lh_value) (st : state) :
  with_handler _channel_async_hdef channel_local
      (with_handler _async_def root_local outer) lh_op_async_uv_loop arg st
    = with_handler _async_def root_local outer lh_op_async_uv_loop arg st
  /\ with_handler _channel_async_hdef channel_local
       (with_handler _async_def root_local outer) lh_op_async_req_register arg st
     = with_handler _async_def root_local outer lh_op_async_req_register arg st.
Proof.
  split; [apply channel_uv_loop_pass_through
         | apply channel_req_register_pass_through].
Qed.

(** C8. Of the three operations of the root async handler only await
    suspends.  The loop query and the register operation are declared
    [LH_OP_TAIL_NOOP] and their operation functions, whenever they come
    back, end in [lh_tail_resume], so a yield of them never leaves to the
    handler; await is declared [LH_OP_GENERAL] and returns without
    resuming, so its yield never returns at once.  The loop query answers
    the loop stored in the handler-local state, which is the loop the
    handler was installed with, and leaves the state as it was. *)
Theorem root_only_await_suspends (L : block) (a : async_local_t)
    (outer lh_yield : yielder) (r : lh_resume) (lv arg : lh_value)
    (st st0 : state) (n : nat) (loop_ : uv_loop_ptr) :
  local_store st !! L = Some a ->
  memory st0 = S n ->
  (find_operation _async_ops lh_op_async_req_await
     = Some (LH_OP_GENERAL, _async_req_await)
   /\ find_operation _async_ops lh_op_async_uv_loop
      = Some (LH_OP_TAIL_NOOP, _async_uv_loop)
   /\ find_operation _async_ops lh_op_async_req_register
      = Some (LH_OP_TAIL_NOOP, _async_req_register))
  /\ returns_only (fun res => exists v, res = Op_tail_resumed r lv v)
       (_async_uv_loop lh_yield r lv arg)
  /\ returns_only (fun res => res = Op_tail_resumed r lv lh_value_null)
       (_async_req_register lh_yield r lv arg)
  /\ returns_only (fun res => res = Op_returned lh_value_null)
       (_async_req_await lh_yield r lv arg)
  /\ match with_handler _async_def lv outer lh_op_async_uv_loop arg st with
     | Exited _ _ _ => False
     | _ => True
     end
  /\ match with_handler _async_def lv outer lh_op_async_req_register arg st with
     | Exited _ _ _ => False
     | _ => True
     end
  /\ match with_handler _async_def lv outer lh_op_async_req_await arg st with
     | Done _ _ => False
     | _ => True
     end
  /\ _async_uv_loop lh_yield r (lh_value_async_local_ptr (Some L)) arg st
     = Done (Op_tail_resumed r (lh_value_async_local_ptr (Some L))
               (lh_value_uv_loop_ptr (loop a))) st
  /\ async_uv_loop
       (with_handler _async_def (lh_value_async_local_ptr (Some L)) outer) st
     = Done (loop a) st
  /\ async_handler outer loop_ ask_loop arg st0
     = Done (lh_value_uv_loop_ptr loop_) st0.
Proof.
  intros HL Hm. split_and!.
  - reflexivity.
  - reflexivity.
  - reflexivity.
  - apply async_uv_loop_tail_resumes.
  - apply async_req_register_tail_resumes.
  - apply async_req_await_returns.
  - apply root_tail_op_never_suspends with _async_uv_loop; [reflexivity|].
    intros s. pose proof (async_uv_loop_tail_resumes no_yield
                            (Some Tail_resumption) lv arg s) as H.
    destruct (_async_uv_loop _ _ _ _ s); try done.
    destruct H as [v ->]. by eauto.
  - apply root_tail_op_never_suspends with _async_req_register; [reflexivity|].
    intros s. pose proof (async_req_register_tail_resumes no_yield
                            (Some Tail_resumption) lv arg s) as H.
    destruct (_async_req_register _ _ _ _ s); try done.
    subst. by eauto.
  - unfold with_handler. rewrite bool_decide_eq_true_2 by reflexivity.
    cbn [operations _async_def]. rewrite find_async_req_await.
    cbn [capture]. rewrite bool_decide_eq_false_2 by done.
    pose proof (async_req_await_returns outer
                  (Some (Captured (captured st))) lv arg (set_captured S st))
      as H.
    destruct (_async_req_await _ _ _ _ _) as [res s| | | | |]; try done.
    by subst res.
  - unfold _async_uv_loop.
    cbn [lh_value_async_local_ptr lh_async_local_ptr_value defined].
    erewrite bind_done by apply ret_run.
    erewrite bind_done by (unfold load_local; by rewrite HL).
    reflexivity.
  - unfold async_uv_loop.
    erewrite bind_done by (by apply yield_uv_loop_root).
    by rewrite uv_loop_ptr_roundtrip.
  - by apply async_handler_ask_loop with n.
Qed.

(** C9. When the allocation of the handler-local state fails,
    [async_handler] returns the null value at once: whatever the action is,
    it is not run, and the state is the one before the call, no local state
    and no handler in it. *)
Theorem async_handler_alloc_failure (outer : yielder) (loop_ : uv_loop_ptr)
    (action : lh_actionfun) (arg : lh_value) (st : state) :
  memory st = O ->
  async_handler outer loop_ action arg st = Done lh_value_null st.
Proof.
  intros Hm. unfold async_handler, bind, calloc_async_local. by rewrite Hm.
Qed.

(** ** The claims on concrete states *)

Lemma example_scopes_built : built_by_nesting example_scopes.
Proof.
  unfold example_scopes.
  apply built_enter; [apply built_enter; [apply built_enter|..]|..].
  - apply built_empty.
  - intros a H. discriminate H.
  - reflexivity.
  - intros a [= <-]. eexists. reflexivity.
  - reflexivity.
  - intros a [= <-]. eexists. reflexivity.
  - reflexivity.
Qed.

Lemma in_scope_of_iff_on_parent_chain_witness :
  built_by_nesting example_scopes /\
  scope_in example_scopes (Some 3%positive) /\
  exists l,
    parent_chain example_scopes (Some 3%positive) l /\
    forall fuel, (size example_scopes <= fuel)%nat ->
      in_scope_of fuel example_scopes (Some 3%positive) (Some 1%positive)
      = Walk_result (bool_decide (1%positive ∈ l)).
Proof.
  assert (Hin : scope_in example_scopes (Some 3%positive)).
  { intros a [= <-]. eexists. reflexivity. }
  split; [apply example_scopes_built|]. split; [exact Hin|].
  apply (in_scope_of_iff_on_parent_chain example_scopes (Some 3%positive)
           1%positive example_scopes_built Hin).
Defined.

Lemma in_scope_of_null_top_witness :
  built_by_nesting example_scopes /\
  scope_in example_scopes (Some 3%positive) /\
  (size example_scopes <= 3)%nat /\
  in_scope_of 3 example_scopes (Some 3%positive) None = Walk_result true.
Proof.
  assert (Hin : scope_in example_scopes (Some 3%positive)).
  { intros a [= <-]. eexists. reflexivity. }
  assert (Hsize : (size example_scopes <= 3)%nat).
  { vm_compute. lia. }
  split; [apply example_scopes_built|]. split; [exact Hin|].
  split; [exact Hsize|].
  apply (in_scope_of_null_top example_scopes (Some 3%positive)
           example_scopes_built Hin 3%nat Hsize).
Defined.

Lemma async_handler_alloc_failure_witness :
  memory (set_memory (fun _ => O) example_state) = O /\
  async_handler no_handler (Some 3%positive) ask_loop lh_value_null
    (set_memory (fun _ => O) example_state)
  = Done lh_value_null (set_memory (fun _ => O) example_state).
Proof.
  split; [reflexivity|].
  apply (async_handler_alloc_failure no_handler (Some 3%positive) ask_loop
           lh_value_null (set_memory (fun _ => O) example_state)).
  reflexivity.
Defined.

Lemma example_state_pending_ok : pending_ok 7%positive example_state [].
Proof.
  split.
  - eexists. split; reflexivity.
  - apply NoDup_nil_2.
  - intros b Hb. by apply not_elem_of_nil in Hb.
  - intros u x q Hx Hq. unfold example_state in Hx. cbn [uv_store] in Hx.
    apply lookup_insert_Some in Hx as [[_ <-]|[_ Hx]]; [done|].
    apply lookup_singleton_Some in Hx as [_ <-]. done.
Qed.

Lemma example_operation_1 : is_Some (uv_store example_state !! 1%positive).
Proof. eexists. reflexivity. Qed.

Lemma example_operation_2 : is_Some (uv_store example_state !! 2%positive).
Proof. eexists. reflexivity. Qed.

Lemma registry_reflects_pending_witness :
  (exists st' l',
     run_calls (under_root 7%positive None no_handler)
       [BeginAwait 1%positive; BeginAwait 2%positive;
        CompleteOperation 2%positive (-4); CompleteOperation 1%positive 0]
       [] example_state
     = Done (Req_at <$> l') st'
     /\ pending_ok 7%positive st' l')
  /\
  (exists (a b : block) (kB : resume_ref) (st2 st3 st4 : state),
     run_calls (under_root 7%positive None no_handler)
       [BeginAwait 1%positive; BeginAwait 2%positive] [] example_state
       = Done [Req_at b; Req_at a] st2
     /\ attached 1%positive st2 = Some (Req_at a)
     /\ attached 2%positive st2 = Some (Req_at b)
     /\ registry 7%positive st2 [b; a]
     /\ run_calls (under_root 7%positive None no_handler)
          [CompleteOperation 2%positive (-4)] [Req_at b; Req_at a] st2
        = Done [Req_at a] st3
     /\ calls st3
        = calls st2 ++ [Lh_release_resume kB
                          (lh_value_async_local_ptr (Some 7%positive))
                          (lh_value_int (-4))]
     /\ registry 7%positive st3 [a]
     /\ run_calls (under_root 7%positive None no_handler)
          [CompleteOperation 1%positive 0] [Req_at a] st3 = Done [] st4
     /\ registry 7%positive st4 []).
Proof.
  split.
  - apply (proj1 (registry_reflects_pending 7%positive None no_handler)
             [BeginAwait 1%positive; BeginAwait 2%positive;
              CompleteOperation 2%positive (-4); CompleteOperation 1%positive 0]
             example_state []).
    + apply example_state_pending_ok.
    + repeat apply Forall_cons_2; try apply Forall_nil_2;
        first [apply example_operation_1 | apply example_operation_2].
    + vm_compute. lia.
  - apply (proj2 (registry_reflects_pending 7%positive None no_handler)
             example_state 1%positive 2%positive 0 (-4) 3%nat).
    + apply example_state_pending_ok.
    + discriminate.
    + apply example_operation_1.
    + apply example_operation_2.
    + reflexivity.
Defined.

Lemma follow_next_linked st p f l :
  linked st p f l -> follow_next (length l) st f = Some l.
Proof.
  revert p f. induction l as [|b l IH]; intros p f.
  - by intros ->.
  - intros (-> & r & Hr & _ & Hl). cbn [length follow_next].
    rewrite Hr. by rewrite (IH _ _ Hl).
Qed.

(** The registry can be read off the state. *)
Lemma registry_list_registry L st l :
  registry L st l -> registry_list (length l) L st = Some l.
Proof.
  intros (a & HL & Hl). unfold registry_list. rewrite HL.
  by eapply follow_next_linked.
Qed.

(** The scenario of two awaits, computed. *)
Example two_awaits_computed :
  let lh_yield := under_root 7%positive None no_handler in
  let st1 := final_state (asyncx_await lh_yield (Some 1%positive) example_state)
               example_state in
  let st2 := final_state (asyncx_await lh_yield (Some 2%positive) st1) st1 in
  let st3 := final_state (async_req_resume (Some 2%positive) (-4) st2) st2 in
  let st4 := final_state (async_req_resume (Some 1%positive) 0 st3) st3 in
  registry_list 5 7%positive st2 = Some [2%positive; 1%positive]
  /\ registry_list 5 7%positive st3 = Some [1%positive]
  /\ registry_list 5 7%positive st4 = Some []
  /\ calls st3
     = [Lh_release_resume (Captured 1)
          (lh_value_async_local_ptr (Some 7%positive)) (lh_value_int (-4))]
  /\ calls st4
     = [Lh_release_resume (Captured 1)
          (lh_value_async_local_ptr (Some 7%positive)) (lh_value_int (-4));
        Lh_release_resume (Captured 0)
          (lh_value_async_local_ptr (Some 7%positive)) (lh_value_int 0)].
Proof. vm_compute. repeat split. Qed.

Lemma example_pending_request :
  request_store example_pending !! 1%positive = Some example_request.
Proof. vm_compute. reflexivity. Qed.

Lemma example_pending_operation :
  uv_store example_pending !! 1%positive
  = Some {| data := Some (Req_at 1%positive) |}.
Proof. vm_compute. reflexivity. Qed.

Lemma example_pending_neighbours :
  neighbours_ok 1%positive example_request example_pending.
Proof.
  split; [|split; [|split]].
  - intros _. eexists. vm_compute. reflexivity.
  - intros H. by destruct H.
  - discriminate.
  - discriminate.
Qed.

Lemma completing_twice_resumes_once_witness :
  let st1 := completed 1%positive 1%positive example_request example_pending in
  let st2 :=
    set_calls
      (fun t => t ++ strategy_calls async_resume_default_fun
                       (Some (Captured 0)) (local example_request)
                       1%positive (-4)) st1 in
  async_req_resume (Some 1%positive) (-4) example_pending
    = call_resumefun (Some async_resume_default_fun) (Some (Captured 0))
        (local example_request) (Some 1%positive) (-4) st1
  /\ async_req_resume (Some 1%positive) (-4) example_pending = Done tt st2
  /\ attached 1%positive st1 = None
  /\ request_store st1 !! 1%positive = None
  /\ calls st2
     = calls example_pending
       ++ strategy_calls async_resume_default_fun (Some (Captured 0))
            (local example_request) 1%positive (-4)
  /\ strategy_calls async_resume_default_fun (Some (Captured 0))
       (local example_request) 1%positive (-4)
     = [Lh_release_resume (Captured 0) (local example_request)
          (lh_value_int (-4))]
  /\ async_req_resume (Some 1%positive) 0 st2 = Done tt st2
  /\ (async_req_resume (Some 1%positive) (-4) ;;;
      async_req_resume (Some 1%positive) 0) example_pending
     = Done tt st2.
Proof.
  apply (completing_twice_resumes_once example_pending 1%positive 1%positive
           {| data := Some (Req_at 1%positive) |} example_request
           async_resume_default_fun (Captured 0) (-4) 0).
  - apply example_pending_operation.
  - reflexivity.
  - apply example_pending_request.
  - reflexivity.
  - reflexivity.
  - reflexivity.
  - apply example_pending_neighbours.
Defined.

Lemma example_state_registry : registry 7%positive example_state [].
Proof. eexists. split; reflexivity. Qed.

Lemma example_pending_registry : registry 7%positive example_pending [1%positive].
Proof.
  eexists. split; [vm_compute; reflexivity|]. cbn [requests next linked].
  split; [reflexivity|]. exists example_request.
  split; [apply example_pending_request|]. split; reflexivity.
Qed.

Lemma release_asserts_empty_registry_witness :
  (_async_release (lh_value_async_local_ptr (Some 7%positive)) example_state
     = Done tt (set_memory S (set_local_store (delete 7%positive) example_state))
   /\ lh_handle no_handler _async_def
        (lh_value_async_local_ptr (Some 7%positive)) ask_loop lh_value_null
        example_state
      = Done (lh_value_uv_loop_ptr (Some 3%positive))
          (set_memory S (set_local_store (delete 7%positive) example_state)))
  /\
  (_async_release (lh_value_async_local_ptr (Some 7%positive)) example_pending
     = Aborted example_pending
   /\ lh_handle no_handler _async_def
        (lh_value_async_local_ptr (Some 7%positive)) ask_loop lh_value_null
        example_pending
      = Aborted example_pending).
Proof.
  split.
  - apply (release_asserts_empty_registry 7%positive no_handler ask_loop
             lh_value_null example_state example_state []
             (inl (lh_value_uv_loop_ptr (Some 3%positive)))).
    + apply example_state_registry.
    + vm_compute. reflexivity.
  - apply (release_asserts_empty_registry 7%positive no_handler ask_loop
             lh_value_null example_pending example_pending [1%positive]
             (inl (lh_value_uv_loop_ptr (Some 3%positive)))).
    + apply example_pending_registry.
    + vm_compute. reflexivity.
Defined.

Lemma await_returns_status_wrapper_throws_witness :
  let st1 :=
    final_state
      (async_request_alloc (resumed_with (-4)) (Some 1%positive) example_state)
      example_state in
  int_range (-4) /\
  async_request_alloc (resumed_with (-4)) (Some 1%positive) example_state
    = Done (Some (Req_at 1%positive)) st1 /\
  asyncx_await (resumed_with (-4)) (Some 1%positive) example_state
    = Done (-4) st1
  /\ check_uv_err example_strerror (-4) st1
     = (if -4 <? 0
        then Thrown {| code := -4; msg := example_strerror (-4) |} st1
        else Done tt st1)
  /\ async_await example_strerror (resumed_with (-4)) (Some 1%positive)
       example_state
     = (if -4 <? 0
        then Thrown {| code := -4; msg := example_strerror (-4) |} st1
        else Done tt st1)
  /\ ((exists e st',
         async_await example_strerror (resumed_with (-4)) (Some 1%positive)
           example_state = Thrown e st')
      <-> -4 < 0).
Proof.
  intros st1.
  assert (Hrange : int_range (-4)) by (unfold int_range; lia).
  assert (Halloc :
    async_request_alloc (resumed_with (-4)) (Some 1%positive) example_state
    = Done (Some (Req_at 1%positive)) st1).
  { vm_compute. reflexivity. }
  split; [exact Hrange|]. split; [exact Halloc|].
  apply (await_returns_status_wrapper_throws example_strerror
           (resumed_with (-4)) (Some 1%positive) (Some (Req_at 1%positive))
           (-4) example_state st1 st1 Hrange Halloc).
  reflexivity.
Defined.

Lemma example_awaiting_awaitable :
  awaitable (Some (Req_at 1%positive))
    (with_uvreq (Some 1%positive) zeroed_request) example_awaiting.
Proof.
  split; [reflexivity|].
  exists 1%positive, {| data := Some (Req_at 1%positive) |}.
  split; [reflexivity|]. split; reflexivity.
Qed.

Lemma await_attaches_strategy_once_witness :
  let req := Some (Req_at 1%positive) in
  let r := with_uvreq (Some 1%positive) zeroed_request in
  let resume_ := Some (Captured 0) in
  let local_ := lh_value_async_local_ptr (Some 7%positive) in
  let st := example_awaiting in
  _async_req_await no_yield resume_ local_ (lh_value_async_request_ptr req) st
    = Done (Op_returned lh_value_null)
        (suspended async_resume_default_fun resume_ local_ req st)
  /\ _channel_async_req_await no_yield resume_ local_
       (lh_value_async_request_ptr req) st
     = Done (Op_returned lh_value_null)
         (suspended _channel_async_req_resume_fun resume_ local_ req st)
  /\ (forall strategy,
        read_request req (suspended strategy resume_ local_ req st)
        = Some {| next := next r; prev := prev r; resume := resume_;
                  local := local_; scope := scope r; uvreq := uvreq r;
                  resumefun := match resumefun r with
                               | None => Some strategy
                               | Some f => Some f
                               end |})
  /\ (forall strategy q, q <> req ->
        read_request q (suspended strategy resume_ local_ req st)
        = read_request q st)
  /\ with_handler _async_def local_ no_handler lh_op_async_req_await
       (lh_value_async_request_ptr req) st
     = Exited 0 lh_value_null
         (suspended async_resume_default_fun (Some (Captured (captured st)))
            local_ req (set_captured S st))
  /\ with_handler _channel_async_hdef local_ no_handler lh_op_async_req_await
       (lh_value_async_request_ptr req) st
     = Exited 0 lh_value_null
         (suspended _channel_async_req_resume_fun
            (Some (Captured (captured st))) local_ req (set_captured S st))
  /\ (forall arg,
        returns_only (fun res => res = Op_returned lh_value_null)
          (_async_req_await no_yield resume_ local_ arg))
  /\ (forall arg,
        returns_only (fun res => res = Op_returned lh_value_null)
          (_channel_async_req_await no_yield resume_ local_ arg)).
Proof.
  intros req r resume_ local_ st.
  apply (await_attaches_strategy_once no_yield no_handler resume_ local_ req r
           st).
  apply example_awaiting_awaitable.
Defined.

Lemma root_only_await_suspends_witness :
  let a := {| loop := Some 3%positive; requests := zeroed_request |} in
  let r := Some Tail_resumption in
  let lv := lh_value_async_local_ptr (Some 7%positive) in
  local_store example_state !! 7%positive = Some a /\
  memory example_state = 5%nat /\
  (find_operation _async_ops lh_op_async_req_await
     = Some (LH_OP_GENERAL, _async_req_await)
   /\ find_operation _async_ops lh_op_async_uv_loop
      = Some (LH_OP_TAIL_NOOP, _async_uv_loop)
   /\ find_operation _async_ops lh_op_async_req_register
      = Some (LH_OP_TAIL_NOOP, _async_req_register))
  /\ returns_only (fun res => exists v, res = Op_tail_resumed r lv v)
       (_async_uv_loop no_yield r lv lh_value_null)
  /\ returns_only (fun res => res = Op_tail_resumed r lv lh_value_null)
       (_async_req_register no_yield r lv lh_value_null)
  /\ returns_only (fun res => res = Op_returned lh_value_null)
       (_async_req_await no_yield r lv lh_value_null)
  /\ match with_handler _async_def lv no_handler lh_op_async_uv_loop
             lh_value_null example_state with
     | Exited _ _ _ => False
     | _ => True
     end
  /\ match with_handler _async_def lv no_handler lh_op_async_req_register
             lh_value_null example_state with
     | Exited _ _ _ => False
     | _ => True
     end
  /\ match with_handler _async_def lv no_handler lh_op_async_req_await
             lh_value_null example_state with
     | Done _ _ => False
     | _ => True
     end
  /\ _async_uv_loop no_yield r lv lh_value_null example_state
     = Done (Op_tail_resumed r lv (lh_value_uv_loop_ptr (loop a))) example_state
  /\ async_uv_loop (with_handler _async_def lv no_handler) example_state
     = Done (loop a) example_state
  /\ async_handler no_handler (Some 3%positive) ask_loop lh_value_null
       example_state
     = Done (lh_value_uv_loop_ptr (Some 3%positive)) example_state.
Proof.
  intros a r lv.
  assert (HL : local_store example_state !! 7%positive = Some a) by reflexivity.
  assert (Hm : memory example_state = 5%nat) by reflexivity.
  split; [exact HL|]. split; [exact Hm|].
  apply (root_only_await_suspends 7%positive a no_handler no_yield r lv
           lh_value_null example_state example_state 4%nat (Some 3%positive)
           HL Hm).
Defined.

(** * Further properties *)

(** ** Conversions of generic values *)





(** ** [check_uv_errmsg] *)





(** ** Scopes as a tree order *)


Lemma parent_chain_suffix (h : scope_store) s l a :
  parent_chain h s l -> a ∈ l ->
  exists pre la, l = pre ++ la /\ parent_chain h (Some a) la.
Proof.
  induction 1 as [|b sc l Hb Hc IH]; intros Ha.
  - by apply not_elem_of_nil in Ha.
  - apply elem_of_cons in Ha as [->|Ha].
    + exists [], (b :: l). split; [done|]. by apply chain_node with sc.
    + destruct (IH Ha) as (pre & la & -> & Hla).
      by exists (b :: pre), la.
Qed.

Lemma parent_chain_head (h : scope_store) b l :
  parent_chain h (Some b) l -> exists l', l = b :: l'.
Proof. inversion 1; subst. by eexists. Qed.

(** What [in_scope_of] answers along a chain, for every [top]. *)
Lemma in_scope_of_answer (h : scope_store) s l fuel top :
  parent_chain h s l -> (length l <= fuel)%nat ->
  in_scope_of fuel h s top
  = Walk_result (bool_decide (on_chain l top)).
Proof.
  intros Hc Hfuel. destruct top as [a|].
  - exact (in_scope_of_chain h s l a fuel Hc Hfuel).
  - rewrite (in_scope_of_chain_null h s l fuel Hc Hfuel).
    by rewrite bool_decide_eq_true_2.
Qed.

Lemma walk_result_true (P : Prop) `{!Decision P} :
  Walk_result (bool_decide P) = Walk_result true <-> P.
Proof.
  split.
  - intros H. injection H as H. by apply bool_decide_eq_true_1 in H.
  - intros H. by rewrite bool_decide_eq_true_2.
Qed.

(** X4. On a scope tree built by nested scope creation [in_scope_of] is a
    partial order: every scope is in scope of itself; a scope in scope of
    [a], with [a] in scope of [t], is in scope of [t]; two scopes in scope
    of each other are the same scope. *)
Theorem in_scope_of_partial_order (h : scope_store)
    (s a t : cancel_scope_ptr) (fuel : nat) :
  built_by_nesting h ->
  scope_in h s ->
  scope_in h a ->
  (size h <= fuel)%nat ->
  in_scope_of fuel h s s = Walk_result true
  /\ (in_scope_of fuel h s a = Walk_result true ->
      in_scope_of fuel h a t = Walk_result true ->
      in_scope_of fuel h s t = Walk_result true)
  /\ (in_scope_of fuel h s a = Walk_result true ->
      in_scope_of fuel h a s = Walk_result true ->
      s = a).
Proof.
  intros Hbuilt Hs Ha Hfuel.
  destruct (built_chain h Hbuilt s Hs) as (ls & Hls & Hlens).
  destruct (built_chain h Hbuilt a Ha) as (la & Hla & Hlena).
  rewrite !(in_scope_of_answer h s ls fuel) by (done || lia).
  rewrite !(in_scope_of_answer h a la fuel) by (done || lia).
  rewrite !walk_result_true. split_and!.
  - destruct s as [x|]; [|done].
    destruct (parent_chain_head _ _ _ Hls) as [l' ->]. apply list_elem_of_here.
  - intros Hsa Hat. destruct t as [z|]; [|done].
    destruct a as [y|].
    + destruct (parent_chain_suffix _ _ _ _ Hls Hsa) as (pre & la' & -> & Hla').
      rewrite (parent_chain_unique _ _ _ _ Hla' Hla).
      apply elem_of_app. by right.
    + inversion Hla; subst. by apply not_elem_of_nil in Hat.
  - intros Hsa Has. destruct s as [x|], a as [y|]; try done.
    + destruct (parent_chain_suffix _ _ _ _ Hls Hsa) as (pre & la' & -> & Hla').
      rewrite (parent_chain_unique _ _ _ _ Hla' Hla) in *.
      destruct (parent_chain_suffix _ _ _ _ Hla Has) as (pre' & ls' & Heq & Hls').
      rewrite (parent_chain_unique _ _ _ _ Hls' Hls) in Heq.
      assert (pre = []).
      { apply (f_equal length) in Heq. rewrite !length_app in Heq.
        destruct pre; [done | simpl in Heq; lia]. }
      subst pre. simpl in Hls.
      destruct (parent_chain_head _ _ _ Hls) as [l1 H1].
      destruct (parent_chain_head _ _ _ Hla) as [l2 H2].
      congruence.
    + inversion Hla; subst. by apply not_elem_of_nil in Has.
    + inversion Hls; subst. by apply not_elem_of_nil in Hsa.
Qed.


(** ** More on the registry *)

(** A registry never lists a request twice. *)
Lemma linked_NoDup st p f l : linked st p f l -> NoDup l.
Proof.
  revert p f. induction l as [|b l IH]; intros p f Hl; [apply NoDup_nil_2|].
  destruct Hl as (-> & r & Hr & Hp & Hl).
  apply NoDup_cons. split; [|by eapply IH].
  intros Hb. apply list_elem_of_split in Hb as (l1 & l2 & ->).
  destruct (linked_at _ _ _ _ _ _ Hl) as (rb & Hrb & _ & Hl2).
  assert (rb = r) by congruence. subst rb.
  pose proof (linked_unique _ _ _ _ _ Hl Hl2) as Heq.
  apply (f_equal length) in Heq. rewrite length_app in Heq. simpl in Heq. lia.
Qed.

Lemma registry_NoDup L st l : registry L st l -> NoDup l.
Proof. intros (a & _ & Hl). by eapply linked_NoDup. Qed.

Lemma registry_unique L st l1 l2 :
  registry L st l1 -> registry L st l2 -> l1 = l2.
Proof.
  intros (a1 & H1 & Hl1) (a2 & H2 & Hl2).
  assert (a2 = a1) by congruence. subst. by eapply linked_unique.
Qed.

Lemma allocated_begun L u ambient st :
  begun L u ambient st
  = suspended async_resume_default_fun (Some (Captured (captured st)))
      (lh_value_async_local_ptr (Some L))
      (Some (Req_at (fresh (dom (request_store st)))))
      (set_captured S (allocated L u ambient st)).
Proof. reflexivity. Qed.

(** [async_request_alloc] under any handlers that bind the ambient scope
    and pass the register operation to the root handler. *)
Lemma async_request_alloc_under lh_yield L ambient u x a n st :
  ambient_is lh_yield ambient ->
  registers_at L lh_yield ->
  memory st = S n ->
  uv_store st !! u = Some x ->
  local_store st !! L = Some a ->
  (next (requests a) <> None -> is_Some (read_request (next (requests a)) st)) ->
  async_request_alloc lh_yield (Some u) st
  = Done (Some (Req_at (fresh (dom (request_store st)))))
      (allocated L u ambient st).
Proof.
  intros Hamb Hreg Hm Hx HL Hfirst. unfold async_request_alloc, allocated.
  set (b := fresh (dom (request_store st))).
  assert (Hfresh : request_store st !! b = None) by apply fresh_request_not_live.
  assert (Hfb : next (requests a) <> Some (Req_at b)).
  { intros Heq. destruct Hfirst as [r Hr]; [by rewrite Heq|].
    rewrite Heq in Hr. simpl in Hr. congruence. }
  set (st1 := set_memory pred (set_request_store (insert b zeroed_request) st)).
  rewrite bind_done with (a := Some (Req_at b)) (st' := st1)
    by (by eapply nodec_zalloc_run).
  erewrite bind_done by (by eapply assign_data_run).
  erewrite bind_done
    by (eapply assign_run; cbn; by rewrite lookup_insert_eq).
  erewrite bind_done by apply Hamb.
  erewrite bind_done
    by (apply assign_live; rewrite live_update; cbn;
        rewrite lookup_insert_eq; by eexists).
  erewrite bind_done.
  2:{ unfold async_req_register. erewrite bind_done; [reflexivity|].
      eapply (Hreg a (Some (Req_at b))).
      - done.
      - rewrite !live_update. cbn. rewrite lookup_insert_eq. by eexists.
      - intros Hne. specialize (Hfirst Hne).
        rewrite !live_update, read_set_uv.
        destruct (next (requests a)) as [[c|l]|]; [| done | done].
        cbn. cbn in Hfirst. rewrite lookup_insert_ne; [done|].
        intros ->. apply Hfb. done. }
  reflexivity.
Qed.

Lemma under_root_ambient L ambient outer :
  ambient_is (under_root L ambient outer) ambient.
Proof. intros st. apply cancel_scope_under_root. Qed.

Lemma under_root_registers L ambient outer :
  registers_at L (under_root L ambient outer).
Proof. intros a req st HL Hreq Hfirst. by eapply yield_register_under_root. Qed.

Lemma under_root_loop L ambient outer : loop_at L (under_root L ambient outer).
Proof.
  intros a arg st HL. unfold under_root, with_implicit.
  rewrite with_handler_other by apply effect_cancel_scope_not_async.
  by rewrite (yield_uv_loop_root L a outer arg st HL).
Qed.

Section Allocated.
Variables (L u : block) (ambient : cancel_scope_ptr) (st : state).
Variables (a : async_local_t) (l : list block).
Hypothesis HL : local_store st !! L = Some a.
Hypothesis Hreg : registry L st l.

Lemma allocated_fresh : fresh (dom (request_store st)) ∉ l.
Proof.
  intros Hb. destruct (registry_live _ _ _ _ Hreg Hb) as [r Hr].
  pose proof (fresh_request_not_live st) as Hf. congruence.
Qed.

Lemma allocated_first_not_fresh :
  next (requests a) <> Some (Req_at (fresh (dom (request_store st)))).
Proof.
  pose proof Hreg as (a' & Ha' & Hl). assert (a' = a) by congruence. subst a'.
  pose proof allocated_fresh as Hfresh.
  rewrite (linked_first _ _ _ _ Hl). clear Hl. revert Hfresh.
  generalize l. intros [|c l']; [done|].
  intros Hfresh [= Hc]. apply Hfresh. rewrite <- Hc. apply list_elem_of_here.
Qed.

Lemma allocated_registry :
  registry L (allocated L u ambient st) (fresh (dom (request_store st)) :: l).
Proof.
  unfold allocated.
  eapply registry_registered.
  - apply registry_update; [apply keeps_links_scope|].
    apply registry_update; [apply keeps_links_uvreq|].
    apply registry_frame with st; [done| |done].
    intros x Hx. store_simpl. apply lookup_insert_ne.
    intros <-. by apply allocated_fresh.
  - by eapply registry_NoDup.
  - apply allocated_fresh.
  - cbn. by rewrite !lookup_alter_eq, lookup_insert_eq.
Qed.

Lemma allocated_self :
  request_store (allocated L u ambient st) !! fresh (dom (request_store st))
  = Some {| next := next (requests a); prev := Some (Requests_of L);
            resume := None; local := lh_value_null; scope := ambient;
            uvreq := Some u; resumefun := None |}.
Proof.
  unfold allocated. rewrite request_store_read.
  rewrite (read_registered_self L a _
             (with_scope ambient (with_uvreq (Some u) zeroed_request)));
    [reflexivity | done | |].
  - cbn. by rewrite !lookup_alter_eq, lookup_insert_eq.
  - apply allocated_first_not_fresh.
Qed.

Lemma allocated_other x :
  x <> fresh (dom (request_store st)) ->
  request_store (allocated L u ambient st) !! x
  = (fun r => if decide (Some (Req_at x) = next (requests a))
              then with_prev (Some (Req_at (fresh (dom (request_store st))))) r
              else r)
    <$> request_store st !! x.
Proof.
  intros Hx. unfold allocated. rewrite request_store_read.
  unfold registered.
  replace (local_store
             (update_request (Some (Req_at (fresh (dom (request_store st)))))
                (with_scope ambient)
                (update_request (Some (Req_at (fresh (dom (request_store st)))))
                   (with_uvreq (Some u))
                   (set_uv_store
                      (insert u {| data := Some (Req_at (fresh (dom (request_store st)))) |})
                      (set_memory pred
                         (set_request_store
                            (insert (fresh (dom (request_store st))) zeroed_request)
                            st))))) !! L)
    with (Some a) by done.
  rewrite !read_update,
    !(decide_False (P := Some (Req_at x)
                         = Some (Req_at (fresh (dom (request_store st))))))
    by congruence.
  rewrite (decide_False (P := Some (Req_at x) = Some (Requests_of L))) by done.
  rewrite read_set_uv, read_set_memory. cbn.
  rewrite lookup_insert_ne by congruence.
  destruct (decide (Some (Req_at x) = next (requests a))) as [e|e];
    [rewrite decide_True by done | rewrite decide_False by done];
    by destruct (request_store st !! x).
Qed.

Lemma allocated_uv_store :
  uv_store (allocated L u ambient st)
  = <[u := {| data := Some (Req_at (fresh (dom (request_store st)))) |}]>
      (uv_store st).
Proof.
  unfold allocated. rewrite uv_store_registered. by rewrite !uv_store_update.
Qed.

Lemma allocated_memory : memory (allocated L u ambient st) = pred (memory st).
Proof.
  unfold allocated. rewrite memory_registered. by rewrite !memory_update.
Qed.

End Allocated.

(** X5. Under the root handler [async_request_alloc] returns a fresh
    request that is bound to the operation in both directions
    ([uvreq->data] is the request and the request's [uvreq] is the
    operation), carries the ambient cancel scope, has no continuation and
    no strategy yet, and stands first in the registry, before the requests
    that were pending; it takes one object from the allocator. *)
Theorem async_request_alloc_registers (L : block)
    (ambient : cancel_scope_ptr) (outer : yielder) (st : state)
    (l : list block) (u : block) (n : nat) :
  registry L st l ->
  is_Some (uv_store st !! u) ->
  memory st = S n ->
  exists b a st',
    async_request_alloc (under_root L ambient outer) (Some u) st
      = Done (Some (Req_at b)) st'
    /\ request_store st !! b = None
    /\ local_store st !! L = Some a
    /\ attached u st' = Some (Req_at b)
    /\ request_store st' !! b
       = Some {| next := next (requests a); prev := Some (Requests_of L);
                 resume := None; local := lh_value_null; scope := ambient;
                 uvreq := Some u; resumefun := None |}
    /\ registry L st' (b :: l)
    /\ memory st' = n.
Proof.
  intros Hreg [x Hx] Hm. pose proof Hreg as (a & HL & _).
  exists (fresh (dom (request_store st))), a, (allocated L u ambient st).
  split_and!.
  - apply async_request_alloc_under with x a n; try done.
    + apply under_root_ambient.
    + apply under_root_registers.
    + by apply registry_first_live with L l.
  - apply fresh_request_not_live.
  - done.
  - unfold attached. rewrite allocated_uv_store. by rewrite lookup_insert_eq.
  - eapply allocated_self; eassumption.
  - eapply allocated_registry; eassumption.
  - by rewrite allocated_memory, Hm.
Qed.

(** ** Nested handlers *)

Lemma root_registers L outer :
  registers_at L (with_handler _async_def (lh_value_async_local_ptr (Some L)) outer).
Proof.
  intros a req st HL Hreq Hfirst.
  apply (with_handler_tail _async_def _ outer _ _ st LH_OP_TAIL_NOOP
           _async_req_register (Some Tail_resumption)
           (lh_value_async_local_ptr (Some L)) lh_value_null
           (registered L req st));
    [reflexivity | reflexivity | by right |].
  by apply async_req_register_run with a.
Qed.

Lemma root_loop L outer :
  loop_at L (with_handler _async_def (lh_value_async_local_ptr (Some L)) outer).
Proof. intros a arg st HL. by apply yield_uv_loop_root. Qed.

Lemma channel_layer_loop L cl lh_yield :
  loop_at L lh_yield -> loop_at L (with_handler _channel_async_hdef cl lh_yield).
Proof.
  intros HY a arg st HL.
  apply (with_handler_tail _channel_async_hdef cl lh_yield _ arg st LH_OP_TAIL
           _channel_async_uv_loop (Some Tail_resumption) cl);
    [reflexivity | reflexivity | by left |].
  rewrite bool_decide_eq_false_2 by done.
  unfold _channel_async_uv_loop, async_loop, async_uv_loop.
  erewrite bind_done.
  2:{ erewrite bind_done by (by apply HY).
      rewrite uv_loop_ptr_roundtrip. reflexivity. }
  reflexivity.
Qed.

Lemma scope_layer_loop L v lh_yield :
  loop_at L lh_yield -> loop_at L (with_implicit v _cancel_scope lh_yield).
Proof.
  intros HY a arg st HL. unfold with_implicit.
  rewrite with_handler_other by apply effect_cancel_scope_not_async.
  by rewrite (HY a arg st HL).
Qed.

Lemma channel_layer_registers L cl lh_yield :
  registers_at L lh_yield ->
  registers_at L (with_handler _channel_async_hdef cl lh_yield).
Proof.
  intros HY a req st HL Hreq Hfirst.
  apply (with_handler_tail _channel_async_hdef cl lh_yield _ _ st LH_OP_TAIL
           _channel_async_req_register (Some Tail_resumption) cl);
    [reflexivity | reflexivity | by left |].
  rewrite bool_decide_eq_false_2 by done.
  unfold _channel_async_req_register, async_req_register.
  rewrite async_request_ptr_roundtrip. cbn [defined].
  erewrite bind_done by apply ret_run.
  erewrite bind_done.
  2:{ erewrite bind_done by (by apply (HY a)). reflexivity. }
  reflexivity.
Qed.

Lemma scope_layer_registers L v lh_yield :
  registers_at L lh_yield ->
  registers_at L (with_implicit v _cancel_scope lh_yield).
Proof.
  intros HY a req st HL Hreq Hfirst. unfold with_implicit.
  rewrite with_handler_other by apply effect_cancel_scope_not_async.
  by rewrite (HY a req st HL Hreq Hfirst).
Qed.

Lemma nest_loop L ls base : loop_at L base -> loop_at L (nest ls base).
Proof.
  intros Hbase. induction ls as [|[cl|v] ls IH]; [done | |]; simpl.
  - by apply channel_layer_loop.
  - by apply scope_layer_loop.
Qed.

Lemma nest_registers L ls base :
  registers_at L base -> registers_at L (nest ls base).
Proof.
  intros Hbase. induction ls as [|[cl|v] ls IH]; [done | |]; simpl.
  - by apply channel_layer_registers.
  - by apply scope_layer_registers.
Qed.


(** X10. Through any number of channel adapters and cancel scope bindings
    installed over the root handler, the loop query ([async_loop]) still
    answers the loop of the root handler and leaves the state alone, and the
    register operation still puts the request first in the root handler's
    registry: both give what the root handler alone gives. *)
Theorem nested_handlers_pass_through (ls : list layer) (L : block)
    (outer : yielder) (a : async_local_t) (req : async_request_ptr)
    (arg : lh_value) (st : state) :
  local_store st !! L = Some a ->
  is_Some (read_request req st) ->
  (next (requests a) <> None -> is_Some (read_request (next (requests a)) st)) ->
  let root := with_handler _async_def (lh_value_async_local_ptr (Some L)) outer in
  async_loop (nest ls root) st = Done (loop a) st
  /\ async_loop (nest ls root) st = async_loop root st
  /\ nest ls root lh_op_async_uv_loop arg st
     = Done (lh_value_uv_loop_ptr (loop a)) st
  /\ async_req_register (nest ls root) req st = Done tt (registered L req st)
  /\ async_req_register (nest ls root) req st = async_req_register root req st.
Proof.
  intros HL Hreq Hfirst root.
  pose proof (nest_loop L ls root (root_loop L outer)) as Hloop.
  pose proof (nest_registers L ls root (root_registers L outer)) as Hregs.
  assert (Hl : forall Y, loop_at L Y -> async_loop Y st = Done (loop a) st).
  { intros Y HY. unfold async_loop, async_uv_loop.
    erewrite bind_done by (by apply HY). by rewrite uv_loop_ptr_roundtrip. }
  assert (Hr : forall Y, registers_at L Y ->
            async_req_register Y req st = Done tt (registered L req st)).
  { intros Y HY. unfold async_req_register.
    erewrite bind_done by (by apply (HY a)). reflexivity. }
  split_and!.
  - by apply Hl.
  - rewrite (Hl _ Hloop). symmetry. apply Hl, root_loop.
  - by apply Hloop.
  - by apply Hr.
  - rewrite (Hr _ Hregs). symmetry. apply Hr, root_registers.
Qed.

(** ** Awaiting under a channel adapter *)

Section Begun_with.
Variables (strategy : async_resume_fun) (local_ : lh_value).
Variables (L u : block) (ambient : cancel_scope_ptr) (st : state).
Variables (a : async_local_t) (l : list block).
Hypothesis HL : local_store st !! L = Some a.
Hypothesis Hreg : registry L st l.

Lemma begun_with_registry :
  registry L (begun_with strategy local_ L u ambient st)
    (fresh (dom (request_store st)) :: l).
Proof.
  unfold begun_with, suspended.
  apply registry_update; [apply keeps_links_suspended|].
  apply registry_frame with (allocated L u ambient st); [done | done |].
  eapply allocated_registry; eassumption.
Qed.

Lemma begun_with_self :
  request_store (begun_with strategy local_ L u ambient st)
    !! fresh (dom (request_store st))
  = Some {| next := next (requests a); prev := Some (Requests_of L);
            resume := Some (Captured (captured st)); local := local_;
            scope := ambient; uvreq := Some u;
            resumefun := Some strategy |}.
Proof.
  unfold begun_with, suspended. rewrite request_store_read.
  erewrite read_update_eq.
  2:{ rewrite read_set_captured, <- request_store_read.
      eapply allocated_self; eassumption. }
  reflexivity.
Qed.

Lemma begun_with_other x :
  x <> fresh (dom (request_store st)) ->
  request_store (begun_with strategy local_ L u ambient st) !! x
  = (fun r => if decide (Some (Req_at x) = next (requests a))
              then with_prev (Some (Req_at (fresh (dom (request_store st))))) r
              else r)
    <$> request_store st !! x.
Proof.
  intros Hx. unfold begun_with, suspended. rewrite request_store_read.
  rewrite read_update_ne by congruence.
  rewrite read_set_captured, <- request_store_read.
  by apply allocated_other.
Qed.

Lemma begun_with_uv_store :
  uv_store (begun_with strategy local_ L u ambient st)
  = <[u := {| data := Some (Req_at (fresh (dom (request_store st)))) |}]>
      (uv_store st).
Proof.
  unfold begun_with, suspended. rewrite uv_store_update. store_simpl.
  apply allocated_uv_store.
Qed.

End Begun_with.


Lemma calls_registered L req st : calls (registered L req st) = calls st.
Proof.
  unfold registered. destruct (local_store st !! L); [|done].
  by rewrite !calls_update.
Qed.

Lemma calls_begun_with strategy local_ L u ambient st :
  calls (begun_with strategy local_ L u ambient st) = calls st.
Proof.
  unfold begun_with, suspended, allocated. rewrite calls_update. store_simpl.
  rewrite calls_registered. by rewrite !calls_update.
Qed.

Lemma memory_begun_with strategy local_ L u ambient st :
  memory (begun_with strategy local_ L u ambient st) = pred (memory st).
Proof.
  unfold begun_with, suspended. rewrite memory_update. store_simpl.
  apply allocated_memory.
Qed.


(** Completing the request that a begun await just put first. *)
Lemma complete_begun_with strategy local_ L u ambient st a l err :
  local_store st !! L = Some a ->
  registry L st l ->
  let b := fresh (dom (request_store st)) in
  let st1 := begun_with strategy local_ L u ambient st in
  let r := {| next := next (requests a); prev := Some (Requests_of L);
              resume := Some (Captured (captured st)); local := local_;
              scope := ambient; uvreq := Some u;
              resumefun := Some strategy |} in
  async_req_resume (Some u) err st1
    = Done tt
        (set_calls
           (fun t => t ++ strategy_calls strategy
                            (Some (Captured (captured st))) local_ u err)
           (completed b u r st1))
  /\ registry L (completed b u r st1) l.
Proof.
  intros HL Hreg b st1 r.
  assert (Hself : request_store st1 !! b = Some r).
  { eapply begun_with_self; eassumption. }
  assert (Hreg1 : registry L st1 ([] ++ b :: l)).
  { eapply begun_with_registry; eassumption. }
  assert (Hnd : NoDup ([] ++ b :: l)) by (by eapply registry_NoDup).
  destruct (registry_neighbours L st1 [] b l r Hreg1 Hnd Hself) as [Hn _].
  split.
  - apply (async_req_resume_run b u r
             {| data := Some (Req_at b) |} strategy err st1); try done.
    unfold st1. rewrite begun_with_uv_store. by rewrite lookup_insert_eq.
  - by apply (completed_registry L st1 [] b l u r).
Qed.


(** ** Beginning and completing an await: the round trip *)

Lemma state_eq st st' :
  request_store st = request_store st' ->
  uv_store st = uv_store st' ->
  local_store st = local_store st' ->
  scopes st = scopes st' ->
  memory st = memory st' ->
  captured st = captured st' ->
  calls st = calls st' ->
  st = st'.
Proof. destruct st, st'. cbn. by intros -> -> -> -> -> -> ->. Qed.


Lemma local_store_update_at b upd st :
  local_store (update_request (Some (Req_at b)) upd st) = local_store st.
Proof. done. Qed.

Lemma request_store_update_head L upd st :
  request_store (update_request (Some (Requests_of L)) upd st)
  = request_store st.
Proof. done. Qed.

(** Completing the request that a begun await put first undoes what
    beginning it did to the requests, the registry and the allocator's
    budget; the operation is left with no request attached. *)
Lemma completed_begun_with strategy local_ L u ambient st a l n :
  local_store st !! L = Some a ->
  registry L st l ->
  memory st = S n ->
  completed (fresh (dom (request_store st))) u
    {| next := next (requests a); prev := Some (Requests_of L);
       resume := Some (Captured (captured st)); local := local_;
       scope := ambient; uvreq := Some u; resumefun := Some strategy |}
    (begun_with strategy local_ L u ambient st)
  = set_uv_store (insert u {| data := None |}) (set_captured S st).
Proof.
  intros HL (a' & HL' & Hl) Hm.
  assert (a' = a) by congruence. subst a'.
  set (b := fresh (dom (request_store st))).
  assert (Hfresh : request_store st !! b = None) by apply fresh_request_not_live.
  unfold completed, unlink_request, begun_with, suspended, allocated,
    registered.
  cbn [prev next]. fold b.
  rewrite !local_store_update_at. store_simpl. rewrite HL.
  destruct l as [|c l']; cbn in Hl.
  - rewrite Hl. cbn [update_request]. apply state_eq; store_simpl.
    + apply map_eq. intros i. destruct (decide (i = b)) as [->|Hne].
      * by rewrite lookup_delete_eq.
      * rewrite lookup_delete_ne by done.
        rewrite !lookup_alter_ne by done. by rewrite lookup_insert_ne.
    + by rewrite insert_insert_eq.
    + apply map_eq. intros i. destruct (decide (i = L)) as [->|Hne].
      * rewrite !lookup_alter_eq, HL. cbn. destruct a as [lo rq].
        cbn in Hl. destruct rq. cbn in *. by subst.
      * by rewrite !lookup_alter_ne.
    + done.
    + by rewrite Hm.
    + done.
    + done.
  - destruct Hl as (Hfirst & rc & Hrc & Hprev & _). rewrite Hfirst.
    assert (Hcb : c <> b) by (intros ->; congruence).
    cbn [update_request]. apply state_eq; store_simpl.
    + apply map_eq. intros i. destruct (decide (i = b)) as [->|Hne].
      * by rewrite lookup_delete_eq.
      * rewrite lookup_delete_ne by done.
        destruct (decide (i = c)) as [->|Hnc].
        -- rewrite !(lookup_alter_ne _ _ b c) by done.
           rewrite lookup_alter_eq. rewrite !(lookup_alter_ne _ _ b c) by done.
           rewrite lookup_alter_eq. rewrite !(lookup_alter_ne _ _ b c) by done.
           rewrite lookup_insert_ne by done. rewrite Hrc. cbn.
           destruct rc. cbn in *. by subst.
        -- rewrite !lookup_alter_ne by done. by rewrite lookup_insert_ne.
    + by rewrite insert_insert_eq.
    + apply map_eq. intros i. destruct (decide (i = L)) as [->|Hne].
      * rewrite !lookup_alter_eq, HL. cbn. destruct a as [lo rq].
        cbn in Hfirst. destruct rq. cbn in *. by subst.
      * by rewrite !lookup_alter_ne.
    + done.
    + by rewrite Hm.
    + done.
    + done.
Qed.

Lemma detach_idle u st :
  uv_store st !! u = Some {| data := None |} ->
  set_uv_store (insert u {| data := None |}) st = st.
Proof.
  intros Hu. apply state_eq; store_simpl; try done. by apply insert_id.
Qed.

Lemma begun_is_begun_with L u ambient st :
  begun L u ambient st
  = begun_with async_resume_default_fun (lh_value_async_local_ptr (Some L))
      L u ambient st.
Proof. reflexivity. Qed.

(** X6. Round trip.  An await begun under the root handler on an operation
    with nothing attached, and then completed with [err], leaves the machine
    exactly as it was before the await (requests, registry links, operations,
    handler state, scopes and the allocator's budget) but for the one
    continuation captured and the one [lh_release_resume] call that hands it
    the status. *)
Theorem await_round_trip (L : block) (ambient : cancel_scope_ptr)
    (outer : yielder) (st : state) (l : list block) (u : block) (n : nat)
    (err : Z) :
  registry L st l ->
  uv_store st !! u = Some {| data := None |} ->
  memory st = S n ->
  exists st1,
    asyncx_await (under_root L ambient outer) (Some u) st
      = Exited 1 lh_value_null st1
    /\ async_req_resume (Some u) err st1
       = Done tt
           (set_calls
              (fun t => t ++ [Lh_release_resume (Captured (captured st))
                               (lh_value_async_local_ptr (Some L))
                               (lh_value_int err)])
              (set_captured S st)).
Proof.
  intros Hreg Hu Hm. pose proof Hreg as (a & HL & _).
  exists (begun L u ambient st). split.
  - apply asyncx_await_run with {| data := None |} a n; try done.
    by apply registry_first_live with L l.
  - rewrite begun_is_begun_with.
    destruct (complete_begun_with async_resume_default_fun
                (lh_value_async_local_ptr (Some L)) L u ambient st a l err
                HL Hreg) as [-> _].
    rewrite (completed_begun_with _ _ L u ambient st a l n HL Hreg Hm).
    rewrite detach_idle by done. reflexivity.
Qed.

(** X7. Awaiting an operation that already has a pending request.
    [async_request_alloc] overwrites the back-reference of the operation, so
    the completion resumes the second await only and leaves the operation
    with nothing attached: the machine is as before the second await but for
    that.  The first request stays in the registry with no operation
    pointing to it, so further completions of the operation do nothing, no
    completion can reach that request, and releasing the handler fails its
    assertion. *)
Theorem second_await_orphans_first (L : block) (ambient : cancel_scope_ptr)
    (outer : yielder) (st : state) (l : list block) (u b0 : block) (n : nat)
    (err : Z) :
  pending_ok L st l ->
  uv_store st !! u = Some {| data := Some (Req_at b0) |} ->
  memory st = S n ->
  let st2 :=
    set_calls
      (fun t => t ++ [Lh_release_resume (Captured (captured st))
                        (lh_value_async_local_ptr (Some L))
                        (lh_value_int err)])
      (set_uv_store (insert u {| data := None |}) (set_captured S st)) in
  exists st1,
    asyncx_await (under_root L ambient outer) (Some u) st
      = Exited 1 lh_value_null st1
    /\ attached u st1 <> Some (Req_at b0)
    /\ async_req_resume (Some u) err st1 = Done tt st2
    /\ registry L st2 l /\ b0 ∈ l
    /\ (exists r0, request_store st2 !! b0 = Some r0 /\ uvreq r0 = Some u)
    /\ (forall u' x, uv_store st2 !! u' = Some x -> data x <> Some (Req_at b0))
    /\ (forall err', async_req_resume (Some u) err' st2 = Done tt st2)
    /\ _async_release (lh_value_async_local_ptr (Some L)) st2 = Aborted st2.
Proof.
  intros Hok Hu Hm st2. pose proof (pending_registry _ _ _ Hok) as Hreg.
  pose proof Hreg as (a & HL & _).
  destruct (pending_attached _ _ _ Hok u _ (Req_at b0) Hu eq_refl)
    as (b & r0 & Hb & Hin & Hr0 & Huv).
  injection Hb as <-.
  assert (Hreg2 : registry L st2 l) by (by apply registry_frame with st).
  exists (begun L u ambient st). split_and!.
  - apply asyncx_await_run with {| data := Some (Req_at b0) |} a n; try done.
    by apply registry_first_live with L l.
  - rewrite begun_is_begun_with. unfold attached.
    rewrite begun_with_uv_store, lookup_insert_eq. cbn. intros [= Hb].
    pose proof (fresh_request_not_live st) as Hfresh. congruence.
  - rewrite begun_is_begun_with.
    destruct (complete_begun_with async_resume_default_fun
                (lh_value_async_local_ptr (Some L)) L u ambient st a l err
                HL Hreg) as [-> _].
    by rewrite (completed_begun_with _ _ L u ambient st a l n HL Hreg Hm).
  - done.
  - done.
  - by exists r0.
  - intros u' x Hx Hd. unfold st2 in Hx. store_simpl.
    destruct (decide (u' = u)) as [->|Hne].
    + rewrite lookup_insert_eq in Hx. injection Hx as <-. done.
    + rewrite lookup_insert_ne in Hx by done.
      destruct (pending_attached _ _ _ Hok u' x (Req_at b0) Hx Hd)
        as (b & r & Hb & _ & Hr & Huv').
      injection Hb as <-. congruence.
  - intros err'. apply async_req_resume_noop with {| data := None |};
      [|done]. unfold st2. store_simpl. by rewrite lookup_insert_eq.
  - destruct l as [|c l']; [by apply elem_of_nil in Hin|].
    by apply async_release_pending with c l'.
Qed.

(** ** Accounting for request objects *)

Lemma dom_update p upd st :
  dom (request_store (update_request p upd st)) = dom (request_store st).
Proof.
  destruct p as [[b|l]|]; try done. unfold update_request. store_simpl.
  apply dom_alter_L.
Qed.

Lemma dom_registered L req st :
  dom (request_store (registered L req st)) = dom (request_store st).
Proof.
  unfold registered. destruct (local_store st !! L); [|done].
  by rewrite !dom_update.
Qed.

Lemma dom_begun L u ambient st :
  dom (request_store (begun L u ambient st))
  = {[ fresh (dom (request_store st)) ]} ∪ dom (request_store st).
Proof.
  unfold begun, suspended. rewrite dom_update. store_simpl.
  rewrite dom_registered, !dom_update. store_simpl. apply dom_insert_L.
Qed.

Lemma dom_completed b u r st :
  dom (request_store (completed b u r st))
  = dom (request_store st) ∖ {[ b ]}.
Proof.
  unfold completed. store_simpl. rewrite dom_delete_L. f_equal.
  unfold unlink_request. destruct (prev r); by rewrite !dom_update.
Qed.

Lemma list_to_set_filter_ne (b : block) (l : list block) :
  list_to_set (filter (fun y => y <> b) l) =@{gset block}
  list_to_set l ∖ {[ b ]}.
Proof.
  apply set_eq. intros x.
  rewrite elem_of_difference, !elem_of_list_to_set, list_elem_of_filter.
  rewrite elem_of_singleton. tauto.
Qed.

Lemma length_filter_ne (b : block) (l : list block) :
  NoDup l -> b ∈ l ->
  S (length (filter (fun y => y <> b) l)) = length l.
Proof.
  intros Hnd Hb. apply list_elem_of_split in Hb as (l1 & l2 & ->).
  rewrite filter_ne_split by done. rewrite !length_app. cbn. lia.
Qed.

(** One begun await keeps the account. *)
Lemma begin_await_accounted L ambient outer st l u n :
  accounted L st l ->
  is_Some (uv_store st !! u) ->
  memory st = S n ->
  let b := fresh (dom (request_store st)) in
  asyncx_await (under_root L ambient outer) (Some u) st
    = Exited 1 lh_value_null (begun L u ambient st)
  /\ attached u (begun L u ambient st) = Some (Req_at b)
  /\ accounted L (begun L u ambient st) (b :: l)
  /\ memory (begun L u ambient st) = n.
Proof.
  intros [Hok Hdom] Hu Hm b.
  destruct (begin_await_step L ambient outer st l u n Hok Hu Hm)
    as (Hrun & Hatt & Hok').
  split_and!; try done.
  - split; [done|]. by rewrite dom_begun, list_to_set_cons, <- Hdom.
  - by rewrite memory_begun, Hm.
Qed.

(** One completion keeps the account. *)
Lemma complete_operation_accounted L st l u err :
  accounted L st l ->
  is_Some (uv_store st !! u) ->
  exists st',
    async_req_resume (Some u) err st = Done tt st'
    /\ accounted L st' (filter (fun y => Some (Req_at y) <> attached u st) l)
    /\ (memory st' + length (filter (fun y => Some (Req_at y) <> attached u st) l)
        = memory st + length l)%nat
    /\ (forall u', is_Some (uv_store st !! u') -> is_Some (uv_store st' !! u')).
Proof.
  intros [Hok Hdom] [x Hx]. unfold attached. rewrite Hx.
  destruct (data x) as [[b|L']|] eqn:Hd.
  - destruct (complete_attached_step L st l u x b err Hok Hx Hd)
      as (r & f & Hr & Hf & Hrun & Hok').
    destruct (pending_attached _ _ _ Hok u x _ Hx Hd)
      as (b' & r' & [= <-] & Hbl & _).
    eexists. split; [exact Hrun|].
    rewrite (list_filter_iff (fun y => Some (Req_at y) <> Some (Req_at b))
               (fun y => y <> b)) by (intros y; split; congruence).
    split_and!.
    + split; [done|]. store_simpl.
      by rewrite dom_completed, Hdom, list_to_set_filter_ne.
    + store_simpl. rewrite memory_completed.
      pose proof (length_filter_ne b l (pending_nodup _ _ _ Hok) Hbl). lia.
    + intros u0 Hu0. store_simpl. rewrite uv_store_completed.
      rewrite lookup_insert_is_Some. destruct (decide (u = u0)); auto.
  - destruct (pending_attached _ _ _ Hok u x _ Hx Hd)
      as (b' & r' & Hb & _). done.
  - exists st. split; [by eapply async_req_resume_noop|].
    rewrite filter_all by done. by split_and!.
Qed.

(** X8. Accounting.  Along any sequence of begun awaits and completions
    under the root handler, starting where the live request objects are
    exactly the pending requests of the registry, they stay exactly those:
    every allocated request is registered and every completed one is freed,
    so the allocator's budget plus the number of pending requests never
    changes. *)
Theorem run_calls_accounted (L : block) (ambient : cancel_scope_ptr)
    (outer : yielder) (cs : list call) (st : state) (l : list block) :
  accounted L st l ->
  Forall (fun c => is_Some (uv_store st !! call_operation c)) cs ->
  (begins cs <= memory st)%nat ->
  exists st' l',
    run_calls (under_root L ambient outer) cs (Req_at <$> l) st
      = Done (Req_at <$> l') st'
    /\ accounted L st' l'
    /\ (memory st' + length l' = memory st + length l)%nat.
Proof.
  revert st l. induction cs as [|c cs IH]; intros st l Hacc Hops Hmem.
  - by exists st, l.
  - apply Forall_cons in Hops as [Hop Hops]. destruct c as [u|u err].
    + simpl in Hmem, Hop. destruct (memory st) as [|n] eqn:Hm; [lia|].
      destruct (begin_await_accounted L ambient outer st l u n Hacc Hop Hm)
        as (Hrun & Hatt & Hacc' & Hm').
      cbn [run_calls]. rewrite Hrun, Hatt.
      destruct (IH _ (fresh (dom (request_store st)) :: l) Hacc')
        as (st' & l' & Hrun' & Hacc'' & Hsum).
      * eapply Forall_impl; [exact Hops|]. intros c Hc. simpl in Hc.
        rewrite (begun_uv_store L u ambient st).
        rewrite lookup_insert_is_Some.
        destruct (decide (u = call_operation c)); auto.
      * rewrite Hm'. lia.
      * exists st', l'. split; [exact Hrun'|]. split; [done|].
        rewrite Hsum, Hm'. cbn. lia.
    + simpl in Hmem, Hop.
      destruct (complete_operation_accounted L st l u err Hacc Hop)
        as (st1 & Hrun & Hacc' & Hsum & Huv).
      cbn [run_calls]. rewrite Hrun.
      rewrite (filter_fmap_req _
                 (fun y => Some (Req_at y) <> attached u st)) by done.
      destruct (IH _ _ Hacc') as (st' & l' & Hrun' & Hacc'' & Hsum').
      * eapply Forall_impl; [exact Hops|]. intros c Hc. by apply Huv.
      * pose proof (length_filter
                      (fun y => Some (Req_at y) <> attached u st) l). lia.
      * exists st', l'. split; [exact Hrun'|]. split; [done|]. lia.
Qed.

(** ** What a completion leaves alone *)




(** ** The root handler around an action that awaits *)

(** The action of the bootstrap's shape: inside the outer cancel scope it
    awaits the operation [u] and goes on with [rest]. *)
Lemma handle_first_await outer L a u x rest arg st n err :
  local_store st !! L = Some a ->
  next (requests a) = None ->
  memory st = S n ->
  uv_store st !! u = Some x ->
  let action : lh_actionfun := fun lh_yield _ =>
    with_implicit_do lh_value_null _cancel_scope lh_yield
      (fun lh_yield' =>
         e <- asyncx_await lh_yield' (Some u) ;; rest lh_yield' e) in
  let b := fresh (dom (request_store st)) in
  exists st1 st2,
    lh_handle outer _async_def (lh_value_async_local_ptr (Some L)) action arg st
      = Done lh_value_null st1
    /\ registry L st1 [b]
    /\ request_store st1 !! b
       = Some {| next := None; prev := Some (Requests_of L);
                 resume := Some (Captured (captured st));
                 local := lh_value_async_local_ptr (Some L);
                 scope := None; uvreq := Some u;
                 resumefun := Some async_resume_default_fun |}
    /\ calls st1 = calls st
    /\ is_Some (local_store st1 !! L)
    /\ async_req_resume (Some u) err st1 = Done tt st2
    /\ calls st2
       = calls st ++ [Lh_release_resume (Captured (captured st))
                        (lh_value_async_local_ptr (Some L))
                        (lh_value_int err)]
    /\ registry L st2 []
    /\ memory st2 = S n.
Proof.
  intros HL Hnext Hm Hx action b.
  assert (Hreg : registry L st []) by (by exists a).
  pose proof (begun_with_registry async_resume_default_fun
                (lh_value_async_local_ptr (Some L)) L u None st [] Hreg)
    as Hreg1.
  pose proof (begun_with_self async_resume_default_fun
                (lh_value_async_local_ptr (Some L)) L u None st a [] HL Hreg)
    as Hself.
  destruct (complete_begun_with async_resume_default_fun
              (lh_value_async_local_ptr (Some L)) L u None st a [] err
              HL Hreg) as [Hrun Hreg2].
  rewrite (completed_begun_with async_resume_default_fun
             (lh_value_async_local_ptr (Some L)) L u None st a [] n
             HL Hreg Hm) in Hrun, Hreg2.
  rewrite Hnext in Hself.
  assert (Hawait :
    asyncx_await (under_root L None outer) (Some u) st
    = Exited 1 lh_value_null
        (begun_with async_resume_default_fun
           (lh_value_async_local_ptr (Some L)) L u None st)).
  { rewrite <- begun_is_begun_with.
    apply (asyncx_await_run L None outer u x a n st Hm Hx HL).
    by rewrite Hnext. }
  eexists _, _. split_and!.
  - unfold lh_handle, action, with_implicit_do, lh_handle.
    by rewrite (bind_exited _ _ _ _ _ _ Hawait).
  - exact Hreg1.
  - exact Hself.
  - apply calls_begun_with.
  - destruct Hreg1 as (a1 & Ha1 & _). by exists a1.
  - exact Hrun.
  - reflexivity.
  - destruct Hreg2 as (a2 & Ha2 & Hl2). by exists a2.
  - cbn [memory set_calls set_uv_store set_captured]. exact Hm.
Qed.

(** X12. The root handler around an action that awaits.  When the action,
    run inside the outer cancel scope as the bootstrap runs it, reaches its
    first await, [async_handler] returns [lh_value_null] to its caller at
    once, whatever the action would do after the await: nothing of the rest
    has run, the handler's local state is not released, and the request is
    the one element of its registry, bound to the NULL scope.  The
    completion of the operation then hands the status to the continuation
    captured at the await and leaves the registry empty again. *)
Theorem async_handler_returns_at_first_await (outer : yielder)
    (loop_ : uv_loop_ptr) (arg : lh_value) (u : block)
    (rest : yielder -> Z -> exec lh_value) (st : state) (n : nat) (err : Z) :
  memory st = S (S n) ->
  is_Some (uv_store st !! u) ->
  let action : lh_actionfun := fun lh_yield _ =>
    with_implicit_do lh_value_null _cancel_scope lh_yield
      (fun lh_yield' =>
         e <- asyncx_await lh_yield' (Some u) ;; rest lh_yield' e) in
  let L := fresh (dom (local_store st)) in
  let b := fresh (dom (request_store st)) in
  exists st1 st2,
    async_handler outer loop_ action arg st = Done lh_value_null st1
    /\ registry L st1 [b]
    /\ request_store st1 !! b
       = Some {| next := None; prev := Some (Requests_of L);
                 resume := Some (Captured (captured st));
                 local := lh_value_async_local_ptr (Some L);
                 scope := None; uvreq := Some u;
                 resumefun := Some async_resume_default_fun |}
    /\ calls st1 = calls st
    /\ is_Some (local_store st1 !! L)
    /\ async_req_resume (Some u) err st1 = Done tt st2
    /\ calls st2
       = calls st ++ [Lh_release_resume (Captured (captured st))
                        (lh_value_async_local_ptr (Some L))
                        (lh_value_int err)]
    /\ registry L st2 []
    /\ memory st2 = S n.
Proof.
  intros Hm [x Hx] action L b.
  rewrite (async_handler_installs _ _ _ _ _ (S n) Hm).
  apply (handle_first_await outer L
           {| loop := loop_; requests := zeroed_request |} u x rest arg
           (set_memory pred
              (set_local_store
                 (insert L {| loop := loop_; requests := zeroed_request |})
                 st)) n err).
  - cbn [local_store set_memory set_local_store]. apply lookup_insert_eq.
  - reflexivity.
  - cbn [memory set_memory set_local_store]. by rewrite Hm.
  - exact Hx.
Qed.

(** ** The properties above on the example states *)


Lemma in_scope_of_partial_order_witness :
  in_scope_of 3 example_scopes (Some 3%positive) (Some 3%positive)
    = Walk_result true
  /\ in_scope_of 3 example_scopes (Some 3%positive) (Some 1%positive)
     = Walk_result true.
Proof.
  assert (Hin : forall b, is_Some (example_scopes !! b) ->
                          scope_in example_scopes (Some b)).
  { intros b Hb a [= <-]. exact Hb. }
  destruct (in_scope_of_partial_order example_scopes (Some 3%positive)
              (Some 2%positive) (Some 1%positive) 3 example_scopes_built)
    as (Hrefl & Htrans & _).
  - apply Hin. eexists. reflexivity.
  - apply Hin. eexists. reflexivity.
  - vm_compute. lia.
  - split; [exact Hrefl|]. apply Htrans; vm_compute; reflexivity.
Defined.


Lemma async_request_alloc_registers_witness :
  exists b a st',
    async_request_alloc (under_root 7%positive None no_handler)
      (Some 1%positive) example_state
      = Done (Some (Req_at b)) st'
    /\ request_store example_state !! b = None
    /\ local_store example_state !! 7%positive = Some a
    /\ attached 1%positive st' = Some (Req_at b)
    /\ request_store st' !! b
       = Some {| next := next (requests a);
                 prev := Some (Requests_of 7%positive);
                 resume := None; local := lh_value_null; scope := None;
                 uvreq := Some 1%positive; resumefun := None |}
    /\ registry 7%positive st' [b]
    /\ memory st' = 4%nat.
Proof.
  apply (async_request_alloc_registers 7%positive None no_handler
           example_state [] 1%positive 4).
  - apply example_state_registry.
  - apply example_operation_1.
  - reflexivity.
Defined.

Lemma await_round_trip_witness :
  exists st1,
    asyncx_await (under_root 7%positive None no_handler) (Some 1%positive)
      example_state
      = Exited 1 lh_value_null st1
    /\ async_req_resume (Some 1%positive) (-4) st1
       = Done tt
           (set_calls
              (fun t => t ++ [Lh_release_resume (Captured (captured example_state))
                               (lh_value_async_local_ptr (Some 7%positive))
                               (lh_value_int (-4))])
              (set_captured S example_state)).
Proof.
  apply (await_round_trip 7%positive None no_handler example_state []
           1%positive 4 (-4)).
  - apply example_state_registry.
  - reflexivity.
  - reflexivity.
Defined.

Lemma example_pending_ok :
  pending_ok 7%positive example_pending
    [fresh (dom (request_store example_state))].
Proof.
  apply (begin_await_step 7%positive None no_handler example_state []
           1%positive 4).
  - apply example_state_pending_ok.
  - apply example_operation_1.
  - reflexivity.
Qed.

Lemma example_fresh_request :
  fresh (dom (request_store example_state)) = 1%positive.
Proof. vm_compute. reflexivity. Qed.

Lemma second_await_orphans_first_witness :
  let st2 :=
    set_calls
      (fun t => t ++ [Lh_release_resume (Captured (captured example_pending))
                        (lh_value_async_local_ptr (Some 7%positive))
                        (lh_value_int 0)])
      (set_uv_store (insert 1%positive {| data := None |})
         (set_captured S example_pending)) in
  exists st1,
    asyncx_await (under_root 7%positive None no_handler) (Some 1%positive)
      example_pending
      = Exited 1 lh_value_null st1
    /\ async_req_resume (Some 1%positive) 0 st1 = Done tt st2
    /\ registry 7%positive st2 [1%positive]
    /\ _async_release (lh_value_async_local_ptr (Some 7%positive)) st2
       = Aborted st2.
Proof.
  intros st2.
  destruct (second_await_orphans_first 7%positive None no_handler
              example_pending [1%positive] 1%positive 1%positive 3 0)
    as (st1 & Hrun & _ & Hdone & Hreg & _ & _ & _ & _ & Hrel).
  - rewrite <- example_fresh_request. apply example_pending_ok.
  - apply example_pending_operation.
  - vm_compute. reflexivity.
  - exists st1. split; [exact Hrun|]. split; [exact Hdone|].
    split; [exact Hreg | exact Hrel].
Defined.

Lemma example_state_accounted : accounted 7%positive example_state [].
Proof. split; [apply example_state_pending_ok|]. apply dom_empty_L. Qed.

Lemma run_calls_accounted_witness :
  exists st' l',
    run_calls (under_root 7%positive None no_handler)
      [BeginAwait 1%positive; BeginAwait 2%positive;
       CompleteOperation 2%positive (-4)]
      (Req_at <$> []) example_state
      = Done (Req_at <$> l') st'
    /\ accounted 7%positive st' l'
    /\ (memory st' + length l' = memory example_state + length (@nil block))%nat.
Proof.
  apply (run_calls_accounted 7%positive None no_handler
           [BeginAwait 1%positive; BeginAwait 2%positive;
            CompleteOperation 2%positive (-4)] example_state []).
  - apply example_state_accounted.
  - repeat apply Forall_cons_2; try apply Forall_nil_2;
      first [apply example_operation_1 | apply example_operation_2].
  - vm_compute. lia.
Defined.


Lemma example_awaiting_local :
  local_store example_awaiting !! 7%positive
  = Some {| loop := Some 3%positive; requests := zeroed_request |}.
Proof. reflexivity. Qed.

Lemma nested_handlers_pass_through_witness :
  let root :=
    with_handler _async_def (lh_value_async_local_ptr (Some 7%positive))
      no_handler in
  let ls := [Scope_layer lh_value_null; Channel_layer (lh_long 9);
             Channel_layer (lh_long 8)] in
  async_loop (nest ls root) example_awaiting
    = Done (Some 3%positive) example_awaiting
  /\ async_req_register (nest ls root) (Some (Req_at 1%positive))
       example_awaiting
     = async_req_register root (Some (Req_at 1%positive)) example_awaiting.
Proof.
  intros root ls.
  destruct (nested_handlers_pass_through ls 7%positive no_handler
              {| loop := Some 3%positive; requests := zeroed_request |}
              (Some (Req_at 1%positive)) lh_value_null example_awaiting)
    as (Hloop & _ & _ & _ & Hreg).
  - apply example_awaiting_local.
  - eexists. reflexivity.
  - intros H. by destruct H.
  - split; [exact Hloop | exact Hreg].
Defined.


Lemma async_handler_returns_at_first_await_witness :
  let action : lh_actionfun := fun lh_yield _ =>
    with_implicit_do lh_value_null _cancel_scope lh_yield
      (fun lh_yield' =>
         e <- asyncx_await lh_yield' (Some 1%positive) ;;
         ret (lh_value_int e)) in
  exists st1 st2,
    async_handler no_handler (Some 3%positive) action lh_value_null
      example_state
      = Done lh_value_null st1
    /\ calls st1 = calls example_state
    /\ async_req_resume (Some 1%positive) (-4) st1 = Done tt st2
    /\ memory st2 = 4%nat.
Proof.
  intros action.
  destruct (async_handler_returns_at_first_await no_handler (Some 3%positive)
              lh_value_null 1%positive (fun _ e => ret (lh_value_int e))
              example_state 3 (-4))
    as (st1 & st2 & Hrun & _ & _ & Hcalls & _ & Hdone & _ & _ & Hm).
  - reflexivity.
  - apply example_operation_1.
  - exists st1, st2. by split_and!.
Defined.
